(** * tracklib.core.Coords and tracklib.core.Utils

    A shallow embedding of the coordinate classes of tracklib
    ([GeoCoords], [ENUCoords], [ECEFCoords]), of the projection functions
    [_proj] / [_unproj], and of the functions of [Utils]: [makeCoords],
    [compLike], [listify], [unlistify], [makeDistanceMatrix], [rgbToHex],
    [interpColors] and the class [priority_dict].

    Python floats are read as real numbers ([R]); Python ints as [Z].
    The functions of Python's [math] module are the ones of the Reals
    library; [math.atan2] is defined below from [atan]. *)

From Stdlib Require Import Reals Lra Lia ZArith List String Ascii Bool.
From Stdlib Require Import DecimalString Sorted Permutation.
From Stdlib Require HexadecimalString.
Import ListNotations.

Open Scope R_scope.

(** ** Python's [math] module over the reals *)

(** [math.atan2(y, x)]: the angle of the point (x, y), in (-pi, pi]
    (signed zeros do not exist over [R]; atan2(0, 0) is 0). *)
Definition atan2 (y x : R) : R :=
  if Rlt_dec 0 x then atan (y / x)
  else if Rlt_dec x 0 then
         if Rle_dec 0 y then atan (y / x) + PI else atan (y / x) - PI
       else if Rlt_dec 0 y then PI / 2
            else if Rlt_dec y 0 then - (PI / 2)
                 else 0.

(** [math.radians] *)
Definition radians (x : R) : R := x * (PI / 180).

(** ** Module constants *)

Definition Re : R := 6378137.0.
Definition Fe : R := 1.0 / 298.257223563.

(** ** The three coordinate classes, as values

    Each class is a record of its three attributes; [GeoCoords.lon self]
    is Python's [self.lon]. *)

Module GeoCoords.
Record t : Type := new { lon : R; lat : R; hgt : R }.
End GeoCoords.

Module ENUCoords.
Record t : Type := new { E : R; N : R; U : R }.
End ENUCoords.

Module ECEFCoords.
Record t : Type := new { X : R; Y : R; Z : R }.
End ECEFCoords.

(** A base point is passed either as a geodetic or as an ECEF object
    (the annotation [Union[ECEFCoords, GeoCoords]]). *)
Inductive Base : Type :=
| BaseGeo (g : GeoCoords.t)
| BaseECEF (c : ECEFCoords.t).

(** The exceptions a call can leave through: [ZeroDivisionError] of a
    float division, [ValueError] of [math.log] outside its domain,
    [SystemExit] raised by [exit()] after a line was printed on standard
    output; [TypeError] and [AttributeError] arise in the object-level
    model below, when a method is called on an object of the wrong class.
    (A float division whose divisor is a cosine or a positive constant is
    read as the total division of [R]: no float has cosine zero.) *)
Inductive exn : Type :=
| ZeroDivisionError
| ValueError
| TypeError
| AttributeError
| SystemExit (stdout : string).

(** Outcome of a call: a value, or an exception. *)
Inductive result (A : Type) : Type :=
| Ok (a : A)
| Raise (e : exn).
Arguments Ok {A} a.
Arguments Raise {A} e.

(** [str(n)] of a Python int. *)
Definition str (n : Z) : string := NilZero.string_of_int (Z.to_int n).

(** [range(n)] *)
Definition range (n : nat) : list nat := seq 0 n.

(** ** class GeoCoords, first part *)

Definition GeoCoords_getX (self : GeoCoords.t) : R := GeoCoords.lon self.
Definition GeoCoords_getY (self : GeoCoords.t) : R := GeoCoords.lat self.
Definition GeoCoords_getZ (self : GeoCoords.t) : R := GeoCoords.hgt self.

(** GeoCoords.toECEFCoords *)
Definition GeoCoords_toECEFCoords (self : GeoCoords.t) : ECEFCoords.t :=
  let e := sqrt (Fe * (2 - Fe)) in
  let lon := GeoCoords.lon self * PI / 180.0 in
  let lat := GeoCoords.lat self * PI / 180.0 in
  let hgt := GeoCoords.hgt self in
  let n := Re / sqrt (1 - (e * sin lat) ^ 2) in
  {| ECEFCoords.X := (n + hgt) * cos lat * cos lon;
     ECEFCoords.Y := (n + hgt) * cos lat * sin lon;
     ECEFCoords.Z := ((1 - e * e) * n + hgt) * sin lat |}.

(** GeoCoords.toGeoCoords: a copy *)
Definition GeoCoords_toGeoCoords (self : GeoCoords.t) : GeoCoords.t := self.

(** ** class ENUCoords *)

Definition ENUCoords_getX (self : ENUCoords.t) : R := ENUCoords.E self.
Definition ENUCoords_getY (self : ENUCoords.t) : R := ENUCoords.N self.
Definition ENUCoords_getZ (self : ENUCoords.t) : R := ENUCoords.U self.

Definition ENUCoords_norm2D (self : ENUCoords.t) : R :=
  sqrt (ENUCoords.E self ^ 2 + ENUCoords.N self ^ 2).

Definition ENUCoords_norm (self : ENUCoords.t) : R :=
  sqrt (ENUCoords.E self ^ 2 + ENUCoords.N self ^ 2 + ENUCoords.U self ^ 2).

Definition ENUCoords_dot (self point : ENUCoords.t) : R :=
  ENUCoords.E self * ENUCoords.E point + ENUCoords.N self * ENUCoords.N point
  + ENUCoords.U self * ENUCoords.U point.

(** ENUCoords.__sub__(self, p): note the operand order of the source. *)
Definition ENUCoords_sub (self p : ENUCoords.t) : ENUCoords.t :=
  ENUCoords.new (ENUCoords.E p - ENUCoords.E self)
                (ENUCoords.N p - ENUCoords.N self)
                (ENUCoords.U p - ENUCoords.U self).

Definition ENUCoords_add (self p : ENUCoords.t) : ENUCoords.t :=
  ENUCoords.new (ENUCoords.E p + ENUCoords.E self)
                (ENUCoords.N p + ENUCoords.N self)
                (ENUCoords.U p + ENUCoords.U self).

(** ENUCoords.elevationTo: [point - self] is [point.__sub__(self)]. *)
Definition ENUCoords_elevationTo (self point : ENUCoords.t) : R :=
  let visee := ENUCoords_sub point self in
  atan2 (ENUCoords.U visee) (ENUCoords_norm2D visee).

Definition ENUCoords_azimuthTo (self point : ENUCoords.t) : R :=
  let visee := ENUCoords_sub point self in
  atan2 (ENUCoords.E visee) (ENUCoords.N visee).

Definition ENUCoords_distance2DTo (self point : ENUCoords.t) : R :=
  ENUCoords_norm2D (ENUCoords_sub point self).

Definition ENUCoords_distanceTo (self point : ENUCoords.t) : R :=
  ENUCoords_norm (ENUCoords_sub point self).

(** ** class ECEFCoords *)

Definition ECEFCoords_getX (self : ECEFCoords.t) : R := ECEFCoords.X self.
Definition ECEFCoords_getY (self : ECEFCoords.t) : R := ECEFCoords.Y self.
Definition ECEFCoords_getZ (self : ECEFCoords.t) : R := ECEFCoords.Z self.

(** ECEFCoords.toGeoCoords, up to the point where [geo] holds the longitude
    and the latitude in radians (lines 462-480). *)
Definition ECEFCoords_toGeoCoords_radians (self : ECEFCoords.t) : GeoCoords.t :=
  let b := Re * (1 - Fe) in
  let e := sqrt (Fe * (2 - Fe)) in
  let X := ECEFCoords.X self in
  let Y := ECEFCoords.Y self in
  let Z := ECEFCoords.Z self in
  let h := Re * Re - b * b in
  let p := sqrt (X * X + Y * Y) in
  let t := atan2 (Z * Re) (p * b) in
  let geo_lon := atan2 Y X in
  let geo_lat := atan2 (Z + h / b * (sin t) ^ 3) (p - h / Re * (cos t) ^ 3) in
  let n := Re / sqrt (1 - (e * sin geo_lat) ^ 2) in
  let geo_hgt := (p / cos geo_lat) - n in
  {| GeoCoords.lon := geo_lon; GeoCoords.lat := geo_lat; GeoCoords.hgt := geo_hgt |}.

(** ECEFCoords.toGeoCoords: then [geo.lon] and [geo.lat] are turned into
    degrees (lines 482-485). *)
Definition ECEFCoords_toGeoCoords (self : ECEFCoords.t) : GeoCoords.t :=
  let geo := ECEFCoords_toGeoCoords_radians self in
  {| GeoCoords.lon := GeoCoords.lon geo * (180.0 / PI);
     GeoCoords.lat := GeoCoords.lat geo * (180.0 / PI);
     GeoCoords.hgt := GeoCoords.hgt geo |}.

(** ECEFCoords.toECEFCoords: a copy *)
Definition ECEFCoords_toECEFCoords (self : ECEFCoords.t) : ECEFCoords.t := self.

(** [base.toECEFCoords()], dispatched on the class of [base]. *)
Definition Base_toECEFCoords (base : Base) : ECEFCoords.t :=
  match base with
  | BaseGeo g => GeoCoords_toECEFCoords g
  | BaseECEF c => ECEFCoords_toECEFCoords c
  end.

(** ECEFCoords.toENUCoords, from the point where [base] is the base as an
    ECEF object and [base_geo] the same as a geodetic object (lines 500-516). *)
Definition ECEFCoords_toENUCoords_at
    (self base : ECEFCoords.t) (base_geo : GeoCoords.t) : ENUCoords.t :=
  let blon := GeoCoords.lon base_geo * PI / 180.0 in
  let blat := GeoCoords.lat base_geo * PI / 180.0 in
  let x := ECEFCoords.X self - ECEFCoords.X base in
  let y := ECEFCoords.Y self - ECEFCoords.Y base in
  let z := ECEFCoords.Z self - ECEFCoords.Z base in
  let slon := sin blon in
  let slat := sin blat in
  let clon := cos blon in
  let clat := cos blat in
  {| ENUCoords.E := - x * slon + y * clon;
     ENUCoords.N := - x * clon * slat - y * slon * slat + z * clat;
     ENUCoords.U := x * clon * clat + y * slon * clat + z * slat |}.

(** ECEFCoords.toENUCoords *)
Definition ECEFCoords_toENUCoords (self : ECEFCoords.t) (base : Base) : ENUCoords.t :=
  let base := Base_toECEFCoords base in
  let base_geo := ECEFCoords_toGeoCoords base in
  ECEFCoords_toENUCoords_at self base base_geo.

Definition ECEFCoords_elevationTo (self point : ECEFCoords.t) : R :=
  let objectif := ECEFCoords_toENUCoords point (BaseECEF self) in
  atan2 (ENUCoords.U objectif) (ENUCoords_norm2D objectif).

Definition ECEFCoords_azimuthTo (self point : ECEFCoords.t) : R :=
  let objectif := ECEFCoords_toENUCoords point (BaseECEF self) in
  atan2 (ENUCoords.E objectif) (ENUCoords.N objectif).

Definition ECEFCoords_dot (self point : ECEFCoords.t) : R :=
  ECEFCoords.X self * ECEFCoords.X point + ECEFCoords.Y self * ECEFCoords.Y point
  + ECEFCoords.Z self * ECEFCoords.Z point.

Definition ECEFCoords_norm (self : ECEFCoords.t) : R :=
  sqrt (ECEFCoords_dot self self).

(** ECEFCoords.__sub__(self, p): the same operand order as in ENUCoords. *)
Definition ECEFCoords_sub (self p : ECEFCoords.t) : ECEFCoords.t :=
  ECEFCoords.new (ECEFCoords.X p - ECEFCoords.X self)
                 (ECEFCoords.Y p - ECEFCoords.Y self)
                 (ECEFCoords.Z p - ECEFCoords.Z self).

Definition ECEFCoords_add (self p : ECEFCoords.t) : ECEFCoords.t :=
  ECEFCoords.new (ECEFCoords.X p + ECEFCoords.X self)
                 (ECEFCoords.Y p + ECEFCoords.Y self)
                 (ECEFCoords.Z p + ECEFCoords.Z self).

Definition ECEFCoords_distanceTo (self point : ECEFCoords.t) : R :=
  ECEFCoords_norm (ECEFCoords_sub point self).

(** ** class ENUCoords, conversions *)

(** ENUCoords.toECEFCoords, from the point where [base] is the base as an
    ECEF object and [base_geo] the same as a geodetic object (lines 236-248). *)
Definition ENUCoords_toECEFCoords_at
    (self : ENUCoords.t) (base : ECEFCoords.t) (base_geo : GeoCoords.t)
  : ECEFCoords.t :=
  let e := ENUCoords.E self in
  let n := ENUCoords.N self in
  let u := ENUCoords.U self in
  let blon := GeoCoords.lon base_geo * PI / 180.0 in
  let blat := GeoCoords.lat base_geo * PI / 180.0 in
  let slon := sin blon in
  let slat := sin blat in
  let clon := cos blon in
  let clat := cos blat in
  {| ECEFCoords.X := - e * slon - n * clon * slat + u * clon * clat + ECEFCoords.X base;
     ECEFCoords.Y := e * clon - n * slon * slat + u * slon * clat + ECEFCoords.Y base;
     ECEFCoords.Z := n * clat + u * slat + ECEFCoords.Z base |}.

(** ENUCoords.toECEFCoords *)
Definition ENUCoords_toECEFCoords (self : ENUCoords.t) (base : Base) : ECEFCoords.t :=
  let base := Base_toECEFCoords base in
  let base_geo := ECEFCoords_toGeoCoords base in
  ENUCoords_toECEFCoords_at self base base_geo.

(** ENUCoords.toENUCoords (re-basing) *)
Definition ENUCoords_toENUCoords (self : ENUCoords.t) (base1 base2 : Base)
  : ENUCoords.t :=
  let base_ecef1 := Base_toECEFCoords base1 in
  let base_ecef2 := Base_toECEFCoords base2 in
  let point_ecef := ENUCoords_toECEFCoords self (BaseECEF base_ecef1) in
  ECEFCoords_toENUCoords point_ecef (BaseECEF base_ecef2).

(** ** Static projection methods *)

(** _projToLambert93.  [math.log] raises ValueError on an argument that is
    not positive. *)
Definition _projToLambert93 (coords : GeoCoords.t) : result ENUCoords.t :=
  let E := 0.08181919106 in
  let Xp := 700000.000 in
  let Yp := 12655612.050 in
  let n := 0.725607765053267 in
  let C := 11754255.4260960 in
  let lambda0 := 0.0523598775598299 in
  let lon := GeoCoords_getX coords * PI / 180.0 in
  let phi := GeoCoords_getY coords * PI / 180.0 in
  let latiso := Rpower ((1 - E * sin phi) / (1 + E * sin phi)) (E / 2) in
  let latiso := tan (PI / 4 + phi / 2) * latiso in
  if Rle_dec latiso 0 then Raise ValueError else
  let latiso := ln latiso in
  let X := Xp + C * exp (- n * latiso) * sin (n * (lon - lambda0)) in
  let Y := Yp - C * exp (- n * latiso) * cos (n * (lon - lambda0)) in
  Ok (ENUCoords.new X Y (GeoCoords_getZ coords)).

(** The body of the [for i in range(10)] loop of __projFromLambert93: one
    refinement of [phi] with the eccentricity correction. *)
Definition Lambert93_refine (E latiso phi : R) : R :=
  let phi := 2 * atan (Rpower ((1 + E * sin phi) / (1 - E * sin phi)) (E / 2)
                       * exp latiso) in
  phi - PI / 2.

(** __projFromLambert93.  The division by [Y - Yp] raises ZeroDivisionError
    when the northing is the one of the cone apex. *)
Definition __projFromLambert93 (coords : ENUCoords.t) : result GeoCoords.t :=
  let E := 0.08181919106 in
  let Xp := 700000.000 in
  let Yp := 12655612.050 in
  let n := 0.725607765053267 in
  let C := 11754255.4260960 in
  let lambda0 := 0.0523598775598299 in
  let X := ENUCoords_getX coords in
  let Y := ENUCoords_getY coords in
  if Req_dec_T (Y - Yp) 0 then Raise ZeroDivisionError else
  let lon := atan (- (X - Xp) / (Y - Yp)) / n + lambda0 in
  let latiso := - ln (sqrt ((X - Xp) ^ 2 + (Y - Yp) ^ 2) / C) / n in
  let phi := 2 * atan (exp latiso) - PI / 2 in
  let phi := fold_left (fun phi (_ : nat) => Lambert93_refine E latiso phi)
                       (range 10) phi in
  Ok (GeoCoords.new (lon * 180 / PI) (phi * 180 / PI) (ENUCoords_getZ coords)).

(** Lines 717-793 of _projFromUTM: the inverse series, on the easting [x]
    reduced by the false easting, the northing [y] reduced by the false
    northing, and the central longitude of the zone in degrees. *)
Definition UTM_inverse_series
    (x y zone_number_to_central_longitude hgt : R) : GeoCoords.t :=
  let K0 := 0.9996 in
  let E := 0.00669438 in
  let E2 := E * E in
  let E3 := E2 * E in
  let E_P2 := E / (1.0 - E) in
  let SQRT_E := sqrt (1 - E) in
  let _E := (1 - SQRT_E) / (1 + SQRT_E) in
  let _E2 := _E * _E in
  let _E3 := _E2 * _E in
  let _E4 := _E3 * _E in
  let _E5 := _E4 * _E in
  let M1 := 1 - E / 4 - 3 * E2 / 64 - 5 * E3 / 256 in
  let M2 := 3 * E / 8 + 3 * E2 / 32 + 45 * E3 / 1024 in
  let M3 := 15 * E2 / 256 + 45 * E3 / 1024 in
  let M4 := 35 * E3 / 3072 in
  let P2 := 3.0 / 2 * _E - 27.0 / 32 * _E3 + 269.0 / 512 * _E5 in
  let P3 := 21.0 / 16 * _E2 - 55.0 / 32 * _E4 in
  let P4 := 151.0 / 96 * _E3 - 417.0 / 128 * _E5 in
  let P5 := 1097.0 / 512 * _E4 in
  let R := 6378137 in
  let m := y / K0 in
  let mu := m / (R * M1) in
  let p_rad := mu + P2 * sin (2 * mu) + P3 * sin (4 * mu)
               + P4 * sin (6 * mu) + P5 * sin (8 * mu) in
  let p_sin := sin p_rad in
  let p_sin2 := p_sin * p_sin in
  let p_cos := cos p_rad in
  let p_tan := p_sin / p_cos in
  let p_tan2 := p_tan * p_tan in
  let p_tan4 := p_tan2 * p_tan2 in
  let ep_sin := 1 - E * p_sin2 in
  let ep_sin_sqrt := sqrt (1 - E * p_sin2) in
  let n := R / ep_sin_sqrt in
  let r := (1 - E) / ep_sin in
  let c := E_P2 * p_cos ^ 2 in
  let c2 := c * c in
  let d := x / (n * K0) in
  let d2 := d * d in
  let d3 := d2 * d in
  let d4 := d3 * d in
  let d5 := d4 * d in
  let d6 := d5 * d in
  let latitude :=
    p_rad
    - (p_tan / r)
      * (d2 / 2 - d4 / 24 * (5 + 3 * p_tan2 + 10 * c - 4 * c2 - 9 * E_P2))
    + d6 / 720 * (61 + 90 * p_tan2 + 298 * c + 45 * p_tan4 - 252 * E_P2 - 3 * c2) in
  let longitude :=
    (d
     - d3 / 6 * (1 + 2 * p_tan2 + c)
     + d5 / 120 * (5 - 2 * c + 28 * p_tan2 - 3 * c2 + 8 * E_P2 + 24 * p_tan4))
    / p_cos in
  let longitude := longitude + radians zone_number_to_central_longitude in
  GeoCoords.new (longitude * 180 / PI) (latitude * 180 / PI) hgt.

(** _projFromUTM (lines 707-715, then the series) *)
Definition _projFromUTM (coords : ENUCoords.t) (zone : Z) (northern : bool)
  : GeoCoords.t :=
  let x := ENUCoords_getX coords - 500000 in
  let y := ENUCoords_getY coords in
  let zone_number_to_central_longitude := ((zone - 1) * 6 - 180 + 3)%Z in
  let y := if negb northern then y - 10000000 else y in
  UTM_inverse_series x y (IZR zone_number_to_central_longitude)
                     (ENUCoords_getZ coords).

(** The line printed before [exit()]. *)
Definition not_implemented (srid : Z) : string :=
  ("Error: SRID code " ++ str srid ++ " is not implmented in Tracklib")%string.

(** _proj *)
Definition _proj (coords : GeoCoords.t) (srid : Z) : result ENUCoords.t :=
  if (srid =? 2154)%Z then _projToLambert93 coords
  else Raise (SystemExit (not_implemented srid)).

(** _unproj *)
Definition _unproj (coords : ENUCoords.t) (srid : Z) : result GeoCoords.t :=
  if (srid =? 2154)%Z then __projFromLambert93 coords
  else if ((srid >=? 32600) && (srid <=? 32799))%Z then
    let zone := ((srid - 32600) mod 100)%Z in
    let north := (srid <? 32700)%Z in
    Ok (_projFromUTM coords zone north)
  else Raise (SystemExit (not_implemented srid)).

(** ** class GeoCoords, second part, and ENUCoords.toGeoCoords *)

(** GeoCoords.toProjCoords *)
Definition GeoCoords_toProjCoords (self : GeoCoords.t) (srid_number : Z)
  : result ENUCoords.t :=
  _proj self srid_number.

(** GeoCoords.toENUCoords with a base object ([isinstance(base, int)] is
    false); with an int the call is [GeoCoords_toProjCoords]. *)
Definition GeoCoords_toENUCoords (self : GeoCoords.t) (base : Base) : ENUCoords.t :=
  let base_ecef := Base_toECEFCoords base in
  let point_ecef := GeoCoords_toECEFCoords self in
  ECEFCoords_toENUCoords point_ecef (BaseECEF base_ecef).

Definition GeoCoords_distanceTo (self point : GeoCoords.t) : R :=
  ECEFCoords_distanceTo (GeoCoords_toECEFCoords self) (GeoCoords_toECEFCoords point).

Definition GeoCoords_distance2DTo (self point : GeoCoords.t) : R :=
  ENUCoords_norm2D (GeoCoords_toENUCoords self (BaseGeo point)).

Definition GeoCoords_elevationTo (self point : GeoCoords.t) : R :=
  let objectif := GeoCoords_toENUCoords point (BaseGeo self) in
  atan2 (ENUCoords.U objectif) (ENUCoords_norm2D objectif).

Definition GeoCoords_azimuthTo (self point : GeoCoords.t) : R :=
  let objectif := GeoCoords_toENUCoords point (BaseGeo self) in
  atan2 (ENUCoords.E objectif) (ENUCoords.N objectif).

(** ENUCoords.toGeoCoords with a base object; with an int the call is
    [_unproj]. *)
Definition ENUCoords_toGeoCoords (self : ENUCoords.t) (base : Base) : GeoCoords.t :=
  let base_ecef := Base_toECEFCoords base in
  let point_ecef := ENUCoords_toECEFCoords self (BaseECEF base_ecef) in
  ECEFCoords_toGeoCoords point_ecef.

(** ** Utils.makeCoords *)

(** [str.upper()] on the ASCII letters. *)
Definition upper_char (c : ascii) : ascii :=
  let n := nat_of_ascii c in
  if ((97 <=? n) && (n <=? 122))%nat then ascii_of_nat (n - 32) else c.

Fixpoint upper (s : string) : string :=
  match s with
  | EmptyString => EmptyString
  | String c s' => String (upper_char c) (upper s')
  end.

(** [u in [a, b]] on strings *)
Definition str_in (u : string) (l : list string) : bool :=
  existsb (String.eqb u) l.

(** What makeCoords hands back: an object of one of the three classes. *)
Inductive Coords : Type :=
| ENU (c : ENUCoords.t)
| GEO (c : GeoCoords.t)
| ECEF (c : ECEFCoords.t).

(** makeCoords; [None] is Python's None, returned when the function body
    ends without a [return]. *)
Definition makeCoords (x y z : R) (srid : string) : option Coords :=
  if str_in (upper srid) ["ENUCOORDS"; "ENU"]%string then
    Some (ENU (ENUCoords.new x y z))
  else if str_in (upper srid) ["GEOCOORDS"; "GEO"]%string then
    Some (GEO (GeoCoords.new x y z))
  else if str_in (upper srid) ["ECEFCOORDS"; "ECEF"]%string then
    Some (ECEF (ECEFCoords.new x y z))
  else None.

(** Case-insensitive comparison of two strings, by folding both to lower
    case letter by letter; used to state when a kind string matches a
    token. *)
Definition lower_char (c : ascii) : ascii :=
  let n := nat_of_ascii c in
  if ((65 <=? n) && (n <=? 90))%nat then ascii_of_nat (n + 32) else c.

Fixpoint eq_nocase (s t : string) : bool :=
  match s, t with
  | EmptyString, EmptyString => true
  | String a s', String b t' =>
      Ascii.eqb (lower_char a) (lower_char b) && eq_nocase s' t'
  | _, _ => false
  end.

(** The six recognized tokens. *)
Definition tokens : list string :=
  ["ENUCOORDS"; "ENU"; "GEOCOORDS"; "GEO"; "ECEFCOORDS"; "ECEF"]%string.

(** ** The classes as objects of a store

    The value-level functions above say what each method computes.  This
    part says where the numbers are read and written: objects live in a
    store, a method receives references, a constructor call and
    [copy.deepcopy] allocate, an attribute assignment overwrites.  Each
    method below follows the statements of its source; the formulas are
    those of the value-level functions.  [__str__] (float formatting) and
    [plot] (matplotlib) are left out. *)

Definition ref : Type := nat.
Definition heap : Type := list Coords.

(** A call on a store: its value and the store it leaves, or the exception. *)
Definition M (A : Type) : Type := heap -> result (A * heap).

Definition ret {A : Type} (a : A) : M A := fun h => Ok (a, h).

Definition raise {A : Type} (e : exn) : M A := fun _ => Raise e.

Definition bind {A B : Type} (m : M A) (k : A -> M B) : M B :=
  fun h =>
    match m h with
    | Ok (a, h') => k a h'
    | Raise e => Raise e
    end.

Notation "x <- m ;; k" := (bind m (fun x => k))
  (at level 61, m at next level, right associativity).
Notation "m ;;; k" := (bind m (fun _ => k))
  (at level 61, right associativity).

(** The outcome of a value-level function, inside a method. *)
Definition lift {A : Type} (r : result A) : M A :=
  match r with
  | Ok a => ret a
  | Raise e => raise e
  end.

(** A constructor call, or the object made by [copy.deepcopy]. *)
Definition alloc (o : Coords) : M ref := fun h => Ok (List.length h, h ++ [o]).

(** The object behind a reference.  (A reference past the end of the
    store cannot come from Python code; reading or writing through one is
    given the outcome AttributeError.) *)
Definition load (r : ref) : M Coords :=
  fun h =>
    match nth_error h r with
    | Some o => Ok (o, h)
    | None => Raise AttributeError
    end.

Fixpoint update (h : heap) (r : ref) (o : Coords) : heap :=
  match h, r with
  | [], _ => []
  | _ :: t, O => o :: t
  | x :: t, S r' => x :: update t r' o
  end.

Definition store (r : ref) (o : Coords) : M unit :=
  fun h =>
    if (r <? List.length h)%nat then Ok (tt, update h r o)
    else Raise AttributeError.

(** Reading the attributes of an object of a given class. *)
Definition load_geo (r : ref) : M GeoCoords.t :=
  o <- load r ;; match o with GEO g => ret g | _ => raise AttributeError end.

Definition load_enu (r : ref) : M ENUCoords.t :=
  o <- load r ;; match o with ENU c => ret c | _ => raise AttributeError end.

Definition load_ecef (r : ref) : M ECEFCoords.t :=
  o <- load r ;; match o with ECEF c => ret c | _ => raise AttributeError end.

(** Attribute assignments [r.lon = v], [r.E = v], [r.X = v], ... *)
Definition set_lon (r : ref) (v : R) : M unit :=
  g <- load_geo r ;;
  store r (GEO (GeoCoords.new v (GeoCoords.lat g) (GeoCoords.hgt g))).

Definition set_lat (r : ref) (v : R) : M unit :=
  g <- load_geo r ;;
  store r (GEO (GeoCoords.new (GeoCoords.lon g) v (GeoCoords.hgt g))).

Definition set_hgt (r : ref) (v : R) : M unit :=
  g <- load_geo r ;;
  store r (GEO (GeoCoords.new (GeoCoords.lon g) (GeoCoords.lat g) v)).

Definition set_E (r : ref) (v : R) : M unit :=
  c <- load_enu r ;;
  store r (ENU (ENUCoords.new v (ENUCoords.N c) (ENUCoords.U c))).

Definition set_N (r : ref) (v : R) : M unit :=
  c <- load_enu r ;;
  store r (ENU (ENUCoords.new (ENUCoords.E c) v (ENUCoords.U c))).

Definition set_U (r : ref) (v : R) : M unit :=
  c <- load_enu r ;;
  store r (ENU (ENUCoords.new (ENUCoords.E c) (ENUCoords.N c) v)).

Definition set_X (r : ref) (v : R) : M unit :=
  c <- load_ecef r ;;
  store r (ECEF (ECEFCoords.new v (ECEFCoords.Y c) (ECEFCoords.Z c))).

Definition set_Y (r : ref) (v : R) : M unit :=
  c <- load_ecef r ;;
  store r (ECEF (ECEFCoords.new (ECEFCoords.X c) v (ECEFCoords.Z c))).

Definition set_Z (r : ref) (v : R) : M unit :=
  c <- load_ecef r ;;
  store r (ECEF (ECEFCoords.new (ECEFCoords.X c) (ECEFCoords.Y c) v)).

(** [copy.deepcopy(self)] *)
Definition deepcopy (self : ref) : M ref := o <- load self ;; alloc o.

(** [coords.getX()], [getY()], [getZ()] on an object of any of the classes *)
Definition getX (coords : ref) : M R :=
  o <- load coords ;;
  match o with
  | GEO g => ret (GeoCoords_getX g)
  | ENU c => ret (ENUCoords_getX c)
  | ECEF c => ret (ECEFCoords_getX c)
  end.

Definition getY (coords : ref) : M R :=
  o <- load coords ;;
  match o with
  | GEO g => ret (GeoCoords_getY g)
  | ENU c => ret (ENUCoords_getY c)
  | ECEF c => ret (ECEFCoords_getY c)
  end.

Definition getZ (coords : ref) : M R :=
  o <- load coords ;;
  match o with
  | GEO g => ret (GeoCoords_getZ g)
  | ENU c => ret (ENUCoords_getZ c)
  | ECEF c => ret (ECEFCoords_getZ c)
  end.

(** A base of either class, as the object passed for it. *)
Definition Base_object (b : Base) : Coords :=
  match b with
  | BaseGeo g => GEO g
  | BaseECEF c => ECEF c
  end.

(** An argument or a value of a call. *)
Inductive value : Type :=
| VNone
| VFloat (x : R)
| VInt (n : Z)
| VRef (r : ref).

(** *** Methods shared by the conversions *)

(** GeoCoords.toECEFCoords *)
Definition GeoCoords_toECEFCoords_m (self : ref) : M ref :=
  xyz <- alloc (ECEF (ECEFCoords.new 0.0 0.0 0.0)) ;;
  g <- load_geo self ;;
  let v := GeoCoords_toECEFCoords g in
  set_X xyz (ECEFCoords.X v) ;;;
  set_Y xyz (ECEFCoords.Y v) ;;;
  set_Z xyz (ECEFCoords.Z v) ;;;
  ret xyz.

(** ECEFCoords.copy and ECEFCoords.toECEFCoords *)
Definition ECEFCoords_copy_m (self : ref) : M ref := deepcopy self.

Definition ECEFCoords_toECEFCoords_m (self : ref) : M ref := ECEFCoords_copy_m self.

(** [base.toECEFCoords()], looked up in the class of [base]; ENUCoords has
    the method with one more parameter. *)
Definition toECEFCoords (base : ref) : M ref :=
  o <- load base ;;
  match o with
  | GEO _ => GeoCoords_toECEFCoords_m base
  | ECEF _ => ECEFCoords_toECEFCoords_m base
  | ENU _ => raise TypeError
  end.

(** ECEFCoords.toGeoCoords *)
Definition ECEFCoords_toGeoCoords_m (self : ref) : M ref :=
  geo <- alloc (GEO (GeoCoords.new 0.0 0.0 0.0)) ;;
  c <- load_ecef self ;;
  let v := ECEFCoords_toGeoCoords_radians c in
  set_lon geo (GeoCoords.lon v) ;;;
  set_lat geo (GeoCoords.lat v) ;;;
  set_hgt geo (GeoCoords.hgt v) ;;;
  g <- load_geo geo ;;
  set_lon geo (GeoCoords.lon g * (180.0 / PI)) ;;;
  g <- load_geo geo ;;
  set_lat geo (GeoCoords.lat g * (180.0 / PI)) ;;;
  ret geo.

(** ECEFCoords.toENUCoords *)
Definition ECEFCoords_toENUCoords_m (self base : ref) : M ref :=
  base <- toECEFCoords base ;;
  enu <- alloc (ENU (ENUCoords.new 0.0 0.0 0.0)) ;;
  base_geo <- ECEFCoords_toGeoCoords_m base ;;
  g <- load_geo base_geo ;;
  c <- load_ecef self ;;
  b <- load_ecef base ;;
  let v := ECEFCoords_toENUCoords_at c b g in
  set_E enu (ENUCoords.E v) ;;;
  set_N enu (ENUCoords.N v) ;;;
  set_U enu (ENUCoords.U v) ;;;
  ret enu.

(** ENUCoords.toECEFCoords *)
Definition ENUCoords_toECEFCoords_m (self base : ref) : M ref :=
  base <- toECEFCoords base ;;
  xyz <- alloc (ECEF (ECEFCoords.new 0.0 0.0 0.0)) ;;
  s <- load_enu self ;;
  base_geo <- ECEFCoords_toGeoCoords_m base ;;
  g <- load_geo base_geo ;;
  b <- load_ecef base ;;
  let v := ENUCoords_toECEFCoords_at s b g in
  set_X xyz (ECEFCoords.X v) ;;;
  set_Y xyz (ECEFCoords.Y v) ;;;
  set_Z xyz (ECEFCoords.Z v) ;;;
  ret xyz.

(** *** Static projection methods, on objects *)

Definition _projToLambert93_m (coords : ref) : M ref :=
  x <- getX coords ;;
  y <- getY coords ;;
  z <- getZ coords ;;
  v <- lift (_projToLambert93 (GeoCoords.new x y z)) ;;
  alloc (ENU v).

Definition __projFromLambert93_m (coords : ref) : M ref :=
  x <- getX coords ;;
  y <- getY coords ;;
  z <- getZ coords ;;
  v <- lift (__projFromLambert93 (ENUCoords.new x y z)) ;;
  alloc (GEO v).

Definition _projFromUTM_m (coords : ref) (zone : Z) (northern : bool) : M ref :=
  x <- getX coords ;;
  y <- getY coords ;;
  z <- getZ coords ;;
  alloc (GEO (_projFromUTM (ENUCoords.new x y z) zone northern)).

Definition _proj_m (coords : ref) (srid : Z) : M ref :=
  if (srid =? 2154)%Z then _projToLambert93_m coords
  else raise (SystemExit (not_implemented srid)).

Definition _unproj_m (coords : ref) (srid : Z) : M ref :=
  if (srid =? 2154)%Z then __projFromLambert93_m coords
  else if ((srid >=? 32600) && (srid <=? 32799))%Z then
    let zone := ((srid - 32600) mod 100)%Z in
    let north := (srid <? 32700)%Z in
    _projFromUTM_m coords zone north
  else raise (SystemExit (not_implemented srid)).

(** *** class GeoCoords *)

(** [GeoCoords(lon, lat, hgt)] *)
Definition GeoCoords_init_m (lon lat hgt : R) : M ref :=
  alloc (GEO (GeoCoords.new lon lat hgt)).

Definition GeoCoords_copy_m (self : ref) : M ref := deepcopy self.

Definition GeoCoords_toProjCoords_m (self : ref) (srid_number : Z) : M ref :=
  _proj_m self srid_number.

Definition GeoCoords_toENUCoords_m (self : ref) (base : value) : M ref :=
  match base with
  | VInt srid => GeoCoords_toProjCoords_m self srid
  | VRef base =>
      base_ecef <- toECEFCoords base ;;
      point_ecef <- GeoCoords_toECEFCoords_m self ;;
      ECEFCoords_toENUCoords_m point_ecef base_ecef
  | VNone | VFloat _ => raise AttributeError
  end.

Definition GeoCoords_toGeoCoords_m (self : ref) : M ref := GeoCoords_copy_m self.

(** *** class ENUCoords *)

(** [ENUCoords(E, N, U)] *)
Definition ENUCoords_init_m (E N U : R) : M ref :=
  alloc (ENU (ENUCoords.new E N U)).

Definition ENUCoords_copy_m (self : ref) : M ref := deepcopy self.

Definition ENUCoords_toGeoCoords_m (self : ref) (base : value) : M ref :=
  match base with
  | VInt srid => _unproj_m self srid
  | VRef base =>
      base_ecef <- toECEFCoords base ;;
      point_ecef <- ENUCoords_toECEFCoords_m self base_ecef ;;
      ECEFCoords_toGeoCoords_m point_ecef
  | VNone | VFloat _ => raise AttributeError
  end.

Definition ENUCoords_toENUCoords_m (self base1 base2 : ref) : M ref :=
  base_ecef1 <- toECEFCoords base1 ;;
  base_ecef2 <- toECEFCoords base2 ;;
  point_ecef <- ENUCoords_toECEFCoords_m self base_ecef1 ;;
  ECEFCoords_toENUCoords_m point_ecef base_ecef2.

Definition ENUCoords_norm2D_m (self : ref) : M R :=
  c <- load_enu self ;; ret (ENUCoords_norm2D c).

Definition ENUCoords_norm_m (self : ref) : M R :=
  c <- load_enu self ;; ret (ENUCoords_norm c).

Definition ENUCoords_dot_m (self point : ref) : M R :=
  c <- load_enu self ;; p <- load_enu point ;; ret (ENUCoords_dot c p).

Definition ENUCoords_sub_m (self p : ref) : M ref :=
  q <- load_enu p ;; c <- load_enu self ;; alloc (ENU (ENUCoords_sub c q)).

Definition ENUCoords_add_m (self p : ref) : M ref :=
  q <- load_enu p ;; c <- load_enu self ;; alloc (ENU (ENUCoords_add c q)).

(** *** class ECEFCoords *)

(** [ECEFCoords(X, Y, Z)] *)
Definition ECEFCoords_init_m (X Y Z : R) : M ref :=
  alloc (ECEF (ECEFCoords.new X Y Z)).

Definition ECEFCoords_dot_m (self point : ref) : M R :=
  c <- load_ecef self ;; p <- load_ecef point ;; ret (ECEFCoords_dot c p).

Definition ECEFCoords_norm_m (self : ref) : M R :=
  d <- ECEFCoords_dot_m self self ;; ret (sqrt d).

(** ECEFCoords.scalar: three in-place products, no return value. *)
Definition ECEFCoords_scalar_m (self : ref) (factor : R) : M unit :=
  c <- load_ecef self ;; set_X self (ECEFCoords.X c * factor) ;;;
  c <- load_ecef self ;; set_Y self (ECEFCoords.Y c * factor) ;;;
  c <- load_ecef self ;; set_Z self (ECEFCoords.Z c * factor).

Definition ECEFCoords_sub_m (self p : ref) : M ref :=
  q <- load_ecef p ;; c <- load_ecef self ;; alloc (ECEF (ECEFCoords_sub c q)).

Definition ECEFCoords_add_m (self p : ref) : M ref :=
  q <- load_ecef p ;; c <- load_ecef self ;; alloc (ECEF (ECEFCoords_add c q)).

(** *** Calls looked up in the class of the receiver *)

(** [a - b]: [type(a).__sub__(a, b)]; GeoCoords has no [__sub__]. *)
Definition sub (a b : ref) : M ref :=
  o <- load a ;;
  match o with
  | ENU _ => ENUCoords_sub_m a b
  | ECEF _ => ECEFCoords_sub_m a b
  | GEO _ => raise TypeError
  end.

(** [v.norm()]: GeoCoords has no [norm]. *)
Definition norm (v : ref) : M R :=
  o <- load v ;;
  match o with
  | ENU _ => ENUCoords_norm_m v
  | ECEF _ => ECEFCoords_norm_m v
  | GEO _ => raise AttributeError
  end.

(** [point.toENUCoords(base)] with one argument: ENUCoords.toENUCoords
    wants two. *)
Definition toENUCoords (point base : ref) : M ref :=
  o <- load point ;;
  match o with
  | GEO _ => GeoCoords_toENUCoords_m point (VRef base)
  | ECEF _ => ECEFCoords_toENUCoords_m point base
  | ENU _ => raise TypeError
  end.

(** *** The relational queries *)

Definition ECEFCoords_distanceTo_m (self point : ref) : M R :=
  d <- sub point self ;; norm d.

Definition ECEFCoords_elevationTo_m (self point : ref) : M R :=
  objectif <- toENUCoords point self ;;
  o <- load_enu objectif ;;
  n <- ENUCoords_norm2D_m objectif ;;
  ret (atan2 (ENUCoords.U o) n).

Definition ECEFCoords_azimuthTo_m (self point : ref) : M R :=
  objectif <- toENUCoords point self ;;
  o <- load_enu objectif ;;
  ret (atan2 (ENUCoords.E o) (ENUCoords.N o)).

Definition GeoCoords_distanceTo_m (self point : ref) : M R :=
  a <- GeoCoords_toECEFCoords_m self ;;
  b <- toECEFCoords point ;;
  ECEFCoords_distanceTo_m a b.

Definition GeoCoords_distance2DTo_m (self point : ref) : M R :=
  enu <- GeoCoords_toENUCoords_m self (VRef point) ;;
  ENUCoords_norm2D_m enu.

Definition GeoCoords_elevationTo_m (self point : ref) : M R :=
  objectif <- toENUCoords point self ;;
  o <- load_enu objectif ;;
  n <- ENUCoords_norm2D_m objectif ;;
  ret (atan2 (ENUCoords.U o) n).

Definition GeoCoords_azimuthTo_m (self point : ref) : M R :=
  objectif <- toENUCoords point self ;;
  o <- load_enu objectif ;;
  ret (atan2 (ENUCoords.E o) (ENUCoords.N o)).

Definition ENUCoords_elevationTo_m (self point : ref) : M R :=
  visee <- sub point self ;;
  o <- load_enu visee ;;
  n <- ENUCoords_norm2D_m visee ;;
  ret (atan2 (ENUCoords.U o) n).

Definition ENUCoords_azimuthTo_m (self point : ref) : M R :=
  visee <- sub point self ;;
  o <- load_enu visee ;;
  ret (atan2 (ENUCoords.E o) (ENUCoords.N o)).

Definition ENUCoords_distance2DTo_m (self point : ref) : M R :=
  d <- sub point self ;; ENUCoords_norm2D_m d.

Definition ENUCoords_distanceTo_m (self point : ref) : M R :=
  d <- sub point self ;; norm d.

(** *** The in-place methods of ENUCoords *)

Definition ENUCoords_rotate_m (self : ref) (theta : R) : M unit :=
  let cr := cos theta in
  let sr := sin theta in
  c <- load_enu self ;;
  let xr := cr * ENUCoords.E c - sr * ENUCoords.N c in
  let yr := sr * ENUCoords.E c + cr * ENUCoords.N c in
  set_E self xr ;;;
  set_N self yr.

Definition ENUCoords_scale_m (self : ref) (h : R) : M unit :=
  c <- load_enu self ;; set_E self (ENUCoords.E c * h) ;;;
  c <- load_enu self ;; set_N self (ENUCoords.N c * h).

Definition ENUCoords_translate_m (self : ref) (tx ty tz : R) : M unit :=
  c <- load_enu self ;; set_E self (ENUCoords.E c + tx) ;;;
  c <- load_enu self ;; set_N self (ENUCoords.N c + ty) ;;;
  c <- load_enu self ;; set_U self (ENUCoords.U c + tz).

(** *** Every method as a call *)

Inductive call : Type :=
(* GeoCoords *)
| Geo_init (lon lat hgt : R)
| Geo_copy (self : ref)
| Geo_toECEFCoords (self : ref)
| Geo_toENUCoords (self : ref) (base : value)
| Geo_toGeoCoords (self : ref)
| Geo_distanceTo (self point : ref)
| Geo_distance2DTo (self point : ref)
| Geo_elevationTo (self point : ref)
| Geo_azimuthTo (self point : ref)
| Geo_toProjCoords (self : ref) (srid_number : Z)
| Geo_getX (self : ref)
| Geo_getY (self : ref)
| Geo_getZ (self : ref)
| Geo_setX (self : ref) (X : R)
| Geo_setY (self : ref) (Y : R)
| Geo_setZ (self : ref) (Z : R)
(* ENUCoords *)
| ENU_init (E N U : R)
| ENU_copy (self : ref)
| ENU_toECEFCoords (self base : ref)
| ENU_toGeoCoords (self : ref) (base : value)
| ENU_toENUCoords (self base1 base2 : ref)
| ENU_norm2D (self : ref)
| ENU_norm (self : ref)
| ENU_dot (self point : ref)
| ENU_elevationTo (self point : ref)
| ENU_azimuthTo (self point : ref)
| ENU_sub (self p : ref)
| ENU_add (self p : ref)
| ENU_distance2DTo (self point : ref)
| ENU_distanceTo (self point : ref)
| ENU_rotate (self : ref) (theta : R)
| ENU_scale (self : ref) (h : R)
| ENU_translate (self : ref) (tx ty tz : R)
| ENU_getX (self : ref)
| ENU_getY (self : ref)
| ENU_getZ (self : ref)
| ENU_setX (self : ref) (X : R)
| ENU_setY (self : ref) (Y : R)
| ENU_setZ (self : ref) (Z : R)
(* ECEFCoords *)
| ECEF_init (X Y Z : R)
| ECEF_copy (self : ref)
| ECEF_toGeoCoords (self : ref)
| ECEF_toENUCoords (self base : ref)
| ECEF_toECEFCoords (self : ref)
| ECEF_elevationTo (self point : ref)
| ECEF_azimuthTo (self point : ref)
| ECEF_dot (self point : ref)
| ECEF_norm (self : ref)
| ECEF_scalar (self : ref) (factor : R)
| ECEF_sub (self p : ref)
| ECEF_add (self p : ref)
| ECEF_distanceTo (self point : ref)
| ECEF_getX (self : ref)
| ECEF_getY (self : ref)
| ECEF_getZ (self : ref)
| ECEF_setX (self : ref) (X : R)
| ECEF_setY (self : ref) (Y : R)
| ECEF_setZ (self : ref) (Z : R).

(** The value of a call that returns an object, a float, or nothing. *)
Definition returns_ref (m : M ref) : M value := r <- m ;; ret (VRef r).
Definition returns_float (m : M R) : M value := x <- m ;; ret (VFloat x).
Definition returns_none (m : M unit) : M value := m ;;; ret VNone.

Definition exec (c : call) : M value :=
  match c with
  | Geo_init lon lat hgt => returns_ref (GeoCoords_init_m lon lat hgt)
  | Geo_copy self => returns_ref (GeoCoords_copy_m self)
  | Geo_toECEFCoords self => returns_ref (GeoCoords_toECEFCoords_m self)
  | Geo_toENUCoords self base => returns_ref (GeoCoords_toENUCoords_m self base)
  | Geo_toGeoCoords self => returns_ref (GeoCoords_toGeoCoords_m self)
  | Geo_distanceTo self point => returns_float (GeoCoords_distanceTo_m self point)
  | Geo_distance2DTo self point => returns_float (GeoCoords_distance2DTo_m self point)
  | Geo_elevationTo self point => returns_float (GeoCoords_elevationTo_m self point)
  | Geo_azimuthTo self point => returns_float (GeoCoords_azimuthTo_m self point)
  | Geo_toProjCoords self srid => returns_ref (GeoCoords_toProjCoords_m self srid)
  | Geo_getX self => returns_float (g <- load_geo self ;; ret (GeoCoords_getX g))
  | Geo_getY self => returns_float (g <- load_geo self ;; ret (GeoCoords_getY g))
  | Geo_getZ self => returns_float (g <- load_geo self ;; ret (GeoCoords_getZ g))
  | Geo_setX self X => returns_none (set_lon self X)
  | Geo_setY self Y => returns_none (set_lat self Y)
  | Geo_setZ self Z => returns_none (set_hgt self Z)
  | ENU_init E N U => returns_ref (ENUCoords_init_m E N U)
  | ENU_copy self => returns_ref (ENUCoords_copy_m self)
  | ENU_toECEFCoords self base => returns_ref (ENUCoords_toECEFCoords_m self base)
  | ENU_toGeoCoords self base => returns_ref (ENUCoords_toGeoCoords_m self base)
  | ENU_toENUCoords self base1 base2 =>
      returns_ref (ENUCoords_toENUCoords_m self base1 base2)
  | ENU_norm2D self => returns_float (ENUCoords_norm2D_m self)
  | ENU_norm self => returns_float (ENUCoords_norm_m self)
  | ENU_dot self point => returns_float (ENUCoords_dot_m self point)
  | ENU_elevationTo self point => returns_float (ENUCoords_elevationTo_m self point)
  | ENU_azimuthTo self point => returns_float (ENUCoords_azimuthTo_m self point)
  | ENU_sub self p => returns_ref (ENUCoords_sub_m self p)
  | ENU_add self p => returns_ref (ENUCoords_add_m self p)
  | ENU_distance2DTo self point => returns_float (ENUCoords_distance2DTo_m self point)
  | ENU_distanceTo self point => returns_float (ENUCoords_distanceTo_m self point)
  | ENU_rotate self theta => returns_none (ENUCoords_rotate_m self theta)
  | ENU_scale self h => returns_none (ENUCoords_scale_m self h)
  | ENU_translate self tx ty tz => returns_none (ENUCoords_translate_m self tx ty tz)
  | ENU_getX self => returns_float (c <- load_enu self ;; ret (ENUCoords_getX c))
  | ENU_getY self => returns_float (c <- load_enu self ;; ret (ENUCoords_getY c))
  | ENU_getZ self => returns_float (c <- load_enu self ;; ret (ENUCoords_getZ c))
  | ENU_setX self X => returns_none (set_E self X)
  | ENU_setY self Y => returns_none (set_N self Y)
  | ENU_setZ self Z => returns_none (set_U self Z)
  | ECEF_init X Y Z => returns_ref (ECEFCoords_init_m X Y Z)
  | ECEF_copy self => returns_ref (ECEFCoords_copy_m self)
  | ECEF_toGeoCoords self => returns_ref (ECEFCoords_toGeoCoords_m self)
  | ECEF_toENUCoords self base => returns_ref (ECEFCoords_toENUCoords_m self base)
  | ECEF_toECEFCoords self => returns_ref (ECEFCoords_toECEFCoords_m self)
  | ECEF_elevationTo self point => returns_float (ECEFCoords_elevationTo_m self point)
  | ECEF_azimuthTo self point => returns_float (ECEFCoords_azimuthTo_m self point)
  | ECEF_dot self point => returns_float (ECEFCoords_dot_m self point)
  | ECEF_norm self => returns_float (ECEFCoords_norm_m self)
  | ECEF_scalar self factor => returns_none (ECEFCoords_scalar_m self factor)
  | ECEF_sub self p => returns_ref (ECEFCoords_sub_m self p)
  | ECEF_add self p => returns_ref (ECEFCoords_add_m self p)
  | ECEF_distanceTo self point => returns_float (ECEFCoords_distanceTo_m self point)
  | ECEF_getX self => returns_float (c <- load_ecef self ;; ret (ECEFCoords_getX c))
  | ECEF_getY self => returns_float (c <- load_ecef self ;; ret (ECEFCoords_getY c))
  | ECEF_getZ self => returns_float (c <- load_ecef self ;; ret (ECEFCoords_getZ c))
  | ECEF_setX self X => returns_none (set_X self X)
  | ECEF_setY self Y => returns_none (set_Y self Y)
  | ECEF_setZ self Z => returns_none (set_Z self Z)
  end.

(** The methods the documentation sets apart as in-place: rotate, scale and
    translate of ENUCoords, and the setters. *)
Definition documented_in_place (c : call) : bool :=
  match c with
  | ENU_rotate _ _ | ENU_scale _ _ | ENU_translate _ _ _ _
  | Geo_setX _ _ | Geo_setY _ _ | Geo_setZ _ _
  | ENU_setX _ _ | ENU_setY _ _ | ENU_setZ _ _
  | ECEF_setX _ _ | ECEF_setY _ _ | ECEF_setZ _ _ => true
  | _ => false
  end.

(** The methods that assign to an attribute of their receiver: the former
    and ECEFCoords.scalar. *)
Definition in_place (c : call) : bool :=
  match c with
  | ECEF_scalar _ _ => true
  | _ => documented_in_place c
  end.

(** A call is free of side effects when the store it leaves is the store it
    found followed by newly made objects, and an object it returns is one of
    those. *)
Definition side_effect_free (c : call) : Prop :=
  forall h v h',
    exec c h = Ok (v, h') ->
    (exists fresh, h' = h ++ fresh)
    /\ (forall r, v = VRef r -> (List.length h <= r < List.length h')%nat).

(** [frame_ok n L post m]: run on a store of at least [n] and at least [L]
    objects, [m] leaves the first [n] objects as they are, does not shrink
    the store, and its value satisfies [post] at the size of the final
    store. *)
Definition frame_ok {A : Type} (n L : nat) (post : A -> nat -> Prop) (m : M A) : Prop :=
  forall h a h',
    (n <= List.length h)%nat -> (L <= List.length h)%nat ->
    m h = Ok (a, h') ->
    firstn n h' = firstn n h
    /\ (List.length h <= List.length h')%nat
    /\ post a (List.length h').

(** The value is a reference to an object made after the first [n]. *)
Definition made_after (n : nat) : ref -> nat -> Prop :=
  fun r L' => (n <= r < L')%nat.

Definition anything {A : Type} : A -> nat -> Prop := fun _ _ => True.

(** The value of a call, when it is a reference, is to such an object. *)
Definition returns_fresh (n : nat) : value -> nat -> Prop :=
  fun v L' => forall r, v = VRef r -> made_after n r L'.

(** ** tracklib.core.Utils: the helper functions *)

Module Utils.

(** The exceptions of these functions. *)
Inductive exn : Type :=
| IndexError
| ZeroDivisionError
| TypeError
| ValueError.

Inductive result (A : Type) : Type :=
| Ok (a : A)
| Raise (e : exn).

Arguments Ok {A} a.

Arguments Raise {A} e.

(** *** compLike *)

(** [s2.split("%")]: the pieces between the percent signs; never empty. *)
Fixpoint split_percent (s : string) : list string :=
  match s with
  | EmptyString => [EmptyString]
  | String c s' =>
      if Ascii.eqb c "%"%char then EmptyString :: split_percent s'
      else match split_percent s' with
           | tok :: rest => String c tok :: rest
           | [] => [String c EmptyString]
           end
  end.

(** [s.find(tok)]: the lowest index at which [tok] starts in [s], or -1. *)
Fixpoint find_index (s tok : string) : option nat :=
  if String.prefix tok s then Some O
  else match s with
       | EmptyString => None
       | String _ s' => option_map S (find_index s' tok)
       end.

Definition find (s tok : string) : Z :=
  match find_index s tok with
  | Some i => Z.of_nat i
  | None => (-1)%Z
  end.

(** [s[n:len(s)]] for [0 <= n] *)
Fixpoint slice_from (n : nat) (s : string) : string :=
  match n, s with
  | O, _ => s
  | S n', String _ s' => slice_from n' s'
  | S _, EmptyString => EmptyString
  end.

(** [s1 in s2] on strings *)
Definition contains (s2 s1 : string) : bool := (0 <=? find s2 s1)%Z.

(** The [for tok in tokens] loop of compLike, from the current [s]. *)
Fixpoint compLike_loop (tokens : list string) (s : string) : bool :=
  match tokens with
  | [] => true
  | tok :: rest =>
      let id := find s tok in
      if (id <? 0)%Z then false
      else compLike_loop rest
             (slice_from (Z.to_nat (id + Z.of_nat (String.length tok))) s)
  end.

Definition compLike (s1 s2 : string) : bool :=
  let tokens := split_percent s2 in
  if (List.length tokens =? 1)%nat then contains s2 s1
  else compLike_loop tokens s1.

(** Whether a percent sign occurs in [s]. *)
Fixpoint has_percent (s : string) : bool :=
  match s with
  | EmptyString => false
  | String c s' => Ascii.eqb c "%"%char || has_percent s'
  end.

(** [t1 + "%" + t2 + ... + "%" + tn], for stating what a pattern is. *)
Fixpoint join_percent (tokens : list string) : string :=
  match tokens with
  | [] => EmptyString
  | [t] => t
  | t :: rest => (t ++ String "%"%char (join_percent rest))%string
  end.

(** [s] holds the tokens one after the other, without overlap. *)
Fixpoint in_order (tokens : list string) (s : string) : Prop :=
  match tokens with
  | [] => True
  | tok :: rest => exists u v, s = (u ++ tok ++ v)%string /\ in_order rest v
  end.

(** *** Sequencing, indexing and division *)

Definition bind {A B : Type} (m : result A) (k : A -> result B) : result B :=
  match m with
  | Ok a => k a
  | Raise e => Raise e
  end.

(** [l[i]] on a list *)
Definition getitem {A : Type} (l : list A) (i : nat) : result A :=
  match nth_error l i with
  | Some x => Ok x
  | None => Raise IndexError
  end.

(** [a / b] on floats *)
Definition truediv (a b : R) : result R :=
  if Req_EM_T b 0 then Raise ZeroDivisionError else Ok (a / b).

(** *** listify, unlistify

    The values these two functions see: a list of values, or a value that
    is not a list (and has no [len]), here a number. *)
#[warnings="-register-all"]
Inductive pyval : Type :=
| PNum (x : R)
| PList (l : list pyval).

(** The number of constructors of a value. *)
Fixpoint pyval_size (v : pyval) : nat :=
  match v with
  | PNum _ => 1
  | PList l => S (list_sum (map pyval_size l))
  end.

Definition listify (input : pyval) : pyval :=
  match input with
  | PList _ => input
  | _ => PList [input]
  end.

Definition unlistify (input : pyval) : result pyval :=
  match input with
  | PNum _ => Raise TypeError
  | PList l =>
      if (List.length l =? 1)%nat then getitem l 0 else Ok input
  end.

(** *** makeDistanceMatrix, on two lists of floats

    [np.array] of a list of floats is a one-dimensional array: [T.T] is
    [T], [T.reshape(-1, 1)] is a column, and a column combined with a
    one-dimensional array gives the matrix of all pairs, one row for each
    element of the column. *)
Fixpoint min_list (x : R) (l : list R) : R :=
  match l with
  | [] => x
  | y :: l' => min_list (if Rlt_dec y x then y else x) l'
  end.

(** [min(a)]: the first of the smallest elements; ValueError when empty *)
Definition min (l : list R) : result R :=
  match l with
  | [] => Raise ValueError
  | x :: l' => Ok (min_list x l')
  end.

Definition makeDistanceMatrix (T1 T2 : list R) : result (list (list R)) :=
  bind (min (T1 ++ T2)) (fun base =>
  let T1 := map (fun x => x - base) T1 in
  let T2 := map (fun x => x - base) T2 in
  Ok (map (fun a => map (fun b => sqrt (a ^ 2 + b ^ 2 - 2 * (a * b))) T2) T1)).

(** *** rgbToHex *)

(** [int(x)] of a float: rounding towards zero *)
Definition int (x : R) : Z :=
  if Rle_dec 0 x then Int_part x else (- Int_part (- x))%Z.

(** [hex(n)] *)
Definition hex (n : Z) : string :=
  let digits (m : Z) :=
    HexadecimalString.NilZero.string_of_uint (N.to_hex_uint (Z.to_N m)) in
  if (n <? 0)%Z then ("-0x" ++ digits (- n)%Z)%string else ("0x" ++ digits n)%string.

(** [hex((int)(c * 255))[2:]], with a 0 in front when shorter than 2 *)
Definition channel (c : R) : string :=
  let s := slice_from 2 (hex (int (c * 255))) in
  if (String.length s <? 2)%nat then ("0" ++ s)%string else s.

(** The result is the string and the list [color] as the call leaves it
    (a list of 3 elements has received a fourth). *)
Definition rgbToHex (color : list R) : result (string * list R) :=
  let color := if (List.length color =? 3)%nat then color ++ [1] else color in
  bind (getitem color 0) (fun c0 =>
  let R := channel c0 in
  bind (getitem color 1) (fun c1 =>
  let G := channel c1 in
  bind (getitem color 2) (fun c2 =>
  let B := channel c2 in
  bind (getitem color 3) (fun c3 =>
  let A := channel c3 in
  Ok (("0x" ++ A ++ B ++ G ++ R)%string, color))))).

(** Two hexadecimal digits, for stating the result. *)
Definition hex_digit (n : Z) : ascii :=
  match n with
  | 0 => "0" | 1 => "1" | 2 => "2" | 3 => "3" | 4 => "4" | 5 => "5" | 6 => "6"
  | 7 => "7" | 8 => "8" | 9 => "9" | 10 => "a" | 11 => "b" | 12 => "c"
  | 13 => "d" | 14 => "e" | _ => "f"
  end%Z%char.

Definition two_digits (n : Z) : string :=
  String (hex_digit (n / 16)) (String (hex_digit (n mod 16)) EmptyString).

(** *** interpColors *)

(** One [O.append(...)] of interpColors, for the channel [i]. *)
Definition interp (v vmin vmax : R) (cmin cmax : list R) (i : nat) : result R :=
  bind (getitem cmin i) (fun a =>
  bind (getitem cmax i) (fun b =>
  truediv ((vmax - v) * a + (v - vmin) * b) (vmax - vmin))).

Definition interpColors (v vmin vmax : R) (cmin cmax : list R) : result (list R) :=
  bind (interp v vmin vmax cmin cmax 0) (fun o0 =>
  bind (interp v vmin vmax cmin cmax 1) (fun o1 =>
  bind (interp v vmin vmax cmin cmax 2) (fun o2 =>
  if (List.length cmin =? 4)%nat
  then bind (interp v vmin vmax cmin cmax 3) (fun o3 => Ok [o0; o1; o2; o3])
  else Ok [o0; o1; o2]))).

(** *** priority_dict

    A [priority_dict] is a Python dict (item -> priority) with one more
    attribute, [_heap], a heapq heap of (priority, item) pairs.  The dict is
    the list of its (key, value) pairs in insertion order; keys are ints and
    priorities floats.  Of the heap order the class only uses that [heap[0]]
    and [heappop] see the smallest pair, so the heap is kept as the sorted
    list of its pairs: [heappop] takes the head, [heappush] inserts in
    place, [heapify] sorts. *)
Module priority_dict.

Definition key : Type := Z.

Definition dict : Type := list (key * R).

Definition entry : Type := (R * key)%type.

Record t : Type := mk { items : dict; _heap : list entry }.

(** [d[k]], [None] standing for [k not in d] *)
Fixpoint get (d : dict) (k : key) : option R :=
  match d with
  | [] => None
  | (k', v) :: d' => if (k =? k')%Z then Some v else get d' k
  end.

(** [dict.__setitem__(d, k, v)]: a present key keeps its place *)
Fixpoint dict_set (d : dict) (k : key) (v : R) : dict :=
  match d with
  | [] => [(k, v)]
  | (k', v') :: d' =>
      if (k =? k')%Z then (k, v) :: d' else (k', v') :: dict_set d' k v
  end.

(** [del d[k]] for a key that is present *)
Fixpoint dict_del (d : dict) (k : key) : dict :=
  match d with
  | [] => []
  | (k', v') :: d' => if (k =? k')%Z then d' else (k', v') :: dict_del d' k
  end.

(** [dict.update(d, pairs)] and [dict(pairs)] *)
Definition dict_update (d : dict) (pairs : list (key * R)) : dict :=
  fold_left (fun d kv => dict_set d (fst kv) (snd kv)) pairs d.

(** [a < b] on the tuples (priority, item) *)
Definition entry_ltb (a b : entry) : bool :=
  if Rlt_dec (fst a) (fst b) then true
  else if Rlt_dec (fst b) (fst a) then false
  else (snd a <? snd b)%Z.

Fixpoint heappush (heap : list entry) (x : entry) : list entry :=
  match heap with
  | [] => [x]
  | y :: heap' => if entry_ltb x y then x :: heap else y :: heappush heap' x
  end.

Definition heapify (l : list entry) : list entry := fold_left heappush l [].

Definition _rebuild_heap (self : t) : t :=
  mk (items self) (heapify (map (fun kv => (snd kv, fst kv)) (items self))).

Definition __init__ (pairs : list (key * R)) : t :=
  _rebuild_heap (mk (dict_update [] pairs) []).

(** [k not in self or self[k] != v] *)
Definition stale (d : dict) (x : entry) : bool :=
  match get d (snd x) with
  | None => true
  | Some v' => if Req_EM_T v' (fst x) then false else true
  end.

(** The loop of [smallest], from [v, k = heap[0]] on: the result is the
    key and the heap as the loop leaves it. *)
Fixpoint smallest_loop (d : dict) (heap : list entry) : result (key * list entry) :=
  match heap with
  | [] => Raise IndexError
  | x :: heap' => if stale d x then smallest_loop d heap' else Ok (snd x, heap)
  end.

Definition smallest (self : t) : result (key * t) :=
  match smallest_loop (items self) (_heap self) with
  | Ok (k, heap) => Ok (k, mk (items self) heap)
  | Raise e => Raise e
  end.

(** The loop of [pop_smallest], from [v, k = heappop(heap)] on. *)
Fixpoint pop_smallest_loop (d : dict) (heap : list entry) : result (key * list entry) :=
  match heap with
  | [] => Raise IndexError
  | x :: heap' => if stale d x then pop_smallest_loop d heap' else Ok (snd x, heap')
  end.

Definition pop_smallest (self : t) : result (key * t) :=
  match pop_smallest_loop (items self) (_heap self) with
  | Ok (k, heap) => Ok (k, mk (dict_del (items self) k) heap)
  | Raise e => Raise e
  end.

Definition __setitem__ (self : t) (k : key) (val : R) : t :=
  let d := dict_set (items self) k val in
  if (List.length (_heap self) <? 2 * List.length d)%nat
  then mk d (heappush (_heap self) (val, k))
  else _rebuild_heap (mk d (_heap self)).

Definition setdefault (self : t) (k : key) (val : R) : R * t :=
  match get (items self) k with
  | None => (val, __setitem__ self k val)
  | Some v => (v, self)
  end.

Definition update (self : t) (pairs : list (key * R)) : t :=
  _rebuild_heap (mk (dict_update (items self) pairs) (_heap self)).

(** [list(self.sorted_iter())]: the keys the generator yields when it is
    run to its end, and the object as it is left.  [fuel] bounds the number
    of turns of [while self]; [None] is running out of it. *)
Fixpoint sorted_iter_turns (fuel : nat) (self : t) : option (result (list key * t)) :=
  match items self with
  | [] => Some (Ok ([], self))
  | _ :: _ =>
      match fuel with
      | O => None
      | S fuel' =>
          match pop_smallest self with
          | Raise e => Some (Raise e)
          | Ok (k, self') =>
              match sorted_iter_turns fuel' self' with
              | Some (Ok (ks, self'')) => Some (Ok (k :: ks, self''))
              | other => other
              end
          end
      end
  end.

(** Each turn deletes a key, so [len(self)] turns are enough. *)
Definition sorted_iter (self : t) : option (result (list key * t)) :=
  sorted_iter_turns (List.length (items self)) self.

(** What the methods keep true of an object: the keys are distinct, every
    item of the dict has its pair (priority, item) in the heap, and the
    heap is in order. *)
Definition entry_le (a b : entry) : Prop :=
  fst a < fst b \/ (fst a = fst b /\ (snd a <= snd b)%Z).

Definition invariant (self : t) : Prop :=
  NoDup (map fst (items self))
  /\ (forall k v, get (items self) k = Some v -> In (v, k) (_heap self))
  /\ StronglySorted entry_le (_heap self).

(** The order of two keys by their priorities in [d]. *)
Definition priority_le (d : dict) (k k' : key) : Prop :=
  forall v v', get d k = Some v -> get d k' = Some v' -> v <= v'.

End priority_dict.

End Utils.

(** Lines 678-680 of _projToLambert93: the isometric latitude. *)
Definition Lambert93_latiso (phi : R) : R :=
  let E := 0.08181919106 in
  ln (tan (PI / 4 + phi / 2)
      * Rpower ((1 - E * sin phi) / (1 + E * sin phi)) (E / 2)).

(** ** Theorems *)

Lemma ECEFCoords_ext (a b : ECEFCoords.t) :
  ECEFCoords.X a = ECEFCoords.X b -> ECEFCoords.Y a = ECEFCoords.Y b ->
  ECEFCoords.Z a = ECEFCoords.Z b -> a = b.
Proof. destruct a, b; cbn; intros; subst; reflexivity. Qed.

Lemma trig_unit (a : R) : sin a * sin a + cos a * cos a = 1.
Proof. generalize (sin2_cos2 a); unfold Rsqr; lra. Qed.

(** C1. Converting an ECEF point to ENU relative to a base (geodetic or
    ECEF) and back with the same base gives the point again: X, Y and Z are
    reproduced exactly over the reals. *)
Theorem C1_ecef_enu_ecef_roundtrip (P : ECEFCoords.t) (B : Base) :
  ENUCoords_toECEFCoords (ECEFCoords_toENUCoords P B) B = P.
Proof.
  unfold ENUCoords_toECEFCoords, ECEFCoords_toENUCoords,
    ENUCoords_toECEFCoords_at, ECEFCoords_toENUCoords_at;
    cbn [ENUCoords.E ENUCoords.N ENUCoords.U].
  set (b := Base_toECEFCoords B).
  set (g := ECEFCoords_toGeoCoords b).
  set (l := GeoCoords.lon g * PI / 180.0). set (f := GeoCoords.lat g * PI / 180.0).
  set (x := ECEFCoords.X P - ECEFCoords.X b).
  set (y := ECEFCoords.Y P - ECEFCoords.Y b).
  set (z := ECEFCoords.Z P - ECEFCoords.Z b).
  pose proof (trig_unit l) as Hl. pose proof (trig_unit f) as Hf.
  apply ECEFCoords_ext; cbn [ECEFCoords.X ECEFCoords.Y ECEFCoords.Z].
  - transitivity
      (x * (sin l * sin l + cos l * cos l * (sin f * sin f + cos f * cos f))
       + y * sin l * cos l * ((sin f * sin f + cos f * cos f) - 1)
       + ECEFCoords.X b); [ring | rewrite Hf, Rmult_1_r, Hl; unfold x; ring].
  - transitivity
      (y * (cos l * cos l + sin l * sin l * (sin f * sin f + cos f * cos f))
       + x * sin l * cos l * ((sin f * sin f + cos f * cos f) - 1)
       + ECEFCoords.Y b);
      [ring | rewrite Hf, Rmult_1_r, (Rplus_comm (cos l * cos l)), Hl; unfold y; ring].
  - transitivity
      (z * (sin f * sin f + cos f * cos f) + ECEFCoords.Z b);
      [ring | rewrite Hf; unfold z; ring].
Qed.

(** ** Distances *)

(** C7. distanceTo is symmetric in its two points, for each of the three
    classes. *)
Theorem C7_distanceTo_symmetric :
  (forall A B : GeoCoords.t, GeoCoords_distanceTo A B = GeoCoords_distanceTo B A)
  /\ (forall A B : ECEFCoords.t, ECEFCoords_distanceTo A B = ECEFCoords_distanceTo B A)
  /\ (forall A B : ENUCoords.t, ENUCoords_distanceTo A B = ENUCoords_distanceTo B A).
Proof.
  assert (Hecef : forall A B : ECEFCoords.t,
             ECEFCoords_distanceTo A B = ECEFCoords_distanceTo B A).
  { intros A B. unfold ECEFCoords_distanceTo, ECEFCoords_norm, ECEFCoords_dot,
      ECEFCoords_sub; cbn. f_equal. ring. }
  split; [| split].
  - intros A B. unfold GeoCoords_distanceTo. apply Hecef.
  - exact Hecef.
  - intros A B. unfold ENUCoords_distanceTo, ENUCoords_norm, ENUCoords_sub; cbn.
    f_equal. ring.
Qed.

(** ** Projection dispatch *)

Lemma fold_left_const_iter {A : Type} (f : A -> A) (n s : nat) (a : A) :
  fold_left (fun acc (_ : nat) => f acc) (seq s n) a = Nat.iter n f a.
Proof.
  revert s a. induction n as [| n IH]; intros s a; [reflexivity |].
  rewrite seq_S, fold_left_app. cbn. now rewrite IH.
Qed.




(** C6. For an SRID other than 2154, _proj prints the diagnostic line and
    leaves through [exit()]; so does _unproj for an SRID that is neither
    2154 nor in 32600..32799.  No coordinates are returned.  For 9999 the
    line is the one spelled out. *)
Theorem C6_unsupported_srid :
  (forall coords srid, srid <> 2154%Z ->
     _proj coords srid = Raise (SystemExit (not_implemented srid)))
  /\ (forall coords srid, srid <> 2154%Z -> ~ (32600 <= srid <= 32799)%Z ->
        _unproj coords srid = Raise (SystemExit (not_implemented srid)))
  /\ not_implemented 9999%Z
     = "Error: SRID code 9999 is not implmented in Tracklib"%string.
Proof.
  split; [| split].
  - intros coords srid H. unfold _proj.
    destruct (Z.eqb_spec srid 2154); [contradiction | reflexivity].
  - intros coords srid H Hr. unfold _unproj.
    destruct (Z.eqb_spec srid 2154); [contradiction |].
    destruct (Z.geb_spec srid 32600); destruct (Z.leb_spec srid 32799);
      cbn; try reflexivity; lia.
  - reflexivity.
Qed.

Lemma C6_witness :
  _proj (GeoCoords.new 0 0 0) 9999%Z
  = Raise (SystemExit "Error: SRID code 9999 is not implmented in Tracklib")
  /\ _unproj (ENUCoords.new 0 0 0) 9999%Z
     = Raise (SystemExit "Error: SRID code 9999 is not implmented in Tracklib").
Proof.
  split.
  - apply (proj1 C6_unsupported_srid (GeoCoords.new 0 0 0) 9999%Z). lia.
  - apply (proj1 (proj2 C6_unsupported_srid) (ENUCoords.new 0 0 0) 9999%Z); lia.
Defined.

(** ** makeCoords *)

Lemma upper_lower_char (a b : ascii) :
  upper_char a = b -> Ascii.eqb (lower_char a) (lower_char b) = true.
Proof.
  intros <-. apply Ascii.eqb_eq.
  destruct a as [[] [] [] [] [] [] [] []]; reflexivity.
Qed.

Lemma upper_eq_nocase (s t : string) : upper s = t -> eq_nocase s t = true.
Proof.
  revert t. induction s as [| a s IH]; intros t Ht; cbn in Ht; subst t.
  - reflexivity.
  - cbn [eq_nocase]. apply andb_true_iff. split.
    + now apply upper_lower_char.
    + now apply IH.
Qed.




(** ** Facts on atan2 *)

Lemma atan2_pos_x (y x : R) : 0 < x -> atan2 y x = atan (y / x).
Proof. intros Hx. unfold atan2. destruct (Rlt_dec 0 x); [reflexivity | lra]. Qed.

Lemma atan2_0_pos (x : R) : 0 < x -> atan2 0 x = 0.
Proof.
  intros Hx. rewrite atan2_pos_x by assumption.
  unfold Rdiv. now rewrite Rmult_0_l, atan_0.
Qed.

Lemma atan2_pos_0 (y : R) : 0 < y -> atan2 y 0 = PI / 2.
Proof.
  intros Hy. unfold atan2.
  destruct (Rlt_dec 0 0); [lra |]. destruct (Rlt_dec 0 y); [reflexivity | lra].
Qed.

Lemma atan2_neg_0 (y : R) : y < 0 -> atan2 y 0 = - (PI / 2).
Proof.
  intros Hy. unfold atan2.
  destruct (Rlt_dec 0 0); [lra |]. destruct (Rlt_dec 0 y); [lra |].
  destruct (Rlt_dec y 0); [reflexivity | lra].
Qed.

Lemma atan2_nonneg_neg (y x : R) :
  x < 0 -> 0 <= y -> atan2 y x = atan (y / x) + PI.
Proof.
  intros Hx Hy. unfold atan2.
  destruct (Rlt_dec 0 x); [lra |]. destruct (Rlt_dec x 0); [| lra].
  destruct (Rle_dec 0 y); [reflexivity | lra].
Qed.

Lemma atan2_neg_neg (y x : R) :
  x < 0 -> y < 0 -> atan2 y x = atan (y / x) - PI.
Proof.
  intros Hx Hy. unfold atan2.
  destruct (Rlt_dec 0 x); [lra |]. destruct (Rlt_dec x 0); [| lra].
  destruct (Rle_dec 0 y); [lra | reflexivity].
Qed.

Lemma tan_shift_PI (a : R) : tan (a + PI) = tan a.
Proof.
  unfold tan. rewrite neg_sin, neg_cos.
  destruct (Req_dec (cos a) 0) as [H0 | Hn].
  - rewrite H0, Ropp_0. unfold Rdiv. rewrite Rinv_0. ring.
  - field. exact Hn.
Qed.

(** The angle of a point given in polar form. *)
Lemma atan2_polar (k a : R) :
  0 < k -> - PI < a <= PI -> atan2 (k * sin a) (k * cos a) = a.
Proof.
  intros Hk [Hlo Hhi].
  assert (Hq : forall c, c <> 0 -> k * sin a / (k * c) = sin a / c)
    by (intros c Hc; field; split; lra).
  destruct (Rtotal_order (cos a) 0) as [Hneg | [Hzero | Hpos]].
  - (* second or third quadrant *)
    assert (Hx : k * cos a < 0) by nra.
    destruct (Rle_lt_dec 0 a) as [Ha | Ha].
    + assert (PI / 2 < a).
      { destruct (Rlt_le_dec (PI / 2) a) as [|Hle]; [assumption |].
        pose proof (cos_ge_0 a); lra. }
      assert (0 <= sin a) by (apply sin_ge_0; lra).
      rewrite atan2_nonneg_neg by nra.
      rewrite Hq by lra. fold (tan a).
      replace (tan a) with (tan (a - PI))
        by (rewrite <- (tan_shift_PI (a - PI)); f_equal; ring).
      rewrite atan_tan by lra. ring.
    + assert (a < - (PI / 2)).
      { destruct (Rlt_le_dec a (- (PI / 2))) as [|Hge]; [assumption |].
        pose proof (cos_ge_0 a); lra. }
      assert (sin a < 0) by (apply sin_lt_0_var; lra).
      rewrite atan2_neg_neg by nra.
      rewrite Hq by lra. fold (tan a).
      rewrite <- (tan_shift_PI a).
      rewrite atan_tan by lra. ring.
  - (* on the y axis *)
    rewrite Hzero, Rmult_0_r.
    destruct (Rle_lt_dec 0 a) as [Ha | Ha].
    + assert (a = PI / 2).
      { destruct (Rtotal_order a (PI / 2)) as [Hl | [He | Hg]]; [| exact He |].
        - pose proof (cos_gt_0 a); lra.
        - pose proof (cos_lt_0 a); lra. }
      subst a. rewrite sin_PI2, Rmult_1_r. now apply atan2_pos_0.
    + assert (a = - (PI / 2)).
      { destruct (Rtotal_order a (- (PI / 2))) as [Hl | [He | Hg]]; [| exact He |].
        - pose proof (cos_lt_0 (- a)) as Hc. rewrite cos_neg in Hc. lra.
        - pose proof (cos_gt_0 a); lra. }
      subst a. rewrite sin_neg, sin_PI2. apply atan2_neg_0. lra.
  - (* first or fourth quadrant *)
    assert (- (PI / 2) < a < PI / 2).
    { split.
      - destruct (Rlt_le_dec (- (PI / 2)) a) as [|Hle]; [assumption |].
        pose proof (cos_le_0 (- a)) as Hc. rewrite cos_neg in Hc. lra.
      - destruct (Rlt_le_dec a (PI / 2)) as [|Hge]; [assumption |].
        pose proof (cos_le_0 a); lra. }
    rewrite atan2_pos_x by nra.
    rewrite Hq by lra. fold (tan a). now apply atan_tan.
Qed.

(** ** Elevation and azimuth between ENU points *)

(** What the two ENU queries compute: [point - self] calls
    [point.__sub__(self)], which is [self - point] component by component. *)
Lemma ENUCoords_elevationTo_unfold (A B : ENUCoords.t) :
  ENUCoords_elevationTo A B
  = atan2 (ENUCoords.U A - ENUCoords.U B)
          (sqrt ((ENUCoords.E A - ENUCoords.E B) ^ 2
                 + (ENUCoords.N A - ENUCoords.N B) ^ 2)).
Proof. reflexivity. Qed.

Lemma ENUCoords_azimuthTo_unfold (A B : ENUCoords.t) :
  ENUCoords_azimuthTo A B
  = atan2 (ENUCoords.E A - ENUCoords.E B) (ENUCoords.N A - ENUCoords.N B).
Proof. reflexivity. Qed.

(** C3, at the origin A = (0, 0, 0) and the target B = (1, 0, 1), which is
    due east of A and above it.  With d = B - A the elevation
    atan2(d.U, sqrt(d.E^2 + d.N^2)) is pi/4 and the azimuth atan2(d.E, d.N)
    is pi/2; A.elevationTo(B) is -pi/4 and A.azimuthTo(B) is -pi/2. *)
Theorem C3_enu_elevation_azimuth_reversed :
  let A := ENUCoords.new 0 0 0 in
  let B := ENUCoords.new 1 0 1 in
  let dE := ENUCoords.E B - ENUCoords.E A in
  let dN := ENUCoords.N B - ENUCoords.N A in
  let dU := ENUCoords.U B - ENUCoords.U A in
  atan2 dU (sqrt (dE ^ 2 + dN ^ 2)) = PI / 4
  /\ ENUCoords_elevationTo A B = - (PI / 4)
  /\ atan2 dE dN = PI / 2
  /\ ENUCoords_azimuthTo A B = - (PI / 2).
Proof.
  cbv zeta. rewrite ENUCoords_elevationTo_unfold, ENUCoords_azimuthTo_unfold.
  cbn [ENUCoords.E ENUCoords.N ENUCoords.U].
  replace ((1 - 0) ^ 2 + (0 - 0) ^ 2) with 1 by ring.
  replace ((0 - 1) ^ 2 + (0 - 0) ^ 2) with 1 by ring.
  rewrite sqrt_1.
  replace (0 - 0) with 0 by ring.
  repeat split.
  - rewrite atan2_pos_x by lra. replace ((1 - 0) / 1) with 1 by field.
    apply atan_1.
  - rewrite atan2_pos_x by lra. replace ((0 - 1) / 1) with (Ropp 1) by field.
    rewrite atan_opp, atan_1. reflexivity.
  - apply atan2_pos_0. lra.
  - apply atan2_neg_0. lra.
Qed.

(** ** The ellipsoid constants *)

Lemma Re_pos : 0 < Re.
Proof. unfold Re. lra. Qed.

Lemma Fe_bounds : 0 < Fe < 1.
Proof. unfold Fe. lra. Qed.

Lemma semi_minor_pos : 0 < Re * (1 - Fe).
Proof. pose proof Re_pos. pose proof Fe_bounds. nra. Qed.

(** ** Points of the equatorial plane *)

Lemma GeoCoords_toECEFCoords_equator (l h : R) :
  GeoCoords_toECEFCoords (GeoCoords.new l 0 h)
  = ECEFCoords.new ((Re + h) * cos (l * PI / 180.0))
                   ((Re + h) * sin (l * PI / 180.0)) 0.
Proof.
  unfold GeoCoords_toECEFCoords. cbn [GeoCoords.lon GeoCoords.lat GeoCoords.hgt].
  replace (0 * PI / 180.0) with 0 by lra.
  rewrite sin_0, cos_0.
  replace (1 - (sqrt (Fe * (2 - Fe)) * 0) ^ 2) with 1 by ring.
  rewrite sqrt_1.
  apply ECEFCoords_ext; cbn [ECEFCoords.X ECEFCoords.Y ECEFCoords.Z]; field.
Qed.

Lemma ECEFCoords_toGeoCoords_equatorial (x y : R) :
  Re <= sqrt (x * x + y * y) ->
  GeoCoords.lon (ECEFCoords_toGeoCoords (ECEFCoords.new x y 0))
  = atan2 y x * (180.0 / PI)
  /\ GeoCoords.lat (ECEFCoords_toGeoCoords (ECEFCoords.new x y 0)) = 0.
Proof.
  intros Hp. unfold ECEFCoords_toGeoCoords, ECEFCoords_toGeoCoords_radians.
  cbn [ECEFCoords.X ECEFCoords.Y ECEFCoords.Z GeoCoords.lon GeoCoords.lat].
  split; [reflexivity |].
  set (p := sqrt (x * x + y * y)) in *. clearbody p.
  pose proof Re_pos as HRe. pose proof semi_minor_pos as Hb.
  rewrite Rmult_0_l, (atan2_0_pos (p * (Re * (1 - Fe))))
    by (apply Rmult_lt_0_compat; lra).
  rewrite sin_0, cos_0.
  replace (0 + (Re * Re - Re * (1 - Fe) * (Re * (1 - Fe))) / (Re * (1 - Fe)) * 0 ^ 3)
    with 0 by (unfold Rdiv; ring).
  rewrite atan2_0_pos; [lra |].
  unfold Re, Fe in *. lra.
Qed.

(** East and north of a point relative to a base of the equatorial plane
    that is not inside the ellipsoid. *)
Lemma ECEFCoords_toENUCoords_equatorial_base (P : ECEFCoords.t) (bx by_ : R) :
  Re <= sqrt (bx * bx + by_ * by_) ->
  let l := atan2 by_ bx in
  let enu := ECEFCoords_toENUCoords P (BaseECEF (ECEFCoords.new bx by_ 0)) in
  ENUCoords.E enu = - (ECEFCoords.X P - bx) * sin l + (ECEFCoords.Y P - by_) * cos l
  /\ ENUCoords.N enu = ECEFCoords.Z P
  /\ ENUCoords.U enu = (ECEFCoords.X P - bx) * cos l + (ECEFCoords.Y P - by_) * sin l.
Proof.
  intros Hp l enu. subst enu. unfold ECEFCoords_toENUCoords, ECEFCoords_toENUCoords_at.
  cbn [Base_toECEFCoords ENUCoords.E ENUCoords.N ENUCoords.U].
  unfold ECEFCoords_toECEFCoords.
  destruct (ECEFCoords_toGeoCoords_equatorial bx by_ Hp) as [-> ->].
  fold l. cbn [ECEFCoords.X ECEFCoords.Y ECEFCoords.Z].
  replace (l * (180.0 / PI) * PI / 180.0) with l
    by (field; split; [apply PI_neq0 | lra]).
  replace (0 * PI / 180.0) with 0 by lra.
  rewrite sin_0, cos_0. repeat split; ring.
Qed.

(** The same query on ECEF points, for comparison with the ENU one: seen
    from (Re, 0, 0), the point (2 Re, 0, 0) straight above it has elevation
    +pi/2, while ENUCoords.elevationTo from (0, 0, 0) to the point (0, 0, Re)
    straight above it is -pi/2. *)
Lemma elevationTo_zenith :
  ECEFCoords_elevationTo (ECEFCoords.new Re 0 0) (ECEFCoords.new (2 * Re) 0 0)
  = PI / 2
  /\ ENUCoords_elevationTo (ENUCoords.new 0 0 0) (ENUCoords.new 0 0 Re)
     = - (PI / 2).
Proof.
  pose proof Re_pos as HRe. split.
  - unfold ECEFCoords_elevationTo, ENUCoords_norm2D.
    assert (Hp : Re <= sqrt (Re * Re + 0 * 0)).
    { replace (Re * Re + 0 * 0) with (Re * Re) by ring. rewrite sqrt_square; lra. }
    destruct (ECEFCoords_toENUCoords_equatorial_base
                (ECEFCoords.new (2 * Re) 0 0) _ _ Hp) as (-> & -> & ->).
    cbn [ECEFCoords.X ECEFCoords.Y ECEFCoords.Z].
    rewrite atan2_0_pos by lra. rewrite sin_0, cos_0.
    replace ((- (2 * Re - Re) * 0 + (0 - 0) * 1) ^ 2 + 0 ^ 2) with 0 by ring.
    rewrite sqrt_0. apply atan2_pos_0. lra.
  - rewrite ENUCoords_elevationTo_unfold. cbn [ENUCoords.E ENUCoords.N ENUCoords.U].
    replace ((0 - 0) ^ 2 + (0 - 0) ^ 2) with 0 by ring.
    rewrite sqrt_0. apply atan2_neg_0. lra.
Qed.

(** ** GeoCoords.distance2DTo *)

(** C4 fails at A = (lon 0, lat 0, hgt 0), B = (lon 90, lat 0, hgt Re):
    A.distance2DTo(B) is Re, while the planar norm of B in the frame based at
    A is 2 Re. *)
Lemma C4_counterexample :
  let A := GeoCoords.new 0 0 0 in
  let B := GeoCoords.new 90 0 6378137.0 in
  GeoCoords_distance2DTo A B
  <> ENUCoords_norm2D (GeoCoords_toENUCoords B (BaseGeo A)).
Proof.
  cbv zeta.
  unfold GeoCoords_distance2DTo, GeoCoords_toENUCoords, ENUCoords_norm2D.
  cbn [Base_toECEFCoords]. unfold ECEFCoords_toECEFCoords.
  rewrite !GeoCoords_toECEFCoords_equator.
  replace (0 * PI / 180.0) with 0 by lra.
  replace (90 * PI / 180.0) with (PI / 2) by lra.
  rewrite sin_0, cos_0, sin_PI2, cos_PI2.
  replace ((Re + 0) * 1) with Re by ring.
  replace ((Re + 0) * 0) with 0 by ring.
  replace ((Re + 6378137.0) * 0) with 0 by ring.
  replace ((Re + 6378137.0) * 1) with (2 * Re) by (unfold Re; lra).
  pose proof Re_pos as HRe.
  assert (H1 : Re <= sqrt (0 * 0 + 2 * Re * (2 * Re))).
  { replace (0 * 0 + 2 * Re * (2 * Re)) with ((2 * Re) * (2 * Re)) by ring.
    rewrite sqrt_square; lra. }
  assert (H2 : Re <= sqrt (Re * Re + 0 * 0)).
  { replace (Re * Re + 0 * 0) with (Re * Re) by ring.
    rewrite sqrt_square; lra. }
  destruct (ECEFCoords_toENUCoords_equatorial_base (ECEFCoords.new Re 0 0) _ _ H1)
    as (-> & -> & _).
  destruct (ECEFCoords_toENUCoords_equatorial_base (ECEFCoords.new 0 (2 * Re) 0) _ _ H2)
    as (-> & -> & _).
  cbn [ECEFCoords.X ECEFCoords.Y ECEFCoords.Z].
  rewrite atan2_pos_0, atan2_0_pos by lra.
  rewrite sin_0, cos_0, sin_PI2, cos_PI2.
  replace ((- (Re - 0) * 1 + (0 - 2 * Re) * 0) ^ 2 + 0 ^ 2) with (Re ^ 2) by ring.
  replace ((- (0 - Re) * 0 + (2 * Re - 0) * 1) ^ 2 + 0 ^ 2) with ((2 * Re) ^ 2) by ring.
  rewrite !sqrt_pow2 by lra. lra.
Qed.

(** C4 as the code has it: A.distance2DTo(B) is the planar (East, North)
    norm of the ENU representation of the receiver A relative to the
    argument B as base.  With d the ECEF offset from B to A and (l, f) the
    longitude and latitude in radians that Bowring's form gives for B's ECEF
    position, East is -d.X sin l + d.Y cos l and North is
    -d.X cos l sin f - d.Y sin l sin f + d.Z cos f. *)
Theorem C4_distance2DTo_receiver_relative_to_argument (A B : GeoCoords.t) :
  let a := GeoCoords_toECEFCoords A in
  let b := GeoCoords_toECEFCoords B in
  let enu := ECEFCoords_toENUCoords a (BaseECEF b) in
  let l := GeoCoords.lon (ECEFCoords_toGeoCoords_radians b) in
  let f := GeoCoords.lat (ECEFCoords_toGeoCoords_radians b) in
  let dX := ECEFCoords.X a - ECEFCoords.X b in
  let dY := ECEFCoords.Y a - ECEFCoords.Y b in
  let dZ := ECEFCoords.Z a - ECEFCoords.Z b in
  GeoCoords_toENUCoords A (BaseGeo B) = enu
  /\ GeoCoords_distance2DTo A B
     = sqrt (ENUCoords.E enu ^ 2 + ENUCoords.N enu ^ 2)
  /\ ENUCoords.E enu = - dX * sin l + dY * cos l
  /\ ENUCoords.N enu
     = - dX * cos l * sin f - dY * sin l * sin f + dZ * cos f.
Proof.
  cbv zeta. split; [reflexivity |]. split; [reflexivity |].
  unfold ECEFCoords_toENUCoords, ECEFCoords_toENUCoords_at, ECEFCoords_toGeoCoords.
  cbn [Base_toECEFCoords ENUCoords.E ENUCoords.N GeoCoords.lon GeoCoords.lat].
  unfold ECEFCoords_toECEFCoords.
  set (g := ECEFCoords_toGeoCoords_radians (GeoCoords_toECEFCoords B)).
  replace (GeoCoords.lon g * (180.0 / PI) * PI / 180.0) with (GeoCoords.lon g)
    by (field; split; [apply PI_neq0 | lra]).
  replace (GeoCoords.lat g * (180.0 / PI) * PI / 180.0) with (GeoCoords.lat g)
    by (field; split; [apply PI_neq0 | lra]).
  split; reflexivity.
Qed.

(** ** Round trip Geodetic -> ECEF -> Geodetic *)

Lemma ecc2 : sqrt (Fe * (2 - Fe)) * sqrt (Fe * (2 - Fe)) = Fe * (2 - Fe).
Proof. apply sqrt_sqrt. pose proof Fe_bounds. nra. Qed.

Lemma prime_vertical_den_pos (f : R) : 0 < 1 - (sqrt (Fe * (2 - Fe)) * sin f) ^ 2 <= 1.
Proof.
  replace ((sqrt (Fe * (2 - Fe)) * sin f) ^ 2)
    with (sqrt (Fe * (2 - Fe)) * sqrt (Fe * (2 - Fe)) * (sin f * sin f)) by ring.
  rewrite ecc2. pose proof Fe_bounds. pose proof (trig_unit f).
  assert (0 <= sin f * sin f <= 1) by nra.
  assert (0 < Fe * (2 - Fe) < 1) by nra. nra.
Qed.

Lemma prime_vertical_ge_Re (f : R) :
  Re <= Re / sqrt (1 - (sqrt (Fe * (2 - Fe)) * sin f) ^ 2).
Proof.
  pose proof (prime_vertical_den_pos f) as [Hlo Hhi].
  set (W2 := 1 - (sqrt (Fe * (2 - Fe)) * sin f) ^ 2) in *.
  assert (0 < sqrt W2) by (now apply sqrt_lt_R0).
  assert (sqrt W2 <= 1) by (rewrite <- sqrt_1; apply sqrt_le_1; lra).
  pose proof Re_pos.
  apply Rmult_le_reg_r with (sqrt W2); [assumption |].
  unfold Rdiv. rewrite Rmult_assoc, Rinv_l by lra. nra.
Qed.

Lemma radians_degrees (x : R) : x * PI / 180.0 * (180.0 / PI) = x.
Proof. field. split; [apply PI_neq0 | lra]. Qed.

Lemma to_radians_lt (x y : R) : x < y -> x * PI / 180.0 < y * PI / 180.0.
Proof. intros H. pose proof PI_RGT_0. nra. Qed.

Lemma to_radians_le (x y : R) : x <= y -> x * PI / 180.0 <= y * PI / 180.0.
Proof. intros H. pose proof PI_RGT_0. nra. Qed.

Lemma latitude_radians (x : R) :
  -90 < x < 90 -> - (PI / 2) < x * PI / 180.0 < PI / 2.
Proof.
  intros [Hlo Hhi]. apply to_radians_lt in Hlo, Hhi. lra.
Qed.

Lemma longitude_radians (x : R) :
  -180 < x <= 180 -> - PI < x * PI / 180.0 <= PI.
Proof.
  intros [Hlo Hhi]. apply to_radians_lt in Hlo. apply to_radians_le in Hhi. lra.
Qed.

(** Longitude of the round trip Geodetic -> ECEF -> Geodetic. *)
Lemma geo_roundtrip_lon (g : GeoCoords.t) :
  -180 < GeoCoords.lon g <= 180 ->
  -90 < GeoCoords.lat g < 90 ->
  - Re < GeoCoords.hgt g ->
  GeoCoords.lon (ECEFCoords_toGeoCoords (GeoCoords_toECEFCoords g)) = GeoCoords.lon g.
Proof.
  intros Hlon Hlat Hh.
  unfold ECEFCoords_toGeoCoords, ECEFCoords_toGeoCoords_radians, GeoCoords_toECEFCoords.
  cbn [GeoCoords.lon ECEFCoords.X ECEFCoords.Y].
  set (f := GeoCoords.lat g * PI / 180.0).
  set (l := GeoCoords.lon g * PI / 180.0).
  pose proof PI_RGT_0 as HPI.
  pose proof (prime_vertical_ge_Re f) as Hn.
  set (n := Re / sqrt (1 - (sqrt (Fe * (2 - Fe)) * sin f) ^ 2)) in *.
  assert (Hcf : 0 < cos f) by (apply cos_gt_0; apply latitude_radians; assumption).
  rewrite atan2_polar.
  - apply radians_degrees.
  - apply Rmult_lt_0_compat; lra.
  - now apply longitude_radians.
Qed.

(** Sine and cosine of the parametric latitude atan((b/a) tan f), where
    W^2 = cos^2 f + (b/a)^2 sin^2 f. *)
Lemma parametric_latitude (a b sf cf W : R) :
  0 < a -> 0 < b -> 0 < W -> 0 < cf ->
  W * W = cf * cf + (b / a) * (b / a) * (sf * sf) ->
  let t := atan ((b / a) * (sf / cf)) in
  cos t = cf / W /\ sin t = (b / a) * sf / W.
Proof.
  intros Ha Hb HW Hcf HW2 t.
  assert (Hroot : sqrt (1 + ((b / a) * (sf / cf))²) = W / cf).
  { replace (1 + ((b / a) * (sf / cf))²) with ((W / cf) * (W / cf)).
    - apply sqrt_square. apply Rlt_le, Rdiv_lt_0_compat; assumption.
    - unfold Rsqr.
      replace (W / cf * (W / cf)) with ((W * W) / (cf * cf)) by (field; lra).
      rewrite HW2. field. split; lra. }
  subst t. rewrite cos_atan, sin_atan, Hroot. split; field; repeat split; lra.
Qed.

(** The latitude ratio of Bowring's formula at a point [p = a c], [Z = b s]
    of the ellipse, [s] and [c] being sine and cosine of the parametric
    latitude. *)
Lemma bowring_ratio (a b s c : R) :
  0 < a -> 0 < b -> 0 < c -> s * s + c * c = 1 ->
  let num := b * s + (a * a - b * b) / b * s ^ 3 in
  let den := a * c - (a * a - b * b) / a * c ^ 3 in
  0 < den /\ num / den = (a * s) / (b * c).
Proof.
  intros Ha Hb Hc Hsc num den.
  set (Q := a * a * (s * s) + b * b * (c * c)).
  assert (HQ : 0 < Q).
  { unfold Q. assert (0 < b * b * (c * c)) by (repeat apply Rmult_lt_0_compat; lra).
    assert (0 <= a * a * (s * s)) by (apply Rmult_le_pos; nra). lra. }
  assert (Hnum : num = s / b * Q).
  { unfold num, Q.
    replace (b * s + (a * a - b * b) / b * s ^ 3)
      with (s / b * (a * a * (s * s) + b * b * (c * c))
            + b * s * (1 - (s * s + c * c))) by (field; lra).
    rewrite Hsc. ring. }
  assert (Hden : den = c / a * Q).
  { unfold den, Q.
    replace (a * c - (a * a - b * b) / a * c ^ 3)
      with (c / a * (a * a * (s * s) + b * b * (c * c))
            + a * c * (1 - (s * s + c * c))) by (field; lra).
    rewrite Hsc. ring. }
  split.
  - rewrite Hden. apply Rmult_lt_0_compat; [apply Rdiv_lt_0_compat |]; assumption.
  - rewrite Hnum, Hden. field. repeat split; lra.
Qed.

(** Latitude and height of the round trip, for a point of the ellipsoid. *)
Lemma geo_roundtrip_on_ellipsoid (lo la : R) :
  -90 < la < 90 ->
  let g' := ECEFCoords_toGeoCoords (GeoCoords_toECEFCoords (GeoCoords.new lo la 0)) in
  GeoCoords.lat g' = la /\ GeoCoords.hgt g' = 0.
Proof.
  intros Hla g'. subst g'.
  unfold ECEFCoords_toGeoCoords, ECEFCoords_toGeoCoords_radians, GeoCoords_toECEFCoords.
  cbn [GeoCoords.lon GeoCoords.lat GeoCoords.hgt
       ECEFCoords.X ECEFCoords.Y ECEFCoords.Z].
  set (f := la * PI / 180.0).
  set (l := lo * PI / 180.0).
  pose proof (latitude_radians la Hla) as Hf. fold f in Hf.
  assert (Hcf : 0 < cos f) by (apply cos_gt_0; lra).
  pose proof (prime_vertical_den_pos f) as [HW2 _].
  pose proof ecc2 as He.
  set (e := sqrt (Fe * (2 - Fe))) in *.
  set (W := sqrt (1 - (e * sin f) ^ 2)).
  assert (HW : 0 < W) by (now apply sqrt_lt_R0).
  assert (HWW : W * W = 1 - (e * sin f) ^ 2) by (apply sqrt_sqrt; lra).
  pose proof Re_pos as Ha. pose proof semi_minor_pos as Hb. pose proof Fe_bounds as HFe.
  set (b := Re * (1 - Fe)) in *.
  (* the distance to the axis *)
  replace ((Re / W + 0) * cos f * cos l * ((Re / W + 0) * cos f * cos l)
           + (Re / W + 0) * cos f * sin l * ((Re / W + 0) * cos f * sin l))
    with ((Re / W * cos f) * (Re / W * cos f) * (sin l * sin l + cos l * cos l))
    by ring.
  rewrite trig_unit, Rmult_1_r.
  assert (Hp : 0 < Re / W * cos f)
    by (apply Rmult_lt_0_compat; [apply Rdiv_lt_0_compat |]; assumption).
  rewrite sqrt_square by lra.
  (* the parametric latitude *)
  assert (Hbb : 1 - e * e = (b / Re) * (b / Re)).
  { rewrite He. unfold b. field. lra. }
  assert (Ht : atan2 (((1 - e * e) * (Re / W) + 0) * sin f * Re) (Re / W * cos f * b)
               = atan ((b / Re) * (sin f / cos f))).
  { rewrite atan2_pos_x by (apply Rmult_lt_0_compat; assumption).
    f_equal. rewrite Hbb. field. repeat split; lra. }
  rewrite Ht.
  assert (HW' : W * W = cos f * cos f + (b / Re) * (b / Re) * (sin f * sin f)).
  { rewrite HWW, <- Hbb. pose proof (trig_unit f).
    replace (cos f * cos f) with (1 - sin f * sin f) by lra. ring. }
  destruct (parametric_latitude Re b (sin f) (cos f) W Ha Hb HW Hcf HW') as [Hc Hs].
  rewrite Hc, Hs.
  set (s := b / Re * sin f / W). set (c := cos f / W).
  assert (Hcpos : 0 < c) by (apply Rdiv_lt_0_compat; assumption).
  assert (Hsc : s * s + c * c = 1).
  { unfold s, c.
    replace (b / Re * sin f / W * (b / Re * sin f / W) + cos f / W * (cos f / W))
      with ((cos f * cos f + (b / Re) * (b / Re) * (sin f * sin f)) / (W * W))
      by (field; lra).
    rewrite <- HW'. field. lra. }
  replace (((1 - e * e) * (Re / W) + 0) * sin f) with (b * s)
    by (rewrite Hbb; unfold s; field; lra).
  replace (Re / W * cos f) with (Re * c) by (unfold c; field; lra).
  destruct (bowring_ratio Re b s c Ha Hb Hcpos Hsc) as [Hden Hratio].
  cbv zeta in Hden, Hratio.
  rewrite atan2_pos_x by exact Hden.
  rewrite Hratio.
  replace (Re * s / (b * c)) with (tan f)
    by (unfold tan, s, c; field; repeat split; lra).
  rewrite atan_tan by exact Hf.
  split.
  - apply radians_degrees.
  - fold W. unfold c. field. lra.
Qed.


(** The height matters as well: from (lon 0, lat 0, hgt -2 Re), a point
    beyond the centre of the ellipsoid, the longitude comes back as 180. *)
Lemma geo_roundtrip_beyond_centre :
  GeoCoords.lon (ECEFCoords_toGeoCoords
                   (GeoCoords_toECEFCoords (GeoCoords.new 0 0 (- 2 * Re))))
  = 180.
Proof.
  rewrite GeoCoords_toECEFCoords_equator.
  replace (0 * PI / 180.0) with 0 by lra. rewrite sin_0, cos_0.
  replace ((Re + - 2 * Re) * 1) with (- Re) by ring.
  replace ((Re + - 2 * Re) * 0) with 0 by ring.
  pose proof Re_pos as HRe.
  assert (Hp : Re <= sqrt (- Re * - Re + 0 * 0)).
  { replace (- Re * - Re + 0 * 0) with (Re * Re) by ring. rewrite sqrt_square; lra. }
  destruct (ECEFCoords_toGeoCoords_equatorial (- Re) 0 Hp) as [-> _].
  rewrite atan2_nonneg_neg by lra.
  unfold Rdiv at 1. rewrite Rmult_0_l, atan_0.
  replace 180.0 with 180 by lra. field. apply PI_neq0.
Qed.



(** ** The store: what the conversions compute *)

Lemma bind_run {A B : Type} (m : M A) (k : A -> M B) (h h1 : heap) (a : A) :
  m h = Ok (a, h1) -> bind m k h = k a h1.
Proof. intros H. unfold bind. now rewrite H. Qed.

Lemma nth_error_last (h : heap) (o : Coords) (t : heap) :
  nth_error (h ++ o :: t) (List.length h) = Some o.
Proof. rewrite nth_error_app2, Nat.sub_diag by lia. reflexivity. Qed.

Lemma nth_error_old (h t : heap) (r : ref) (o : Coords) :
  nth_error h r = Some o -> nth_error (h ++ t) r = Some o.
Proof.
  intros H. rewrite nth_error_app1; [exact H |].
  apply nth_error_Some. congruence.
Qed.

Lemma update_last (h : heap) (o o' : Coords) (t : heap) :
  update (h ++ o :: t) (List.length h) o' = h ++ o' :: t.
Proof. induction h as [| x h IH]; cbn; [reflexivity | now rewrite IH]. Qed.

Lemma load_run (h : heap) (r : ref) (o : Coords) :
  nth_error h r = Some o -> load r h = Ok (o, h).
Proof. intros H. unfold load. now rewrite H. Qed.

Lemma store_run (h : heap) (r : ref) (o o' : Coords) :
  nth_error h r = Some o -> store r o' h = Ok (tt, update h r o').
Proof.
  intros H. unfold store.
  assert (r < List.length h)%nat as Hlt by (apply nth_error_Some; congruence).
  apply Nat.ltb_lt in Hlt. now rewrite Hlt.
Qed.

Lemma load_geo_run (h : heap) (r : ref) (g : GeoCoords.t) :
  nth_error h r = Some (GEO g) -> load_geo r h = Ok (g, h).
Proof.
  intros H. unfold load_geo.
  now rewrite (bind_run _ _ _ _ _ (load_run _ _ _ H)).
Qed.

Lemma load_enu_run (h : heap) (r : ref) (c : ENUCoords.t) :
  nth_error h r = Some (ENU c) -> load_enu r h = Ok (c, h).
Proof.
  intros H. unfold load_enu.
  now rewrite (bind_run _ _ _ _ _ (load_run _ _ _ H)).
Qed.

Lemma load_ecef_run (h : heap) (r : ref) (c : ECEFCoords.t) :
  nth_error h r = Some (ECEF c) -> load_ecef r h = Ok (c, h).
Proof.
  intros H. unfold load_ecef.
  now rewrite (bind_run _ _ _ _ _ (load_run _ _ _ H)).
Qed.

(** Assignments to the attributes of the object made last. *)
Lemma set_last_ecef (h t : heap) (c : ECEFCoords.t) (v : R) :
  set_X (List.length h) v (h ++ ECEF c :: t)
  = Ok (tt, h ++ ECEF (ECEFCoords.new v (ECEFCoords.Y c) (ECEFCoords.Z c)) :: t)
  /\ set_Y (List.length h) v (h ++ ECEF c :: t)
     = Ok (tt, h ++ ECEF (ECEFCoords.new (ECEFCoords.X c) v (ECEFCoords.Z c)) :: t)
  /\ set_Z (List.length h) v (h ++ ECEF c :: t)
     = Ok (tt, h ++ ECEF (ECEFCoords.new (ECEFCoords.X c) (ECEFCoords.Y c) v) :: t).
Proof.
  unfold set_X, set_Y, set_Z.
  rewrite !(bind_run _ _ _ _ _ (load_ecef_run _ _ _ (nth_error_last h (ECEF c) t))).
  rewrite !(store_run _ _ _ _ (nth_error_last h (ECEF c) t)), !update_last.
  repeat split.
Qed.

Lemma set_last_geo (h t : heap) (g : GeoCoords.t) (v : R) :
  set_lon (List.length h) v (h ++ GEO g :: t)
  = Ok (tt, h ++ GEO (GeoCoords.new v (GeoCoords.lat g) (GeoCoords.hgt g)) :: t)
  /\ set_lat (List.length h) v (h ++ GEO g :: t)
     = Ok (tt, h ++ GEO (GeoCoords.new (GeoCoords.lon g) v (GeoCoords.hgt g)) :: t)
  /\ set_hgt (List.length h) v (h ++ GEO g :: t)
     = Ok (tt, h ++ GEO (GeoCoords.new (GeoCoords.lon g) (GeoCoords.lat g) v) :: t).
Proof.
  unfold set_lon, set_lat, set_hgt.
  rewrite !(bind_run _ _ _ _ _ (load_geo_run _ _ _ (nth_error_last h (GEO g) t))).
  rewrite !(store_run _ _ _ _ (nth_error_last h (GEO g) t)), !update_last.
  repeat split.
Qed.

Lemma set_last_enu (h t : heap) (c : ENUCoords.t) (v : R) :
  set_E (List.length h) v (h ++ ENU c :: t)
  = Ok (tt, h ++ ENU (ENUCoords.new v (ENUCoords.N c) (ENUCoords.U c)) :: t)
  /\ set_N (List.length h) v (h ++ ENU c :: t)
     = Ok (tt, h ++ ENU (ENUCoords.new (ENUCoords.E c) v (ENUCoords.U c)) :: t)
  /\ set_U (List.length h) v (h ++ ENU c :: t)
     = Ok (tt, h ++ ENU (ENUCoords.new (ENUCoords.E c) (ENUCoords.N c) v) :: t).
Proof.
  unfold set_E, set_N, set_U.
  rewrite !(bind_run _ _ _ _ _ (load_enu_run _ _ _ (nth_error_last h (ENU c) t))).
  rewrite !(store_run _ _ _ _ (nth_error_last h (ENU c) t)), !update_last.
  repeat split.
Qed.

(** GeoCoords.toECEFCoords on a geodetic object makes one ECEF object, with
    the coordinates of the value-level function. *)
Lemma GeoCoords_toECEFCoords_run (h : heap) (self : ref) (g : GeoCoords.t) :
  nth_error h self = Some (GEO g) ->
  GeoCoords_toECEFCoords_m self h
  = Ok (List.length h, h ++ [ECEF (GeoCoords_toECEFCoords g)]).
Proof.
  intros Hself. unfold GeoCoords_toECEFCoords_m.
  rewrite (bind_run _ _ h (h ++ [ECEF (ECEFCoords.new 0.0 0.0 0.0)]) (List.length h))
    by reflexivity.
  rewrite (bind_run _ _ _ _ _ (load_geo_run _ _ _ (nth_error_old _ _ _ _ Hself))).
  cbv zeta.
  rewrite (bind_run _ _ _ _ _ (proj1 (set_last_ecef h [] _ _))).
  rewrite (bind_run _ _ _ _ _ (proj1 (proj2 (set_last_ecef h [] _ _)))).
  rewrite (bind_run _ _ _ _ _ (proj2 (proj2 (set_last_ecef h [] _ _)))).
  reflexivity.
Qed.

(** ECEFCoords.toGeoCoords on an ECEF object makes one geodetic object. *)
Lemma ECEFCoords_toGeoCoords_run (h : heap) (self : ref) (c : ECEFCoords.t) :
  nth_error h self = Some (ECEF c) ->
  ECEFCoords_toGeoCoords_m self h
  = Ok (List.length h, h ++ [GEO (ECEFCoords_toGeoCoords c)]).
Proof.
  intros Hself. unfold ECEFCoords_toGeoCoords_m.
  rewrite (bind_run _ _ h (h ++ [GEO (GeoCoords.new 0.0 0.0 0.0)]) (List.length h))
    by reflexivity.
  rewrite (bind_run _ _ _ _ _ (load_ecef_run _ _ _ (nth_error_old _ _ _ _ Hself))).
  cbv zeta.
  rewrite (bind_run _ _ _ _ _ (proj1 (set_last_geo h [] _ _))).
  rewrite (bind_run _ _ _ _ _ (proj1 (proj2 (set_last_geo h [] _ _)))).
  rewrite (bind_run _ _ _ _ _ (proj2 (proj2 (set_last_geo h [] _ _)))).
  rewrite (bind_run _ _ _ _ _ (load_geo_run _ _ _ (nth_error_last h _ []))).
  rewrite (bind_run _ _ _ _ _ (proj1 (set_last_geo h [] _ _))).
  rewrite (bind_run _ _ _ _ _ (load_geo_run _ _ _ (nth_error_last h _ []))).
  rewrite (bind_run _ _ _ _ _ (proj1 (proj2 (set_last_geo h [] _ _)))).
  reflexivity.
Qed.

(** [base.toECEFCoords()] on a base of either class makes one ECEF object,
    the base as [Base_toECEFCoords] has it. *)
Lemma toECEFCoords_run (h : heap) (base : ref) (b : Base) :
  nth_error h base = Some (Base_object b) ->
  toECEFCoords base h = Ok (List.length h, h ++ [ECEF (Base_toECEFCoords b)]).
Proof.
  intros Hbase. unfold toECEFCoords.
  rewrite (bind_run _ _ _ _ _ (load_run _ _ _ Hbase)).
  destruct b as [g | c]; cbn [Base_object] in *.
  - now apply GeoCoords_toECEFCoords_run.
  - unfold ECEFCoords_toECEFCoords_m, ECEFCoords_copy_m, deepcopy.
    now rewrite (bind_run _ _ _ _ _ (load_run _ _ _ Hbase)).
Qed.

(** ECEFCoords.toENUCoords on an ECEF object and a base of either class
    makes three objects: the base as ECEF, the ENU result, the base as
    geodetic; it returns the second, which holds the coordinates of the
    value-level function. *)
Lemma ECEFCoords_toENUCoords_run (h : heap) (self base : ref)
      (c : ECEFCoords.t) (b : Base) :
  nth_error h self = Some (ECEF c) ->
  nth_error h base = Some (Base_object b) ->
  ECEFCoords_toENUCoords_m self base h
  = Ok (S (List.length h),
        h ++ [ECEF (Base_toECEFCoords b);
              ENU (ECEFCoords_toENUCoords c b);
              GEO (ECEFCoords_toGeoCoords (Base_toECEFCoords b))]).
Proof.
  intros Hself Hbase. unfold ECEFCoords_toENUCoords_m.
  rewrite (bind_run _ _ _ _ _ (toECEFCoords_run _ _ _ Hbase)).
  set (be := Base_toECEFCoords b).
  set (h1 := h ++ [ECEF be]).
  rewrite (bind_run _ _ h1 (h1 ++ [ENU (ENUCoords.new 0.0 0.0 0.0)]) (List.length h1))
    by reflexivity.
  assert (Hb1 : nth_error h1 (List.length h) = Some (ECEF be))
    by apply nth_error_last.
  assert (Hself1 : nth_error h1 self = Some (ECEF c))
    by now apply nth_error_old.
  rewrite (bind_run _ _ _ _ _
             (ECEFCoords_toGeoCoords_run _ _ _ (nth_error_old _ _ _ _ Hb1))).
  rewrite (bind_run _ _ _ _ _ (load_geo_run _ _ _ (nth_error_last _ _ []))).
  rewrite (bind_run _ _ _ _ _
             (load_ecef_run _ _ _
                (nth_error_old _ _ _ _ (nth_error_old _ _ _ _ Hself1)))).
  rewrite (bind_run _ _ _ _ _
             (load_ecef_run _ _ _
                (nth_error_old _ _ _ _ (nth_error_old _ _ _ _ Hb1)))).
  cbv zeta. rewrite <- app_assoc. cbn [app].
  rewrite (bind_run _ _ _ _ _ (proj1 (set_last_enu h1 _ _ _))).
  rewrite (bind_run _ _ _ _ _ (proj1 (proj2 (set_last_enu h1 _ _ _)))).
  rewrite (bind_run _ _ _ _ _ (proj2 (proj2 (set_last_enu h1 _ _ _)))).
  unfold ret, h1. rewrite <- app_assoc, length_app, Nat.add_1_r. reflexivity.
Qed.

(** ECEFCoords.scalar overwrites its receiver. *)
Lemma ECEFCoords_scalar_run (h t : heap) (c : ECEFCoords.t) (factor : R) :
  ECEFCoords_scalar_m (List.length h) factor (h ++ ECEF c :: t)
  = Ok (tt, h ++ ECEF (ECEFCoords.new (ECEFCoords.X c * factor)
                                       (ECEFCoords.Y c * factor)
                                       (ECEFCoords.Z c * factor)) :: t).
Proof.
  unfold ECEFCoords_scalar_m.
  rewrite (bind_run _ _ _ _ _ (load_ecef_run _ _ _ (nth_error_last h _ t))).
  rewrite (bind_run _ _ _ _ _ (proj1 (set_last_ecef h t _ _))).
  rewrite (bind_run _ _ _ _ _ (load_ecef_run _ _ _ (nth_error_last h _ t))).
  rewrite (bind_run _ _ _ _ _ (proj1 (proj2 (set_last_ecef h t _ _)))).
  rewrite (bind_run _ _ _ _ _ (load_ecef_run _ _ _ (nth_error_last h _ t))).
  now rewrite (proj2 (proj2 (set_last_ecef h t _ _))).
Qed.

(** The same as a call: it returns the new ENU object, and every object of
    the store it found is still there. *)
Lemma exec_ECEF_toENUCoords_run (h : heap) (self base : ref)
      (c : ECEFCoords.t) (b : Base) :
  nth_error h self = Some (ECEF c) ->
  nth_error h base = Some (Base_object b) ->
  exec (ECEF_toENUCoords self base) h
  = Ok (VRef (S (List.length h)),
        h ++ [ECEF (Base_toECEFCoords b);
              ENU (ECEFCoords_toENUCoords c b);
              GEO (ECEFCoords_toGeoCoords (Base_toECEFCoords b))]).
Proof.
  intros Hself Hbase. cbn [exec]. unfold returns_ref.
  now rewrite (bind_run _ _ _ _ _ (ECEFCoords_toENUCoords_run _ _ _ _ _ Hself Hbase)).
Qed.

(** ** The store: what a call leaves unchanged *)

Lemma update_length (h : heap) (r : ref) (o : Coords) :
  List.length (update h r o) = List.length h.
Proof.
  revert r. induction h as [| x t IH]; intros r; [reflexivity |].
  destruct r; cbn; [reflexivity | now rewrite IH].
Qed.

Lemma update_firstn (h : heap) (r : ref) (o : Coords) (n : nat) :
  (n <= r)%nat -> firstn n (update h r o) = firstn n h.
Proof.
  revert r n. induction h as [| x t IH]; intros r n Hn; [reflexivity |].
  destruct r as [| r].
  - replace n with 0%nat by lia. reflexivity.
  - destruct n as [| n]; [reflexivity |]. cbn. f_equal. apply IH. lia.
Qed.

Lemma firstn_app_le (h t : heap) (n : nat) :
  (n <= List.length h)%nat -> firstn n (h ++ t) = firstn n h.
Proof.
  intros Hn. rewrite firstn_app.
  replace (n - List.length h)%nat with 0%nat by lia.
  cbn. apply app_nil_r.
Qed.

Lemma frame_ret {A : Type} (n L : nat) (post : A -> nat -> Prop) (a : A) :
  (forall L', (L <= L')%nat -> post a L') -> frame_ok n L post (ret a).
Proof.
  intros Hp h a' h' Hn HL Hrun. injection Hrun as <- <-.
  repeat split; [lia | now apply Hp].
Qed.

Lemma frame_raise {A : Type} (n L : nat) (post : A -> nat -> Prop) (e : exn) :
  frame_ok n L post (raise e).
Proof. intros h a h' _ _ Hrun. discriminate. Qed.

Lemma frame_bind {A B : Type} (n L : nat) (Q : A -> nat -> Prop)
      (post : B -> nat -> Prop) (m : M A) (k : A -> M B) :
  frame_ok n L Q m ->
  (forall a L1, (L <= L1)%nat -> Q a L1 -> frame_ok n L1 post (k a)) ->
  frame_ok n L post (bind m k).
Proof.
  intros Hm Hk h b h' Hn HL Hrun. unfold bind in Hrun.
  destruct (m h) as [[a h1] | e] eqn:Hmh; [| discriminate].
  destruct (Hm h a h1 Hn HL Hmh) as (Hf1 & Hl1 & HQ).
  destruct (Hk a (List.length h1) ltac:(lia) HQ h1 b h' ltac:(lia) ltac:(lia) Hrun)
    as (Hf2 & Hl2 & Hpost).
  repeat split; [congruence | lia | exact Hpost].
Qed.

Lemma frame_lift {A : Type} (n L : nat) (r : result A) :
  frame_ok n L anything (lift r).
Proof.
  destruct r; cbn [lift]; [apply frame_ret; intros; exact I | apply frame_raise].
Qed.

Lemma frame_alloc (n L : nat) (o : Coords) :
  frame_ok n L (made_after n) (alloc o).
Proof.
  intros h r h' Hn HL Hrun. injection Hrun as <- <-.
  rewrite length_app. cbn. unfold made_after.
  repeat split; [now apply firstn_app_le | lia | lia | lia].
Qed.

Lemma frame_load (n L : nat) (r : ref) : frame_ok n L anything (load r).
Proof.
  intros h o h' Hn HL Hrun. unfold load in Hrun.
  destruct (nth_error h r); [| discriminate]. injection Hrun as <- <-.
  repeat split; lia.
Qed.

Lemma frame_store (n L : nat) (r : ref) (o : Coords) :
  (n <= r)%nat -> frame_ok n L anything (store r o).
Proof.
  intros Hr h u h' Hn HL Hrun. unfold store in Hrun.
  destruct (r <? List.length h)%nat; [| discriminate]. injection Hrun as <- <-.
  rewrite update_length. repeat split; [now apply update_firstn | lia].
Qed.

Create HintDb frame.
#[local] Hint Resolve frame_raise frame_lift frame_alloc frame_load frame_store : frame.
#[local] Hint Extern 1 (_ <= _)%nat => unfold made_after in *; lia : frame.
#[local] Hint Extern 1 (_ < _)%nat => unfold made_after in *; lia : frame.
#[local] Hint Extern 1 (made_after _ _ _) => unfold made_after in *; lia : frame.
#[local] Hint Extern 1 (anything _ _) => exact I : frame.

(** One step through the body of a method. *)
Ltac frame_step :=
  lazymatch goal with
  | |- frame_ok _ _ _ (bind _ _) =>
      eapply frame_bind; [solve [eauto with frame] | intros ? ? ? ?]
  | |- frame_ok _ _ _ (ret _) =>
      apply frame_ret; intros; solve [exact I | unfold made_after in *; lia]
  | |- frame_ok _ _ _ (match ?o with _ => _ end) => destruct o
  | |- frame_ok _ _ _ (let _ := _ in _) => cbv zeta
  | |- frame_ok _ _ _ _ => solve [eauto with frame]
  end.

Ltac frame := repeat frame_step.

Lemma frame_load_geo (n L : nat) (r : ref) : frame_ok n L anything (load_geo r).
Proof. unfold load_geo. frame. Qed.

Lemma frame_load_enu (n L : nat) (r : ref) : frame_ok n L anything (load_enu r).
Proof. unfold load_enu. frame. Qed.

Lemma frame_load_ecef (n L : nat) (r : ref) : frame_ok n L anything (load_ecef r).
Proof. unfold load_ecef. frame. Qed.

#[local] Hint Resolve frame_load_geo frame_load_enu frame_load_ecef : frame.

(** *** Attribute assignments to an object made after the first [n] *)

Lemma frame_set_lon (n L : nat) (r : ref) (v : R) :
  (n <= r)%nat -> frame_ok n L anything (set_lon r v).
Proof. intros. unfold set_lon. frame. Qed.

Lemma frame_set_lat (n L : nat) (r : ref) (v : R) :
  (n <= r)%nat -> frame_ok n L anything (set_lat r v).
Proof. intros. unfold set_lat. frame. Qed.

Lemma frame_set_hgt (n L : nat) (r : ref) (v : R) :
  (n <= r)%nat -> frame_ok n L anything (set_hgt r v).
Proof. intros. unfold set_hgt. frame. Qed.

Lemma frame_set_E (n L : nat) (r : ref) (v : R) :
  (n <= r)%nat -> frame_ok n L anything (set_E r v).
Proof. intros. unfold set_E. frame. Qed.

Lemma frame_set_N (n L : nat) (r : ref) (v : R) :
  (n <= r)%nat -> frame_ok n L anything (set_N r v).
Proof. intros. unfold set_N. frame. Qed.

Lemma frame_set_U (n L : nat) (r : ref) (v : R) :
  (n <= r)%nat -> frame_ok n L anything (set_U r v).
Proof. intros. unfold set_U. frame. Qed.

Lemma frame_set_X (n L : nat) (r : ref) (v : R) :
  (n <= r)%nat -> frame_ok n L anything (set_X r v).
Proof. intros. unfold set_X. frame. Qed.

Lemma frame_set_Y (n L : nat) (r : ref) (v : R) :
  (n <= r)%nat -> frame_ok n L anything (set_Y r v).
Proof. intros. unfold set_Y. frame. Qed.

Lemma frame_set_Z (n L : nat) (r : ref) (v : R) :
  (n <= r)%nat -> frame_ok n L anything (set_Z r v).
Proof. intros. unfold set_Z. frame. Qed.

#[local] Hint Resolve frame_set_lon frame_set_lat frame_set_hgt frame_set_E frame_set_N
  frame_set_U frame_set_X frame_set_Y frame_set_Z : frame.

(** *** Reads and copies *)

Lemma frame_deepcopy (n L : nat) (self : ref) :
  frame_ok n L (made_after n) (deepcopy self).
Proof. unfold deepcopy. frame. Qed.

Lemma frame_getX (n L : nat) (coords : ref) :
  frame_ok n L anything (getX coords).
Proof. unfold getX. frame. Qed.

Lemma frame_getY (n L : nat) (coords : ref) :
  frame_ok n L anything (getY coords).
Proof. unfold getY. frame. Qed.

Lemma frame_getZ (n L : nat) (coords : ref) :
  frame_ok n L anything (getZ coords).
Proof. unfold getZ. frame. Qed.

#[local] Hint Resolve frame_deepcopy frame_getX frame_getY frame_getZ : frame.

(** *** The methods that leave the store as they found it, but for the
    objects they make *)

Lemma frame_GeoCoords_toECEFCoords (n L : nat) (self : ref) :
  frame_ok n L (made_after n) (GeoCoords_toECEFCoords_m self).
Proof. unfold GeoCoords_toECEFCoords_m. frame. Qed.

Lemma frame_ECEFCoords_copy (n L : nat) (self : ref) :
  frame_ok n L (made_after n) (ECEFCoords_copy_m self).
Proof. unfold ECEFCoords_copy_m. frame. Qed.

Lemma frame_ECEFCoords_toECEFCoords (n L : nat) (self : ref) :
  frame_ok n L (made_after n) (ECEFCoords_toECEFCoords_m self).
Proof. unfold ECEFCoords_toECEFCoords_m. frame. Qed.

#[local] Hint Resolve frame_GeoCoords_toECEFCoords frame_ECEFCoords_copy
  frame_ECEFCoords_toECEFCoords : frame.

Lemma frame_toECEFCoords (n L : nat) (base : ref) :
  frame_ok n L (made_after n) (toECEFCoords base).
Proof. unfold toECEFCoords. frame. Qed.

#[local] Hint Resolve frame_toECEFCoords : frame.

Lemma frame_ECEFCoords_toGeoCoords (n L : nat) (self : ref) :
  frame_ok n L (made_after n) (ECEFCoords_toGeoCoords_m self).
Proof. unfold ECEFCoords_toGeoCoords_m. frame. Qed.

#[local] Hint Resolve frame_ECEFCoords_toGeoCoords : frame.

Lemma frame_ECEFCoords_toENUCoords (n L : nat) (self base : ref) :
  frame_ok n L (made_after n) (ECEFCoords_toENUCoords_m self base).
Proof. unfold ECEFCoords_toENUCoords_m. frame. Qed.

Lemma frame_ENUCoords_toECEFCoords (n L : nat) (self base : ref) :
  frame_ok n L (made_after n) (ENUCoords_toECEFCoords_m self base).
Proof. unfold ENUCoords_toECEFCoords_m. frame. Qed.

Lemma frame_projToLambert93 (n L : nat) (coords : ref) :
  frame_ok n L (made_after n) (_projToLambert93_m coords).
Proof. unfold _projToLambert93_m. frame. Qed.

Lemma frame_projFromLambert93 (n L : nat) (coords : ref) :
  frame_ok n L (made_after n) (__projFromLambert93_m coords).
Proof. unfold __projFromLambert93_m. frame. Qed.

Lemma frame_projFromUTM (n L : nat) (coords : ref) (zone : Z) (northern : bool) :
  frame_ok n L (made_after n) (_projFromUTM_m coords zone northern).
Proof. unfold _projFromUTM_m. frame. Qed.

#[local] Hint Resolve frame_ECEFCoords_toENUCoords
  frame_ENUCoords_toECEFCoords frame_projToLambert93 frame_projFromLambert93
  frame_projFromUTM : frame.

Lemma frame_proj (n L : nat) (coords : ref) (srid : Z) :
  frame_ok n L (made_after n) (_proj_m coords srid).
Proof. unfold _proj_m. frame. Qed.

Lemma frame_unproj (n L : nat) (coords : ref) (srid : Z) :
  frame_ok n L (made_after n) (_unproj_m coords srid).
Proof. unfold _unproj_m. frame. Qed.

#[local] Hint Resolve frame_proj frame_unproj : frame.

Lemma frame_GeoCoords_init (n L : nat) (lon lat hgt : R) :
  frame_ok n L (made_after n) (GeoCoords_init_m lon lat hgt).
Proof. unfold GeoCoords_init_m. frame. Qed.

Lemma frame_GeoCoords_copy (n L : nat) (self : ref) :
  frame_ok n L (made_after n) (GeoCoords_copy_m self).
Proof. unfold GeoCoords_copy_m. frame. Qed.

Lemma frame_GeoCoords_toProjCoords (n L : nat) (self : ref) (srid : Z) :
  frame_ok n L (made_after n) (GeoCoords_toProjCoords_m self srid).
Proof. unfold GeoCoords_toProjCoords_m. frame. Qed.

#[local] Hint Resolve frame_GeoCoords_init frame_GeoCoords_copy
  frame_GeoCoords_toProjCoords : frame.

Lemma frame_GeoCoords_toENUCoords (n L : nat) (self : ref) (base : value) :
  frame_ok n L (made_after n) (GeoCoords_toENUCoords_m self base).
Proof. unfold GeoCoords_toENUCoords_m. frame. Qed.

Lemma frame_GeoCoords_toGeoCoords (n L : nat) (self : ref) :
  frame_ok n L (made_after n) (GeoCoords_toGeoCoords_m self).
Proof. unfold GeoCoords_toGeoCoords_m. frame. Qed.

Lemma frame_ENUCoords_init (n L : nat) (E N U : R) :
  frame_ok n L (made_after n) (ENUCoords_init_m E N U).
Proof. unfold ENUCoords_init_m. frame. Qed.

Lemma frame_ENUCoords_copy (n L : nat) (self : ref) :
  frame_ok n L (made_after n) (ENUCoords_copy_m self).
Proof. unfold ENUCoords_copy_m. frame. Qed.

Lemma frame_ENUCoords_toGeoCoords (n L : nat) (self : ref) (base : value) :
  frame_ok n L (made_after n) (ENUCoords_toGeoCoords_m self base).
Proof. unfold ENUCoords_toGeoCoords_m. frame. Qed.

Lemma frame_ENUCoords_toENUCoords (n L : nat) (self base1 base2 : ref) :
  frame_ok n L (made_after n) (ENUCoords_toENUCoords_m self base1 base2).
Proof. unfold ENUCoords_toENUCoords_m. frame. Qed.

Lemma frame_ENUCoords_norm2D (n L : nat) (self : ref) :
  frame_ok n L anything (ENUCoords_norm2D_m self).
Proof. unfold ENUCoords_norm2D_m. frame. Qed.

Lemma frame_ENUCoords_norm (n L : nat) (self : ref) :
  frame_ok n L anything (ENUCoords_norm_m self).
Proof. unfold ENUCoords_norm_m. frame. Qed.

Lemma frame_ENUCoords_dot (n L : nat) (self point : ref) :
  frame_ok n L anything (ENUCoords_dot_m self point).
Proof. unfold ENUCoords_dot_m. frame. Qed.

Lemma frame_ENUCoords_sub (n L : nat) (self p : ref) :
  frame_ok n L (made_after n) (ENUCoords_sub_m self p).
Proof. unfold ENUCoords_sub_m. frame. Qed.

Lemma frame_ENUCoords_add (n L : nat) (self p : ref) :
  frame_ok n L (made_after n) (ENUCoords_add_m self p).
Proof. unfold ENUCoords_add_m. frame. Qed.

Lemma frame_ECEFCoords_init (n L : nat) (X Y Z : R) :
  frame_ok n L (made_after n) (ECEFCoords_init_m X Y Z).
Proof. unfold ECEFCoords_init_m. frame. Qed.

Lemma frame_ECEFCoords_dot (n L : nat) (self point : ref) :
  frame_ok n L anything (ECEFCoords_dot_m self point).
Proof. unfold ECEFCoords_dot_m. frame. Qed.

#[local] Hint Resolve frame_GeoCoords_toENUCoords
  frame_GeoCoords_toGeoCoords frame_ENUCoords_init frame_ENUCoords_copy
  frame_ENUCoords_toGeoCoords frame_ENUCoords_toENUCoords
  frame_ENUCoords_norm2D frame_ENUCoords_norm frame_ENUCoords_dot
  frame_ENUCoords_sub frame_ENUCoords_add frame_ECEFCoords_init
  frame_ECEFCoords_dot : frame.

Lemma frame_ECEFCoords_norm (n L : nat) (self : ref) :
  frame_ok n L anything (ECEFCoords_norm_m self).
Proof. unfold ECEFCoords_norm_m. frame. Qed.

Lemma frame_ECEFCoords_sub (n L : nat) (self p : ref) :
  frame_ok n L (made_after n) (ECEFCoords_sub_m self p).
Proof. unfold ECEFCoords_sub_m. frame. Qed.

Lemma frame_ECEFCoords_add (n L : nat) (self p : ref) :
  frame_ok n L (made_after n) (ECEFCoords_add_m self p).
Proof. unfold ECEFCoords_add_m. frame. Qed.

#[local] Hint Resolve frame_ECEFCoords_norm frame_ECEFCoords_sub
  frame_ECEFCoords_add : frame.

Lemma frame_sub (n L : nat) (a b : ref) :
  frame_ok n L (made_after n) (sub a b).
Proof. unfold sub. frame. Qed.

Lemma frame_norm (n L : nat) (v : ref) :
  frame_ok n L anything (norm v).
Proof. unfold norm. frame. Qed.

Lemma frame_toENUCoords (n L : nat) (point base : ref) :
  frame_ok n L (made_after n) (toENUCoords point base).
Proof. unfold toENUCoords. frame. Qed.

#[local] Hint Resolve frame_sub frame_norm frame_toENUCoords : frame.

Lemma frame_ECEFCoords_distanceTo (n L : nat) (self point : ref) :
  frame_ok n L anything (ECEFCoords_distanceTo_m self point).
Proof. unfold ECEFCoords_distanceTo_m. frame. Qed.

Lemma frame_ECEFCoords_elevationTo (n L : nat) (self point : ref) :
  frame_ok n L anything (ECEFCoords_elevationTo_m self point).
Proof. unfold ECEFCoords_elevationTo_m. frame. Qed.

Lemma frame_ECEFCoords_azimuthTo (n L : nat) (self point : ref) :
  frame_ok n L anything (ECEFCoords_azimuthTo_m self point).
Proof. unfold ECEFCoords_azimuthTo_m. frame. Qed.

#[local] Hint Resolve frame_ECEFCoords_distanceTo
  frame_ECEFCoords_elevationTo frame_ECEFCoords_azimuthTo : frame.

Lemma frame_GeoCoords_distanceTo (n L : nat) (self point : ref) :
  frame_ok n L anything (GeoCoords_distanceTo_m self point).
Proof. unfold GeoCoords_distanceTo_m. frame. Qed.

Lemma frame_GeoCoords_distance2DTo (n L : nat) (self point : ref) :
  frame_ok n L anything (GeoCoords_distance2DTo_m self point).
Proof. unfold GeoCoords_distance2DTo_m. frame. Qed.

Lemma frame_GeoCoords_elevationTo (n L : nat) (self point : ref) :
  frame_ok n L anything (GeoCoords_elevationTo_m self point).
Proof. unfold GeoCoords_elevationTo_m. frame. Qed.

Lemma frame_GeoCoords_azimuthTo (n L : nat) (self point : ref) :
  frame_ok n L anything (GeoCoords_azimuthTo_m self point).
Proof. unfold GeoCoords_azimuthTo_m. frame. Qed.

Lemma frame_ENUCoords_elevationTo (n L : nat) (self point : ref) :
  frame_ok n L anything (ENUCoords_elevationTo_m self point).
Proof. unfold ENUCoords_elevationTo_m. frame. Qed.

Lemma frame_ENUCoords_azimuthTo (n L : nat) (self point : ref) :
  frame_ok n L anything (ENUCoords_azimuthTo_m self point).
Proof. unfold ENUCoords_azimuthTo_m. frame. Qed.

Lemma frame_ENUCoords_distance2DTo (n L : nat) (self point : ref) :
  frame_ok n L anything (ENUCoords_distance2DTo_m self point).
Proof. unfold ENUCoords_distance2DTo_m. frame. Qed.

Lemma frame_ENUCoords_distanceTo (n L : nat) (self point : ref) :
  frame_ok n L anything (ENUCoords_distanceTo_m self point).
Proof. unfold ENUCoords_distanceTo_m. frame. Qed.

#[local] Hint Resolve frame_GeoCoords_distanceTo
  frame_GeoCoords_distance2DTo frame_GeoCoords_elevationTo
  frame_GeoCoords_azimuthTo frame_ENUCoords_elevationTo
  frame_ENUCoords_azimuthTo frame_ENUCoords_distance2DTo
  frame_ENUCoords_distanceTo : frame.

(** *** Every call that is not in place *)

Lemma frame_returns_ref (n L : nat) (m : M ref) :
  frame_ok n L (made_after n) m ->
  frame_ok n L (returns_fresh n) (returns_ref m).
Proof.
  intros Hm. unfold returns_ref. eapply frame_bind; [exact Hm |].
  intros r L1 HL Hr. apply frame_ret. intros L' HL' r' Heq.
  injection Heq as <-. unfold made_after in *. lia.
Qed.

Lemma frame_returns_float (n L : nat) (m : M R) :
  frame_ok n L anything m ->
  frame_ok n L (returns_fresh n) (returns_float m).
Proof.
  intros Hm. unfold returns_float. eapply frame_bind; [exact Hm |].
  intros x L1 HL _. apply frame_ret. intros L' HL' r' Heq. discriminate.
Qed.

Lemma frame_exec (n L : nat) (c : call) :
  in_place c = false ->
  frame_ok n L (returns_fresh n) (exec c).
Proof.
  destruct c; cbn [in_place documented_in_place]; intros Hc; try discriminate;
    cbn [exec];
    first [ apply frame_returns_ref; solve [eauto with frame]
          | apply frame_returns_float; solve [eauto with frame | frame] ].
Qed.

(** C9 fails on ECEFCoords.scalar, which is none of rotate, scale, translate
    and the setters: on a store holding the one object ECEFCoords(1, 2, 3),
    [scalar(2)] leaves ECEFCoords(1*2, 2*2, 3*2) in its place. *)
Lemma C9_counterexample :
  ~ (forall c, documented_in_place c = false -> side_effect_free c).
Proof.
  intros H.
  destruct (H (ECEF_scalar 0%nat 2) eq_refl
              [ECEF (ECEFCoords.new 1 2 3)] VNone
              [ECEF (ECEFCoords.new (1 * 2) (2 * 2) (3 * 2))] eq_refl)
    as [[fresh Hfresh] _].
  cbn in Hfresh. injection Hfresh as H1 _. lra.
Qed.

(** C9, amended.  Every method of the three classes other than rotate,
    scale and translate of ENUCoords, scalar of ECEFCoords and the setters
    leaves every object of the store as it found it, its receiver and
    arguments among them; the store it leaves is the former one followed by
    the objects the call made, and an object it returns is one of those. *)
Theorem C9_side_effect_free (c : call) :
  in_place c = false -> side_effect_free c.
Proof.
  intros Hc h v h' Hrun.
  destruct (frame_exec (List.length h) (List.length h) c Hc h v h'
              (le_n _) (le_n _) Hrun) as (Hfirst & Hlen & Hpost).
  rewrite firstn_all in Hfirst. split.
  - exists (skipn (List.length h) h').
    rewrite <- Hfirst at 1. symmetry. apply firstn_skipn.
  - intros r Hr. exact (Hpost r Hr).
Qed.

Lemma C9_witness : side_effect_free (Geo_toENUCoords 0%nat (VRef 1%nat)).
Proof.
  apply (C9_side_effect_free (Geo_toENUCoords 0%nat (VRef 1%nat))).
  reflexivity.
Defined.

(** In particular the receiver and the arguments of such a call, like every
    object of the store it found, are behind the same references with the
    same attributes afterwards. *)
Lemma side_effect_free_keeps_objects (c : call) (h h' : heap) (v : value) :
  side_effect_free c ->
  exec c h = Ok (v, h') ->
  forall (r : ref) (o : Coords), nth_error h r = Some o -> nth_error h' r = Some o.
Proof.
  intros Hfree Hrun r o Hr.
  destruct (Hfree h v h' Hrun) as [[fresh ->] _].
  now apply nth_error_old.
Qed.

(** ** The local rotation *)

Lemma ENUCoords_ext (a b : ENUCoords.t) :
  ENUCoords.E a = ENUCoords.E b -> ENUCoords.N a = ENUCoords.N b ->
  ENUCoords.U a = ENUCoords.U b -> a = b.
Proof. destruct a, b; cbn; intros; subst; reflexivity. Qed.

(** The rotation into the tangent frame and the one back are inverse of
    each other, whatever the angles [base_geo] holds. *)
Lemma rotation_there_and_back (P b : ECEFCoords.t) (g : GeoCoords.t) :
  ENUCoords_toECEFCoords_at (ECEFCoords_toENUCoords_at P b g) b g = P.
Proof.
  unfold ENUCoords_toECEFCoords_at, ECEFCoords_toENUCoords_at;
    cbn [ENUCoords.E ENUCoords.N ENUCoords.U].
  set (l := GeoCoords.lon g * PI / 180.0). set (f := GeoCoords.lat g * PI / 180.0).
  set (x := ECEFCoords.X P - ECEFCoords.X b).
  set (y := ECEFCoords.Y P - ECEFCoords.Y b).
  set (z := ECEFCoords.Z P - ECEFCoords.Z b).
  pose proof (trig_unit l) as Hl. pose proof (trig_unit f) as Hf.
  apply ECEFCoords_ext; cbn [ECEFCoords.X ECEFCoords.Y ECEFCoords.Z].
  - transitivity
      (x * (sin l * sin l + cos l * cos l * (sin f * sin f + cos f * cos f))
       + y * sin l * cos l * ((sin f * sin f + cos f * cos f) - 1)
       + ECEFCoords.X b); [ring | rewrite Hf, Rmult_1_r, Hl; unfold x; ring].
  - transitivity
      (y * (cos l * cos l + sin l * sin l * (sin f * sin f + cos f * cos f))
       + x * sin l * cos l * ((sin f * sin f + cos f * cos f) - 1)
       + ECEFCoords.Y b);
      [ring | rewrite Hf, Rmult_1_r, (Rplus_comm (cos l * cos l)), Hl; unfold y; ring].
  - transitivity
      (z * (sin f * sin f + cos f * cos f) + ECEFCoords.Z b);
      [ring | rewrite Hf; unfold z; ring].
Qed.

Lemma rotation_back_and_there (e : ENUCoords.t) (b : ECEFCoords.t) (g : GeoCoords.t) :
  ECEFCoords_toENUCoords_at (ENUCoords_toECEFCoords_at e b g) b g = e.
Proof.
  unfold ENUCoords_toECEFCoords_at, ECEFCoords_toENUCoords_at;
    cbn [ECEFCoords.X ECEFCoords.Y ECEFCoords.Z].
  set (l := GeoCoords.lon g * PI / 180.0). set (f := GeoCoords.lat g * PI / 180.0).
  pose proof (trig_unit l) as Hl. pose proof (trig_unit f) as Hf.
  set (E := ENUCoords.E e). set (N := ENUCoords.N e). set (U := ENUCoords.U e).
  apply ENUCoords_ext; cbn [ENUCoords.E ENUCoords.N ENUCoords.U]; fold E N U.
  - transitivity (E * (sin l * sin l + cos l * cos l)); [ring | rewrite Hl; ring].
  - transitivity
      (N * (sin f * sin f * (sin l * sin l + cos l * cos l) + cos f * cos f)
       + U * sin f * cos f * (1 - (sin l * sin l + cos l * cos l)));
      [ring | rewrite Hl, Rmult_1_r, Hf; ring].
  - transitivity
      (U * (cos f * cos f * (sin l * sin l + cos l * cos l) + sin f * sin f)
       + N * sin f * cos f * (1 - (sin l * sin l + cos l * cos l)));
      [ring | rewrite Hl, Rmult_1_r, (Rplus_comm (cos f * cos f)), Hf; ring].
Qed.

(** X1. Converting an ENU point to ECEF relative to a base and back to ENU
    with the same base gives the ENU point again. *)
Theorem X1_enu_ecef_enu_roundtrip (e : ENUCoords.t) (B : Base) :
  ECEFCoords_toENUCoords (ENUCoords_toECEFCoords e B) B = e.
Proof.
  unfold ECEFCoords_toENUCoords, ENUCoords_toECEFCoords. cbv zeta.
  apply rotation_back_and_there.
Qed.

(** X2. Re-basing composes: from base 1 to base 2 and then from base 2 to
    base 3 is the re-basing from base 1 to base 3; re-basing to the same
    base changes nothing, and re-basing there and back returns the point. *)
Theorem X2_rebasing_composes (e : ENUCoords.t) (B1 B2 B3 : Base) :
  ENUCoords_toENUCoords (ENUCoords_toENUCoords e B1 B2) B2 B3
  = ENUCoords_toENUCoords e B1 B3
  /\ ENUCoords_toENUCoords e B1 B1 = e
  /\ ENUCoords_toENUCoords (ENUCoords_toENUCoords e B1 B2) B2 B1 = e.
Proof.
  assert (Hcomp : forall B C D,
             ENUCoords_toENUCoords (ENUCoords_toENUCoords e B C) C D
             = ENUCoords_toENUCoords e B D).
  { intros B C D.
    unfold ENUCoords_toENUCoords, ENUCoords_toECEFCoords, ECEFCoords_toENUCoords.
    cbn [Base_toECEFCoords]. unfold ECEFCoords_toECEFCoords.
    now rewrite rotation_there_and_back. }
  assert (Hid : forall B, ENUCoords_toENUCoords e B B = e).
  { intros B.
    unfold ENUCoords_toENUCoords, ENUCoords_toECEFCoords, ECEFCoords_toENUCoords.
    cbn [Base_toECEFCoords]. unfold ECEFCoords_toECEFCoords.
    apply rotation_back_and_there. }
  split; [apply Hcomp | split; [apply Hid |]].
  rewrite Hcomp. apply Hid.
Qed.

(** ** Distances *)

(** The rotation keeps the squared length of an offset. *)
Lemma rotation_keeps_length (x y z l f : R) :
  (- x * sin l + y * cos l) ^ 2
  + (- x * cos l * sin f - y * sin l * sin f + z * cos f) ^ 2
  + (x * cos l * cos f + y * sin l * cos f + z * sin f) ^ 2
  = x * x + y * y + z * z.
Proof.
  pose proof (trig_unit l) as Hl. pose proof (trig_unit f) as Hf.
  transitivity
    (x * x * (sin l * sin l + cos l * cos l * (sin f * sin f + cos f * cos f))
     + y * y * (cos l * cos l + sin l * sin l * (sin f * sin f + cos f * cos f))
     + z * z * (sin f * sin f + cos f * cos f)
     + 2 * x * y * sin l * cos l * ((sin f * sin f + cos f * cos f) - 1));
    [ring |].
  rewrite Hf, !Rmult_1_r, Hl, (Rplus_comm (cos l * cos l)), Hl. ring.
Qed.

(** X3. The conversion to ENU keeps distances: two ECEF points are as far
    apart as their ENU images relative to any common base, and the length of
    the ENU image of a point is its distance to the base. *)
Theorem X3_enu_conversion_isometry (P Q : ECEFCoords.t) (B : Base) :
  ENUCoords_distanceTo (ECEFCoords_toENUCoords P B) (ECEFCoords_toENUCoords Q B)
  = ECEFCoords_distanceTo P Q
  /\ ENUCoords_norm (ECEFCoords_toENUCoords P B)
     = ECEFCoords_distanceTo (Base_toECEFCoords B) P.
Proof.
  unfold ENUCoords_distanceTo, ENUCoords_norm, ENUCoords_sub,
    ECEFCoords_distanceTo, ECEFCoords_norm, ECEFCoords_dot, ECEFCoords_sub,
    ECEFCoords_toENUCoords, ECEFCoords_toENUCoords_at.
  cbn [ENUCoords.E ENUCoords.N ENUCoords.U ECEFCoords.X ECEFCoords.Y ECEFCoords.Z].
  set (b := Base_toECEFCoords B).
  set (g := ECEFCoords_toGeoCoords b).
  set (l := GeoCoords.lon g * PI / 180.0). set (f := GeoCoords.lat g * PI / 180.0).
  split; f_equal.
  - rewrite <- (rotation_keeps_length
                  (ECEFCoords.X P - ECEFCoords.X Q) (ECEFCoords.Y P - ECEFCoords.Y Q)
                  (ECEFCoords.Z P - ECEFCoords.Z Q) l f).
    ring.
  - rewrite <- (rotation_keeps_length
                  (ECEFCoords.X b - ECEFCoords.X P) (ECEFCoords.Y b - ECEFCoords.Y P)
                  (ECEFCoords.Z b - ECEFCoords.Z P) l f).
    ring.
Qed.

Lemma ENUCoords_norm2D_le_norm (e : ENUCoords.t) :
  ENUCoords_norm2D e <= ENUCoords_norm e.
Proof.
  unfold ENUCoords_norm2D, ENUCoords_norm. apply sqrt_le_1_alt.
  pose proof (pow2_ge_0 (ENUCoords.U e)). lra.
Qed.

(** X4. The planimetric distance never exceeds the distance in space: for
    geodetic points, and for ENU points. *)
Theorem X4_distance2D_le_distance :
  (forall A B : GeoCoords.t, GeoCoords_distance2DTo A B <= GeoCoords_distanceTo A B)
  /\ (forall A B : ENUCoords.t, ENUCoords_distance2DTo A B <= ENUCoords_distanceTo A B).
Proof.
  split; intros A B.
  - unfold GeoCoords_distance2DTo, GeoCoords_toENUCoords.
    eapply Rle_trans; [apply ENUCoords_norm2D_le_norm |].
    unfold ENUCoords_norm, ECEFCoords_toENUCoords, ECEFCoords_toENUCoords_at,
      GeoCoords_distanceTo, ECEFCoords_distanceTo, ECEFCoords_norm,
      ECEFCoords_dot, ECEFCoords_sub.
    cbn [Base_toECEFCoords ENUCoords.E ENUCoords.N ENUCoords.U
         ECEFCoords.X ECEFCoords.Y ECEFCoords.Z].
    unfold ECEFCoords_toECEFCoords.
    rewrite rotation_keeps_length. apply Req_le. reflexivity.
  - apply ENUCoords_norm2D_le_norm.
Qed.

Lemma atan2_0_0 : atan2 0 0 = 0.
Proof.
  unfold atan2.
  destruct (Rlt_dec 0 0); [lra |]. reflexivity.
Qed.

Lemma ECEFCoords_toENUCoords_self (P : ECEFCoords.t) :
  ECEFCoords_toENUCoords P (BaseECEF P) = ENUCoords.new 0 0 0.
Proof.
  unfold ECEFCoords_toENUCoords, ECEFCoords_toENUCoords_at.
  cbn [Base_toECEFCoords]. unfold ECEFCoords_toECEFCoords.
  apply ENUCoords_ext; cbn [ENUCoords.E ENUCoords.N ENUCoords.U]; ring.
Qed.

(** X5. A point seen from itself: elevationTo and azimuthTo are 0, and so
    are distanceTo and distance2DTo, in each of the three classes. *)
Theorem X5_queries_on_the_same_point :
  (forall A : GeoCoords.t,
      GeoCoords_elevationTo A A = 0 /\ GeoCoords_azimuthTo A A = 0
      /\ GeoCoords_distanceTo A A = 0 /\ GeoCoords_distance2DTo A A = 0)
  /\ (forall A : ECEFCoords.t,
         ECEFCoords_elevationTo A A = 0 /\ ECEFCoords_azimuthTo A A = 0
         /\ ECEFCoords_distanceTo A A = 0)
  /\ (forall A : ENUCoords.t,
         ENUCoords_elevationTo A A = 0 /\ ENUCoords_azimuthTo A A = 0
         /\ ENUCoords_distanceTo A A = 0 /\ ENUCoords_distance2DTo A A = 0).
Proof.
  assert (H2 : sqrt (0 ^ 2 + 0 ^ 2) = 0)
    by (replace (0 ^ 2 + 0 ^ 2) with 0 by ring; apply sqrt_0).
  assert (Hecef : forall A : ECEFCoords.t, ECEFCoords_distanceTo A A = 0).
  { intros A. unfold ECEFCoords_distanceTo, ECEFCoords_norm, ECEFCoords_dot,
      ECEFCoords_sub. cbn [ECEFCoords.X ECEFCoords.Y ECEFCoords.Z].
    rewrite <- sqrt_0. f_equal. ring. }
  split; [| split]; intros A.
  - unfold GeoCoords_elevationTo, GeoCoords_azimuthTo, GeoCoords_distanceTo,
      GeoCoords_distance2DTo, GeoCoords_toENUCoords. cbn [Base_toECEFCoords].
    rewrite ECEFCoords_toENUCoords_self. unfold ENUCoords_norm2D.
    cbn [ENUCoords.E ENUCoords.N ENUCoords.U]. rewrite H2.
    repeat split; [apply atan2_0_0 | apply atan2_0_0 | apply Hecef].
  - unfold ECEFCoords_elevationTo, ECEFCoords_azimuthTo.
    rewrite ECEFCoords_toENUCoords_self. unfold ENUCoords_norm2D.
    cbn [ENUCoords.E ENUCoords.N ENUCoords.U]. rewrite H2.
    repeat split; [apply atan2_0_0 | apply atan2_0_0 | apply Hecef].
  - unfold ENUCoords_elevationTo, ENUCoords_azimuthTo, ENUCoords_distanceTo,
      ENUCoords_distance2DTo, ENUCoords_norm, ENUCoords_norm2D, ENUCoords_sub.
    cbn [ENUCoords.E ENUCoords.N ENUCoords.U].
    rewrite !Rminus_diag. rewrite H2.
    replace (0 ^ 2 + 0 ^ 2 + 0 ^ 2) with 0 by ring. rewrite sqrt_0.
    repeat split; apply atan2_0_0.
Qed.

(** Cauchy-Schwarz and the triangle inequality in three dimensions. *)
Lemma cauchy_schwarz_3 (a1 a2 a3 b1 b2 b3 : R) :
  a1 * b1 + a2 * b2 + a3 * b3
  <= sqrt (a1 * a1 + a2 * a2 + a3 * a3) * sqrt (b1 * b1 + b2 * b2 + b3 * b3).
Proof.
  set (A := a1 * a1 + a2 * a2 + a3 * a3). set (B := b1 * b1 + b2 * b2 + b3 * b3).
  set (s := a1 * b1 + a2 * b2 + a3 * b3).
  assert (HA : 0 <= A) by (unfold A; nra).
  assert (HB : 0 <= B) by (unfold B; nra).
  rewrite <- sqrt_mult by assumption.
  apply Rle_trans with (Rabs s); [apply Rle_abs |].
  rewrite <- sqrt_Rsqr_abs. apply sqrt_le_1_alt. unfold Rsqr.
  replace (A * B) with
    (s * s + (a1 * b2 - a2 * b1) * (a1 * b2 - a2 * b1)
     + (a1 * b3 - a3 * b1) * (a1 * b3 - a3 * b1)
     + (a2 * b3 - a3 * b2) * (a2 * b3 - a3 * b2))
    by (unfold A, B, s; ring).
  pose proof (Rle_0_sqr (a1 * b2 - a2 * b1)) as H1.
  pose proof (Rle_0_sqr (a1 * b3 - a3 * b1)) as H2.
  pose proof (Rle_0_sqr (a2 * b3 - a3 * b2)) as H3.
  unfold Rsqr in H1, H2, H3. lra.
Qed.

Lemma triangle_3 (a1 a2 a3 b1 b2 b3 : R) :
  sqrt ((a1 + b1) * (a1 + b1) + (a2 + b2) * (a2 + b2) + (a3 + b3) * (a3 + b3))
  <= sqrt (a1 * a1 + a2 * a2 + a3 * a3) + sqrt (b1 * b1 + b2 * b2 + b3 * b3).
Proof.
  pose proof (cauchy_schwarz_3 a1 a2 a3 b1 b2 b3) as Hcs.
  set (A := a1 * a1 + a2 * a2 + a3 * a3) in *.
  set (B := b1 * b1 + b2 * b2 + b3 * b3) in *.
  assert (HA : 0 <= A) by (unfold A; nra).
  assert (HB : 0 <= B) by (unfold B; nra).
  pose proof (sqrt_pos A) as HsA. pose proof (sqrt_pos B) as HsB.
  rewrite <- (sqrt_square (sqrt A + sqrt B)) by lra.
  apply sqrt_le_1_alt.
  replace ((sqrt A + sqrt B) * (sqrt A + sqrt B))
    with (sqrt A * sqrt A + sqrt B * sqrt B + 2 * (sqrt A * sqrt B)) by ring.
  rewrite !sqrt_sqrt by assumption. unfold A, B in *. lra.
Qed.

Lemma sqrt3_pow (x y z : R) :
  sqrt (x ^ 2 + y ^ 2 + z ^ 2) = sqrt (x * x + y * y + z * z).
Proof. f_equal. ring. Qed.

Lemma sum_squares_zero (x y z : R) :
  sqrt (x * x + y * y + z * z) = 0 -> x = 0 /\ y = 0 /\ z = 0.
Proof.
  intros H. apply sqrt_eq_0 in H; [| nra].
  repeat split; nra.
Qed.

(** X6. distanceTo is a metric on ECEF points and on ENU points: it is
    never negative, it is 0 only between equal points, and it obeys the
    triangle inequality; on geodetic points it obeys the triangle inequality
    as well. *)
Theorem X6_distanceTo_metric :
  (forall A B C : ECEFCoords.t,
      0 <= ECEFCoords_distanceTo A B
      /\ (ECEFCoords_distanceTo A B = 0 <-> A = B)
      /\ ECEFCoords_distanceTo A C
         <= ECEFCoords_distanceTo A B + ECEFCoords_distanceTo B C)
  /\ (forall A B C : ENUCoords.t,
         0 <= ENUCoords_distanceTo A B
         /\ (ENUCoords_distanceTo A B = 0 <-> A = B)
         /\ ENUCoords_distanceTo A C
            <= ENUCoords_distanceTo A B + ENUCoords_distanceTo B C)
  /\ (forall A B C : GeoCoords.t,
         0 <= GeoCoords_distanceTo A B
         /\ GeoCoords_distanceTo A C
            <= GeoCoords_distanceTo A B + GeoCoords_distanceTo B C).
Proof.
  assert (Hecef : forall A B C : ECEFCoords.t,
      0 <= ECEFCoords_distanceTo A B
      /\ (ECEFCoords_distanceTo A B = 0 <-> A = B)
      /\ ECEFCoords_distanceTo A C
         <= ECEFCoords_distanceTo A B + ECEFCoords_distanceTo B C).
  { intros A B C.
    unfold ECEFCoords_distanceTo, ECEFCoords_norm, ECEFCoords_dot, ECEFCoords_sub.
    cbn [ECEFCoords.X ECEFCoords.Y ECEFCoords.Z].
    split; [apply sqrt_pos | split; [split |]].
    - intros H. apply sum_squares_zero in H as (Hx & Hy & Hz).
      apply ECEFCoords_ext; lra.
    - intros ->. rewrite <- sqrt_0. f_equal. ring.
    - eapply Rle_trans; [| apply triangle_3]. apply Req_le. f_equal. ring. }
  split; [exact Hecef | split].
  - intros A B C.
    unfold ENUCoords_distanceTo, ENUCoords_norm, ENUCoords_sub.
    cbn [ENUCoords.E ENUCoords.N ENUCoords.U]. rewrite !sqrt3_pow.
    split; [apply sqrt_pos | split; [split |]].
    + intros H. apply sum_squares_zero in H as (Hx & Hy & Hz).
      apply ENUCoords_ext; lra.
    + intros ->. rewrite <- sqrt_0. f_equal. ring.
    + eapply Rle_trans; [| apply triangle_3]. apply Req_le. f_equal. ring.
  - intros A B C. unfold GeoCoords_distanceTo.
    destruct (Hecef (GeoCoords_toECEFCoords A) (GeoCoords_toECEFCoords B)
                (GeoCoords_toECEFCoords C)) as (H0 & _ & Htri).
    split; assumption.
Qed.

(** ** The ellipsoid *)

(** X7. A geodetic point of height 0 is sent by GeoCoords.toECEFCoords onto
    the ellipsoid of semi-axes Re and Re (1 - Fe):
    (X^2 + Y^2) / Re^2 + Z^2 / (Re (1 - Fe))^2 = 1. *)
Theorem X7_height_zero_on_ellipsoid (lon lat : R) :
  let c := GeoCoords_toECEFCoords (GeoCoords.new lon lat 0) in
  let b := Re * (1 - Fe) in
  (ECEFCoords.X c * ECEFCoords.X c + ECEFCoords.Y c * ECEFCoords.Y c) / (Re * Re)
  + ECEFCoords.Z c * ECEFCoords.Z c / (b * b) = 1.
Proof.
  cbv zeta. unfold GeoCoords_toECEFCoords.
  cbn [GeoCoords.lon GeoCoords.lat GeoCoords.hgt ECEFCoords.X ECEFCoords.Y ECEFCoords.Z].
  set (f := lat * PI / 180.0). set (l := lon * PI / 180.0).
  pose proof (prime_vertical_den_pos f) as [HW2 _].
  pose proof ecc2 as He.
  set (e := sqrt (Fe * (2 - Fe))) in *.
  set (W := sqrt (1 - (e * sin f) ^ 2)).
  assert (HW : 0 < W) by (now apply sqrt_lt_R0).
  assert (HWW : W * W = 1 - (e * sin f) ^ 2) by (apply sqrt_sqrt; lra).
  pose proof Re_pos as Ha. pose proof Fe_bounds as HFe.
  pose proof (trig_unit l) as Hl. pose proof (trig_unit f) as Hf.
  replace ((Re / W + 0) * cos f * cos l * ((Re / W + 0) * cos f * cos l)
           + (Re / W + 0) * cos f * sin l * ((Re / W + 0) * cos f * sin l))
    with (Re * Re * (cos f * cos f) * (sin l * sin l + cos l * cos l) / (W * W))
    by (field; lra).
  replace (((1 - e * e) * (Re / W) + 0) * sin f * (((1 - e * e) * (Re / W) + 0) * sin f)
           / (Re * (1 - Fe) * (Re * (1 - Fe))))
    with ((1 - e * e) * (1 - e * e) / ((1 - Fe) * (1 - Fe)) * (sin f * sin f) / (W * W))
    by (field; repeat split; lra).
  rewrite Hl, He, HWW, Rmult_1_r.
  replace ((e * sin f) ^ 2) with (e * e * (sin f * sin f)) by ring. rewrite He.
  replace (cos f * cos f) with (1 - sin f * sin f) by lra.
  replace ((e * sin f) ^ 2) with (e * e * (sin f * sin f)) in HW2 by ring.
  rewrite He in HW2.
  field. repeat split; lra.
Qed.

(** X8. Seen from the point of the ellipsoid below it (same longitude and
    latitude, height 0), a geodetic point of height h has the ENU
    coordinates (0, 0, h); its distance to that point is |h| and, when
    h > 0, its elevation is pi/2. *)
Theorem X8_up_is_height (lo la h : R) :
  -180 < lo <= 180 -> -90 < la < 90 ->
  let foot := GeoCoords.new lo la 0 in
  let point := GeoCoords.new lo la h in
  GeoCoords_toENUCoords point (BaseGeo foot) = ENUCoords.new 0 0 h
  /\ GeoCoords_distanceTo foot point = Rabs h
  /\ (0 < h -> GeoCoords_elevationTo foot point = PI / 2).
Proof.
  intros Hlo Hla foot point.
  assert (Henu : GeoCoords_toENUCoords point (BaseGeo foot) = ENUCoords.new 0 0 h).
  { unfold GeoCoords_toENUCoords, ECEFCoords_toENUCoords, ECEFCoords_toENUCoords_at.
    cbn [Base_toECEFCoords]. unfold ECEFCoords_toECEFCoords.
    destruct (geo_roundtrip_on_ellipsoid lo la Hla) as [Hlat _]. cbv zeta in Hlat.
    fold foot in Hlat. rewrite Hlat.
    rewrite (geo_roundtrip_lon foot) by (cbn; try assumption; unfold Re; lra).
    unfold foot, point, GeoCoords_toECEFCoords.
    cbn [GeoCoords.lon GeoCoords.lat GeoCoords.hgt
         ECEFCoords.X ECEFCoords.Y ECEFCoords.Z].
    set (f := la * PI / 180.0). set (l := lo * PI / 180.0).
    set (n := Re / sqrt (1 - (sqrt (Fe * (2 - Fe)) * sin f) ^ 2)).
    set (k := (1 - sqrt (Fe * (2 - Fe)) * sqrt (Fe * (2 - Fe))) * n).
    pose proof (trig_unit l) as Hl. pose proof (trig_unit f) as Hf.
    apply ENUCoords_ext; cbn [ENUCoords.E ENUCoords.N ENUCoords.U].
    - ring.
    - transitivity (h * sin f * cos f * (1 - (sin l * sin l + cos l * cos l)));
        [ring | rewrite Hl; ring].
    - transitivity (h * (cos f * cos f * (sin l * sin l + cos l * cos l)
                         + sin f * sin f));
        [ring | rewrite Hl, Rmult_1_r, (Rplus_comm (cos f * cos f)), Hf; ring]. }
  split; [exact Henu | split].
  - unfold GeoCoords_distanceTo, ECEFCoords_distanceTo, ECEFCoords_norm,
      ECEFCoords_dot, ECEFCoords_sub, foot, point, GeoCoords_toECEFCoords.
    cbn [GeoCoords.lon GeoCoords.lat GeoCoords.hgt
         ECEFCoords.X ECEFCoords.Y ECEFCoords.Z].
    set (f := la * PI / 180.0). set (l := lo * PI / 180.0).
    set (n := Re / sqrt (1 - (sqrt (Fe * (2 - Fe)) * sin f) ^ 2)).
    set (k := (1 - sqrt (Fe * (2 - Fe)) * sqrt (Fe * (2 - Fe))) * n).
    pose proof (trig_unit l) as Hl. pose proof (trig_unit f) as Hf.
    rewrite <- sqrt_Rsqr_abs. f_equal. unfold Rsqr.
    transitivity (h * h * (cos f * cos f * (sin l * sin l + cos l * cos l)
                           + sin f * sin f));
      [ring | rewrite Hl, Rmult_1_r, (Rplus_comm (cos f * cos f)), Hf; ring].
  - intros Hh. unfold GeoCoords_elevationTo. rewrite Henu.
    unfold ENUCoords_norm2D. cbn [ENUCoords.E ENUCoords.N ENUCoords.U].
    replace (0 ^ 2 + 0 ^ 2) with 0 by ring. rewrite sqrt_0.
    now apply atan2_pos_0.
Qed.

Lemma X8_witness :
  GeoCoords_toENUCoords (GeoCoords.new 2 48 100) (BaseGeo (GeoCoords.new 2 48 0))
  = ENUCoords.new 0 0 100.
Proof. apply (X8_up_is_height 2 48 100); lra. Defined.

(** ** The range of the geodetic coordinates *)

Lemma atan2_range (y x : R) : - PI < atan2 y x <= PI.
Proof.
  pose proof PI_RGT_0 as HPI. pose proof (atan_bound (y / x)) as Hb.
  unfold atan2.
  destruct (Rlt_dec 0 x); [lra |].
  destruct (Rlt_dec x 0) as [Hx |].
  - assert (Hinv : / x < 0) by now apply Rinv_lt_0_compat.
    destruct (Rle_dec 0 y) as [Hy | Hy].
    + assert (Hq : y / x <= 0) by (unfold Rdiv; nra).
      destruct Hq as [Hq | Hq].
      * apply atan_increasing in Hq. rewrite atan_0 in Hq. lra.
      * rewrite Hq, atan_0. lra.
    + assert (Hq : 0 < y / x) by (unfold Rdiv; nra).
      apply atan_increasing in Hq. rewrite atan_0 in Hq. lra.
  - destruct (Rlt_dec 0 y); [lra |]. destruct (Rlt_dec y 0); lra.
Qed.

Lemma atan2_right_half (y x : R) : 0 <= x -> - (PI / 2) <= atan2 y x <= PI / 2.
Proof.
  intros Hx. pose proof PI_RGT_0 as HPI. pose proof (atan_bound (y / x)) as Hb.
  unfold atan2.
  destruct (Rlt_dec 0 x); [lra |].
  destruct (Rlt_dec x 0); [lra |].
  destruct (Rlt_dec 0 y); [lra |]. destruct (Rlt_dec y 0); lra.
Qed.

Lemma to_degrees_bounds (a lo hi : R) :
  lo * (PI / 180) <= a <= hi * (PI / 180) -> lo <= a * (180.0 / PI) <= hi.
Proof.
  intros [H1 H2]. pose proof PI_RGT_0 as HPI.
  replace 180.0 with 180 by lra.
  assert (Hk : 0 < 180 / PI) by (apply Rdiv_lt_0_compat; lra).
  split.
  - apply Rmult_le_reg_r with (PI / 180); [lra |].
    replace (a * (180 / PI) * (PI / 180)) with a by (field; lra). exact H1.
  - apply Rmult_le_reg_r with (PI / 180); [lra |].
    replace (a * (180 / PI) * (PI / 180)) with a by (field; lra). exact H2.
Qed.

(** X9. ECEFCoords.toGeoCoords always returns a longitude in (-180, 180];
    and for a point at least Re Fe (2 - Fe) (about 42.7 km) away from the
    polar axis the latitude it returns is in [-90, 90]. *)
Theorem X9_toGeoCoords_ranges (c : ECEFCoords.t) :
  let g := ECEFCoords_toGeoCoords c in
  -180 < GeoCoords.lon g <= 180
  /\ (Re * (Fe * (2 - Fe))
      <= sqrt (ECEFCoords.X c * ECEFCoords.X c + ECEFCoords.Y c * ECEFCoords.Y c) ->
      -90 <= GeoCoords.lat g <= 90).
Proof.
  cbv zeta. unfold ECEFCoords_toGeoCoords, ECEFCoords_toGeoCoords_radians.
  cbn [GeoCoords.lon GeoCoords.lat]. pose proof PI_RGT_0 as HPI. split.
  - destruct (atan2_range (ECEFCoords.Y c) (ECEFCoords.X c)) as [Hlo Hhi].
    replace 180.0 with 180 by lra.
    assert (Hk : 0 < 180 / PI) by (apply Rdiv_lt_0_compat; lra).
    split.
    + apply Rmult_lt_reg_r with (PI / 180); [lra |].
      replace (atan2 (ECEFCoords.Y c) (ECEFCoords.X c) * (180 / PI) * (PI / 180))
        with (atan2 (ECEFCoords.Y c) (ECEFCoords.X c)) by (field; lra).
      lra.
    + apply Rmult_le_reg_r with (PI / 180); [lra |].
      replace (atan2 (ECEFCoords.Y c) (ECEFCoords.X c) * (180 / PI) * (PI / 180))
        with (atan2 (ECEFCoords.Y c) (ECEFCoords.X c)) by (field; lra).
      lra.
  - intros Hp.
    set (p := sqrt (ECEFCoords.X c * ECEFCoords.X c
                    + ECEFCoords.Y c * ECEFCoords.Y c)) in *.
    pose proof Re_pos as Ha. pose proof Fe_bounds as HFe.
    pose proof semi_minor_pos as Hb.
    assert (Hppos : 0 < p).
    { eapply Rlt_le_trans; [| exact Hp]. apply Rmult_lt_0_compat; nra. }
    set (t := atan2 (ECEFCoords.Z c * Re) (p * (Re * (1 - Fe)))).
    assert (Hcos : 0 < cos t <= 1).
    { split; [| apply COS_bound]. apply cos_gt_0.
      - unfold t. rewrite atan2_pos_x by (apply Rmult_lt_0_compat; lra).
        pose proof (atan_bound (ECEFCoords.Z c * Re / (p * (Re * (1 - Fe))))). lra.
      - unfold t. rewrite atan2_pos_x by (apply Rmult_lt_0_compat; lra).
        pose proof (atan_bound (ECEFCoords.Z c * Re / (p * (Re * (1 - Fe))))). lra. }
    apply to_degrees_bounds.
    replace (-90 * (PI / 180)) with (- (PI / 2)) by lra.
    replace (90 * (PI / 180)) with (PI / 2) by lra.
    apply atan2_right_half.
    assert (Hc3 : cos t ^ 3 <= 1).
    { replace 1 with (1 ^ 3) by ring. apply pow_incr. lra. }
    replace ((Re * Re - Re * (1 - Fe) * (Re * (1 - Fe))) / Re)
      with (Re * (Fe * (2 - Fe))) by (field; lra).
    assert (0 < Re * (Fe * (2 - Fe))) by (apply Rmult_lt_0_compat; nra).
    nra.
Qed.

Lemma X9_witness :
  -90 <= GeoCoords.lat (ECEFCoords_toGeoCoords (ECEFCoords.new Re 0 0)) <= 90.
Proof.
  apply (X9_toGeoCoords_ranges (ECEFCoords.new Re 0 0)).
  cbn [ECEFCoords.X ECEFCoords.Y].
  replace (Re * Re + 0 * 0) with (Re * Re) by ring.
  rewrite sqrt_square by (unfold Re; lra).
  unfold Re, Fe. lra.
Defined.

(** ** The UTM inverse *)

(** The central longitude enters the series as a shift of the longitude. *)
Lemma UTM_inverse_series_shift (x y c h : R) :
  GeoCoords.lon (UTM_inverse_series x y c h)
  = GeoCoords.lon (UTM_inverse_series x y 0 h) + c
  /\ GeoCoords.lat (UTM_inverse_series x y c h)
     = GeoCoords.lat (UTM_inverse_series x y 0 h)
  /\ GeoCoords.hgt (UTM_inverse_series x y c h) = h.
Proof.
  unfold UTM_inverse_series. cbv zeta. cbn [GeoCoords.lon GeoCoords.lat GeoCoords.hgt].
  split; [| split; reflexivity].
  match goal with
  | |- (?A + radians c) * 180 / PI = _ => generalize A
  end.
  intros A. unfold radians. field. apply PI_neq0.
Qed.

(** On the central meridian the series adds nothing to the longitude. *)
Lemma UTM_inverse_series_axis (y c h : R) :
  GeoCoords.lon (UTM_inverse_series 0 y c h) = c.
Proof.
  unfold UTM_inverse_series. cbv zeta. cbn [GeoCoords.lon].
  match goal with
  | |- (?A + radians c) * 180 / PI = _ => replace A with 0 by (unfold Rdiv; ring)
  end.
  unfold radians. field. apply PI_neq0.
Qed.

(** The series is even in the easting for the latitude, odd for the
    longitude. *)
Lemma UTM_inverse_series_mirror (x y h : R) :
  GeoCoords.lat (UTM_inverse_series (- x) y 0 h)
  = GeoCoords.lat (UTM_inverse_series x y 0 h)
  /\ GeoCoords.lon (UTM_inverse_series (- x) y 0 h)
     = - GeoCoords.lon (UTM_inverse_series x y 0 h).
Proof.
  unfold UTM_inverse_series. cbv zeta. cbn [GeoCoords.lon GeoCoords.lat]. split.
  - unfold Rdiv. ring.
  - unfold radians, Rdiv. ring.
Qed.

(** X10. UTM inverse and the zone.  A point of easting 500000 comes back
    with the longitude of the central meridian of its zone,
    (zone - 1) * 6 - 180 + 3 degrees, whatever its northing; the next zone
    gives the same latitude and a longitude 6 degrees further east; the
    height is the Up coordinate. *)
Theorem X10_utm_zone (coords : ENUCoords.t) (zone : Z) (northern : bool) :
  let g := _projFromUTM coords zone northern in
  (ENUCoords.E coords = 500000 ->
   GeoCoords.lon g = IZR ((zone - 1) * 6 - 180 + 3))
  /\ GeoCoords.lon (_projFromUTM coords (zone + 1) northern) = GeoCoords.lon g + 6
  /\ GeoCoords.lat (_projFromUTM coords (zone + 1) northern) = GeoCoords.lat g
  /\ GeoCoords.hgt g = ENUCoords.U coords.
Proof.
  cbv zeta. unfold _projFromUTM, ENUCoords_getX, ENUCoords_getY, ENUCoords_getZ.
  set (y := if negb northern then ENUCoords.N coords - 10000000
            else ENUCoords.N coords).
  set (x := ENUCoords.E coords - 500000).
  split; [| split; [| split]].
  - intros HE. unfold x. rewrite HE, Rminus_diag. apply UTM_inverse_series_axis.
  - destruct (UTM_inverse_series_shift x y
                (IZR ((zone + 1 - 1) * 6 - 180 + 3)) (ENUCoords.U coords))
      as (-> & _ & _).
    destruct (UTM_inverse_series_shift x y
                (IZR ((zone - 1) * 6 - 180 + 3)) (ENUCoords.U coords))
      as (-> & _ & _).
    replace ((zone + 1 - 1) * 6 - 180 + 3)%Z with ((zone - 1) * 6 - 180 + 3 + 6)%Z
      by lia.
    rewrite plus_IZR. ring.
  - destruct (UTM_inverse_series_shift x y
                (IZR ((zone + 1 - 1) * 6 - 180 + 3)) (ENUCoords.U coords))
      as (_ & -> & _).
    destruct (UTM_inverse_series_shift x y
                (IZR ((zone - 1) * 6 - 180 + 3)) (ENUCoords.U coords))
      as (_ & -> & _).
    reflexivity.
  - apply UTM_inverse_series_shift.
Qed.

Lemma X10_witness :
  GeoCoords.lon (_projFromUTM (ENUCoords.new 500000 4649776 0) 31 true) = 3.
Proof.
  apply (X10_utm_zone (ENUCoords.new 500000 4649776 0) 31 true). reflexivity.
Defined.

(** X11. UTM inverse, symmetries.  Two points of the same northing at the
    same distance east and west of the false easting 500000 come back with
    the same latitude and with longitudes symmetric about the central
    meridian; and a southern point of northing N + 10,000,000 comes back as
    the northern point of northing N does, through _projFromUTM and through
    _unproj with the SRID 32700 + zone and 32600 + zone. *)
Theorem X11_utm_symmetries (x N U : R) (zone : Z) (northern : bool) :
  let east := _projFromUTM (ENUCoords.new (500000 + x) N U) zone northern in
  let west := _projFromUTM (ENUCoords.new (500000 - x) N U) zone northern in
  let c := IZR ((zone - 1) * 6 - 180 + 3) in
  GeoCoords.lat west = GeoCoords.lat east
  /\ GeoCoords.lon west - c = - (GeoCoords.lon east - c)
  /\ _projFromUTM (ENUCoords.new x (N + 10000000) U) zone false
     = _projFromUTM (ENUCoords.new x N U) zone true
  /\ ((0 <= zone <= 99)%Z ->
      _unproj (ENUCoords.new x (N + 10000000) U) (32700 + zone)
      = _unproj (ENUCoords.new x N U) (32600 + zone)).
Proof.
  cbv zeta.
  assert (Hhemi : _projFromUTM (ENUCoords.new x (N + 10000000) U) zone false
                  = _projFromUTM (ENUCoords.new x N U) zone true).
  { unfold _projFromUTM, ENUCoords_getX, ENUCoords_getY, ENUCoords_getZ.
    cbn [negb ENUCoords.E ENUCoords.N ENUCoords.U].
    replace (N + 10000000 - 10000000) with N by ring. reflexivity. }
  unfold _projFromUTM at 1 2 3 4, ENUCoords_getX, ENUCoords_getY, ENUCoords_getZ.
  cbn [ENUCoords.E ENUCoords.N ENUCoords.U].
  set (y := if negb northern then N - 10000000 else N).
  set (c := IZR ((zone - 1) * 6 - 180 + 3)).
  replace (500000 + x - 500000) with x by ring.
  replace (500000 - x - 500000) with (- x) by ring.
  destruct (UTM_inverse_series_shift x y c U) as (Hl1 & Hf1 & _).
  destruct (UTM_inverse_series_shift (- x) y c U) as (Hl2 & Hf2 & _).
  destruct (UTM_inverse_series_mirror x y U) as (Hf & Hl).
  split; [| split; [| split]].
  - rewrite Hf1, Hf2. exact Hf.
  - rewrite Hl1, Hl2, Hl. ring.
  - exact Hhemi.
  - intros Hz. unfold _unproj.
    replace (32700 + zone =? 2154)%Z with false by (symmetry; apply Z.eqb_neq; lia).
    replace (32600 + zone =? 2154)%Z with false by (symmetry; apply Z.eqb_neq; lia).
    replace ((32700 + zone >=? 32600) && (32700 + zone <=? 32799))%Z with true
      by (symmetry; apply andb_true_iff; split; lia).
    replace ((32600 + zone >=? 32600) && (32600 + zone <=? 32799))%Z with true
      by (symmetry; apply andb_true_iff; split; lia).
    cbv zeta.
    replace (32700 + zone <? 32700)%Z with false by (symmetry; apply Z.ltb_ge; lia).
    replace (32600 + zone <? 32700)%Z with true by (symmetry; apply Z.ltb_lt; lia).
    replace ((32700 + zone - 32600) mod 100)%Z with zone.
    2:{ replace (32700 + zone - 32600)%Z with (zone + 1 * 100)%Z by lia.
        rewrite Z_mod_plus_full. symmetry. apply Z.mod_small. lia. }
    replace ((32600 + zone - 32600) mod 100)%Z with zone.
    2:{ replace (32600 + zone - 32600)%Z with zone by lia.
        symmetry. apply Z.mod_small. lia. }
    f_equal. exact Hhemi.
Qed.

Lemma X11_witness :
  _unproj (ENUCoords.new 500000 (0 + 10000000) 0) (32700 + 31)
  = _unproj (ENUCoords.new 500000 0 0) (32600 + 31).
Proof. apply (X11_utm_symmetries 500000 0 0 31 true). lia. Defined.

(** ** Lambert 93: forward, then inverse *)

(** A function whose derivative is bounded by [K] is [K]-Lipschitz. *)
Lemma lipschitz_of_derivative (f f' : R -> R) (K : R) :
  (forall c, derivable_pt_lim f c (f' c)) ->
  (forall c, Rabs (f' c) <= K) ->
  forall x y, Rabs (f x - f y) <= K * Rabs (x - y).
Proof.
  intros Hd Hb.
  assert (Hlt : forall a b, a < b -> Rabs (f b - f a) <= K * Rabs (b - a)).
  { intros a b Hab.
    destruct (MVT_cor2 f f' a b Hab (fun c _ => Hd c)) as (c & Hc & _).
    rewrite Hc, Rabs_mult. apply Rmult_le_compat_r; [apply Rabs_pos | apply Hb]. }
  intros x y. destruct (Rtotal_order x y) as [H | [H | H]].
  - rewrite (Rabs_minus_sym (f x)), (Rabs_minus_sym x). now apply Hlt.
  - subst y. rewrite !Rminus_diag, Rabs_R0. lra.
  - now apply Hlt.
Qed.

Lemma sin_lipschitz (x y : R) : Rabs (sin x - sin y) <= Rabs (x - y).
Proof.
  rewrite <- (Rmult_1_l (Rabs (x - y))).
  apply (lipschitz_of_derivative sin cos 1).
  - apply derivable_pt_lim_sin.
  - intros c. apply Rabs_le. pose proof (COS_bound c). lra.
Qed.

(** u |-> atan (exp u) has a derivative of at most 1/2. *)
Lemma atan_exp_lipschitz (u v : R) :
  Rabs (atan (exp u) - atan (exp v)) <= / 2 * Rabs (u - v).
Proof.
  apply (lipschitz_of_derivative (comp atan exp)
           (fun c => / (1 + exp c ^ 2) * exp c) (/ 2)).
  - intros c. apply derivable_pt_lim_comp.
    + apply derivable_pt_lim_exp.
    + apply derivable_pt_lim_atan.
  - intros c. pose proof (exp_pos c) as He.
    assert (Hden : 0 < 1 + exp c ^ 2) by nra.
    rewrite Rabs_pos_eq.
    + apply Rmult_le_reg_l with (1 + exp c ^ 2); [exact Hden |].
      rewrite <- Rmult_assoc, Rinv_r by lra.
      pose proof (Rle_0_sqr (exp c - 1)) as Hsq. unfold Rsqr in Hsq. lra.
    + apply Rmult_le_pos; [apply Rlt_le, Rinv_0_lt_compat; exact Hden | lra].
Qed.

Lemma ln_le_minus_1 (x : R) : 1 <= x -> ln x <= x - 1.
Proof.
  intros [Hx | <-]; [| rewrite ln_1; lra].
  pose proof (exp_ineq1 (x - 1) ltac:(lra)) as H.
  replace (1 + (x - 1)) with x in H by ring.
  apply Rlt_le. rewrite <- (ln_exp (x - 1)). apply ln_increasing; lra.
Qed.

(** ln is Lipschitz away from 0. *)
Lemma ln_lipschitz (m a b : R) :
  0 < m -> m <= a -> m <= b -> Rabs (ln a - ln b) <= / m * Rabs (a - b).
Proof.
  intros Hm.
  assert (Hle : forall a b, m <= a -> a <= b -> Rabs (ln b - ln a) <= / m * Rabs (b - a)).
  { clear a b. intros a b Ha Hab.
    assert (Hq : 1 <= b / a).
    { apply Rmult_le_reg_r with a; [lra |]. unfold Rdiv.
      rewrite Rmult_assoc, Rinv_l by lra. lra. }
    assert (Hge : ln a <= ln b).
    { destruct Hab as [Hab | ->]; [apply Rlt_le, ln_increasing; lra | lra]. }
    rewrite !Rabs_pos_eq by lra.
    replace (ln b - ln a) with (ln (b / a))
      by (unfold Rdiv; rewrite ln_mult, ln_Rinv by (try apply Rinv_0_lt_compat; lra); ring).
    eapply Rle_trans; [apply ln_le_minus_1; exact Hq |].
    replace (b / a - 1) with (/ a * (b - a)) by (field; lra).
    apply Rmult_le_compat_r; [lra |]. apply Rinv_le_contravar; lra. }
  intros Ha Hb. destruct (Rle_lt_dec a b) as [H | H].
  - rewrite (Rabs_minus_sym (ln a)), (Rabs_minus_sym a). now apply Hle.
  - apply Hle; lra.
Qed.

(** The refinement step, with the power written as an exponential. *)
Lemma Lambert93_refine_exp (E L x : R) :
  0 < E < 1 ->
  Lambert93_refine E L x
  = 2 * atan (exp (E / 2 * (ln (1 + E * sin x) - ln (1 - E * sin x)) + L)) - PI / 2.
Proof.
  intros HE. unfold Lambert93_refine. cbv zeta. do 3 f_equal.
  pose proof (SIN_bound x) as Hs.
  assert (H1 : 0 < 1 + E * sin x) by nra.
  assert (H2 : 0 < 1 - E * sin x) by nra.
  unfold Rpower. rewrite <- exp_plus. f_equal.
  unfold Rdiv at 2. rewrite ln_mult, ln_Rinv by (try apply Rinv_0_lt_compat; lra).
  ring.
Qed.

(** The refinement step is a contraction of ratio E^2 / (1 - E). *)
Lemma Lambert93_refine_contraction (E L x y : R) :
  0 < E < 1 ->
  Rabs (Lambert93_refine E L x - Lambert93_refine E L y)
  <= E * E / (1 - E) * Rabs (x - y).
Proof.
  intros HE. rewrite !Lambert93_refine_exp by assumption.
  set (u := fun t => E / 2 * (ln (1 + E * sin t) - ln (1 - E * sin t)) + L).
  fold (u x) (u y).
  replace (2 * atan (exp (u x)) - PI / 2 - (2 * atan (exp (u y)) - PI / 2))
    with (2 * (atan (exp (u x)) - atan (exp (u y)))) by ring.
  rewrite Rabs_mult, (Rabs_pos_eq 2) by lra.
  pose proof (atan_exp_lipschitz (u x) (u y)) as Hat.
  apply Rle_trans with (Rabs (u x - u y)); [lra |].
  pose proof (SIN_bound x) as Hsx. pose proof (SIN_bound y) as Hsy.
  assert (Hm : 0 < 1 - E) by lra.
  pose proof (ln_lipschitz (1 - E) (1 + E * sin x) (1 + E * sin y) Hm
                ltac:(nra) ltac:(nra)) as Hp.
  pose proof (ln_lipschitz (1 - E) (1 - E * sin x) (1 - E * sin y) Hm
                ltac:(nra) ltac:(nra)) as Hq.
  replace (1 + E * sin x - (1 + E * sin y)) with (E * (sin x - sin y)) in Hp by ring.
  replace (1 - E * sin x - (1 - E * sin y)) with (- E * (sin x - sin y)) in Hq by ring.
  rewrite Rabs_mult in Hp, Hq. rewrite Rabs_Ropp in Hq.
  rewrite (Rabs_pos_eq E) in Hp, Hq by lra.
  pose proof (sin_lipschitz x y) as Hsin.
  set (d := Rabs (sin x - sin y)) in *.
  set (P := ln (1 + E * sin x) - ln (1 + E * sin y)) in *.
  set (Q := ln (1 - E * sin x) - ln (1 - E * sin y)) in *.
  replace (u x - u y) with (E / 2 * (P - Q)) by (unfold u, P, Q; ring).
  rewrite Rabs_mult, (Rabs_pos_eq (E / 2)) by lra.
  pose proof (Rabs_triang P (- Q)) as Htri. rewrite Rabs_Ropp in Htri.
  replace (P + - Q) with (P - Q) in Htri by ring.
  assert (Hinv : 0 < / (1 - E)) by now apply Rinv_0_lt_compat.
  assert (Hd : 0 <= d) by apply Rabs_pos.
  apply Rle_trans with (E / 2 * (2 * (/ (1 - E) * (E * d)))).
  - apply Rmult_le_compat_l; lra.
  - replace (E / 2 * (2 * (/ (1 - E) * (E * d)))) with (E * E / (1 - E) * d)
      by (field; lra).
    apply Rmult_le_compat_l; [| exact Hsin].
    apply Rlt_le, Rdiv_lt_0_compat; nra.
Qed.

(** Ten steps bring any start ten times closer to a fixed point. *)
Lemma iter_contraction (f : R -> R) (k fix_ : R) (n : nat) (a : R) :
  0 <= k ->
  (forall x y, Rabs (f x - f y) <= k * Rabs (x - y)) ->
  f fix_ = fix_ ->
  Rabs (Nat.iter n f a - fix_) <= k ^ n * Rabs (a - fix_).
Proof.
  intros Hk Hf Hfix. induction n as [| n IH]; simpl.
  - lra.
  - rewrite <- Hfix at 1.
    eapply Rle_trans; [apply Hf |].
    rewrite Rmult_assoc. apply Rmult_le_compat_l; assumption.
Qed.

Lemma Lambert93_latiso_arg_pos (phi : R) :
  - (PI / 2) < phi < PI / 2 ->
  let E := 0.08181919106 in
  0 < tan (PI / 4 + phi / 2) * Rpower ((1 - E * sin phi) / (1 + E * sin phi)) (E / 2).
Proof.
  intros Hphi E. apply Rmult_lt_0_compat.
  - apply tan_gt_0; lra.
  - unfold Rpower. apply exp_pos.
Qed.

(** The forward projection has a result at every latitude strictly between
    the poles. *)
Lemma _projToLambert93_value (g : GeoCoords.t) :
  -90 < GeoCoords.lat g < 90 ->
  let n := 0.725607765053267 in
  let C := 11754255.4260960 in
  let lambda0 := 0.0523598775598299 in
  let lon := GeoCoords.lon g * PI / 180.0 in
  let L := Lambert93_latiso (GeoCoords.lat g * PI / 180.0) in
  _projToLambert93 g
  = Ok (ENUCoords.new
          (700000.000 + C * exp (- n * L) * sin (n * (lon - lambda0)))
          (12655612.050 - C * exp (- n * L) * cos (n * (lon - lambda0)))
          (GeoCoords.hgt g)).
Proof.
  intros Hlat. cbv zeta.
  pose proof (Lambert93_latiso_arg_pos _ (latitude_radians _ Hlat)) as Hpos.
  cbv zeta in Hpos.
  unfold _projToLambert93, GeoCoords_getX, GeoCoords_getY, GeoCoords_getZ. cbv zeta.
  destruct (Rle_dec _ 0) as [Hneg | _]; [lra | reflexivity].
Qed.

(** The geodetic latitude is a fixed point of the refinement step taken at
    its own isometric latitude. *)
Lemma Lambert93_refine_fixed_point (phi : R) :
  - (PI / 2) < phi < PI / 2 ->
  Lambert93_refine 0.08181919106 (Lambert93_latiso phi) phi = phi.
Proof.
  intros Hphi. unfold Lambert93_refine, Lambert93_latiso. cbv zeta.
  pose proof (Lambert93_latiso_arg_pos phi Hphi) as Hpos. cbv zeta in Hpos.
  rewrite exp_ln by exact Hpos.
  set (E := 0.08181919106) in *.
  pose proof (SIN_bound phi) as Hs.
  assert (H1 : 0 < 1 + E * sin phi) by (unfold E; nra).
  assert (H2 : 0 < 1 - E * sin phi) by (unfold E; nra).
  replace (Rpower ((1 + E * sin phi) / (1 - E * sin phi)) (E / 2)
           * (tan (PI / 4 + phi / 2)
              * Rpower ((1 - E * sin phi) / (1 + E * sin phi)) (E / 2)))
    with (tan (PI / 4 + phi / 2)).
  - rewrite atan_tan by lra. lra.
  - unfold Rpower.
    replace (ln ((1 - E * sin phi) / (1 + E * sin phi)))
      with (- ln ((1 + E * sin phi) / (1 - E * sin phi))).
    + rewrite Rmult_comm, Rmult_assoc, <- exp_plus.
      replace (E / 2 * - ln ((1 + E * sin phi) / (1 - E * sin phi))
               + E / 2 * ln ((1 + E * sin phi) / (1 - E * sin phi))) with 0 by ring.
      rewrite exp_0. ring.
    + rewrite <- ln_Rinv by (apply Rdiv_lt_0_compat; assumption).
      f_equal. field. split; lra.
Qed.

(** X12. Lambert 93 round trip.  For a geodetic point of latitude strictly
    between -90 and 90 degrees whose longitude is less than a quarter turn
    of the cone away from the central meridian
    (|n (lon pi/180 - lambda0)| < pi/2, about 124 degrees either side of
    3 E), the forward projection has a result, the inverse projection of
    that result has one too, and it gives back the longitude and the height
    exactly and the latitude within 1e-15 degree. *)
Theorem X12_lambert93_roundtrip (g : GeoCoords.t) :
  -90 < GeoCoords.lat g < 90 ->
  Rabs (0.725607765053267 * (GeoCoords.lon g * PI / 180.0 - 0.0523598775598299))
  < PI / 2 ->
  exists enu g',
    _proj g 2154 = Ok enu
    /\ _unproj enu 2154 = Ok g'
    /\ GeoCoords.lon g' = GeoCoords.lon g
    /\ GeoCoords.hgt g' = GeoCoords.hgt g
    /\ Rabs (GeoCoords.lat g' - GeoCoords.lat g) <= 1e-15.
Proof.
  intros Hlat Hlon.
  pose proof (_projToLambert93_value g Hlat) as Hfwd. cbv zeta in Hfwd.
  pose proof (latitude_radians _ Hlat) as Hphi.
  pose proof (Lambert93_refine_fixed_point _ Hphi) as Hfix.
  set (phi := GeoCoords.lat g * PI / 180.0) in *.
  set (L := Lambert93_latiso phi) in *.
  set (n := 0.725607765053267) in *.
  set (C := 11754255.4260960) in *.
  set (lambda0 := 0.0523598775598299) in *.
  set (lam := GeoCoords.lon g * PI / 180.0) in *.
  set (a := n * (lam - lambda0)) in *.
  set (r := C * exp (- n * L)) in *.
  assert (Hr : 0 < r) by (apply Rmult_lt_0_compat; [unfold C; lra | apply exp_pos]).
  assert (Hcos : 0 < cos a) by (apply cos_gt_0; apply Rabs_def2 in Hlon; lra).
  exists (ENUCoords.new (700000.000 + r * sin a) (12655612.050 - r * cos a)
                         (GeoCoords.hgt g)).
  eexists.
  split; [exact Hfwd |].
  unfold _unproj. cbn [Z.eqb Pos.eqb].
  unfold __projFromLambert93, ENUCoords_getX, ENUCoords_getY, ENUCoords_getZ.
  cbn [ENUCoords.E ENUCoords.N ENUCoords.U].
  replace (700000.000 + r * sin a - 700000.000) with (r * sin a) by ring.
  replace (12655612.050 - r * cos a - 12655612.050) with (- (r * cos a)) by ring.
  assert (Hrc : 0 < r * cos a) by (apply Rmult_lt_0_compat; assumption).
  destruct (Req_dec_T (- (r * cos a)) 0) as [Hz | _]; [lra |].
  split; [reflexivity |].
  cbn [GeoCoords.lon GeoCoords.lat GeoCoords.hgt].
  assert (Hn : 0 < n) by (unfold n; lra).
  split; [| split; [reflexivity |]].
  - (* longitude *)
    replace (- (r * sin a) / - (r * cos a)) with (tan a)
      by (unfold tan; field; split; lra).
    rewrite atan_tan by (apply Rabs_def2 in Hlon; lra).
    unfold a, lam. replace 180.0 with 180 by lra. fold n lambda0.
    field. split; first [apply PI_neq0 | unfold n; lra].
  - (* latitude *)
    replace ((r * sin a) ^ 2 + (- (r * cos a)) ^ 2)
      with (r ^ 2 * (sin a * sin a + cos a * cos a)) by ring.
    rewrite trig_unit, Rmult_1_r, sqrt_pow2 by lra.
    fold C n.
    replace (r / C) with (exp (- n * L)) by (unfold r; field; unfold C; lra).
    rewrite ln_exp.
    replace (- (- n * L) / n) with L by (field; lra).
    unfold range. rewrite fold_left_const_iter.
    set (E := 0.08181919106) in *.
    set (phi0 := 2 * atan (exp L) - PI / 2).
    set (k := E * E / (1 - E)).
    assert (Hk : 0 <= k <= / 100).
    { unfold k, E. split.
      - apply Rlt_le, Rdiv_lt_0_compat; lra.
      - apply Rmult_le_reg_r with (1 - 0.08181919106); [lra |].
        unfold Rdiv. rewrite Rmult_assoc, Rinv_l by lra. lra. }
    pose proof (iter_contraction (Lambert93_refine E L) k phi 10 phi0
                  (proj1 Hk)
                  (fun x y => Lambert93_refine_contraction E L x y
                                ltac:(unfold E; lra))
                  Hfix) as Hiter.
    assert (Hphi0 : Rabs (phi0 - phi) <= PI).
    { pose proof (atan_bound (exp L)) as Hb.
      pose proof (atan_increasing 0 (exp L) (exp_pos L)) as Hinc.
      rewrite atan_0 in Hinc. unfold phi0. apply Rabs_le. lra. }
    assert (Hpow : k ^ 10 <= (/ 100) ^ 10) by (apply pow_incr; exact Hk).
    assert (Hk10 : 0 <= k ^ 10) by (apply pow_le; lra).
    pose proof PI_RGT_0 as HPI.
    assert (Hrad : Rabs (Nat.iter 10 (Lambert93_refine E L) phi0 - phi)
                   <= (/ 100) ^ 10 * PI).
    { eapply Rle_trans; [exact Hiter |].
      apply Rle_trans with (k ^ 10 * PI).
      - apply Rmult_le_compat_l; assumption.
      - apply Rmult_le_compat_r; lra. }
    set (it := Nat.iter 10 (Lambert93_refine E L) phi0) in *.
    replace (it * 180 / PI - GeoCoords.lat g) with ((it - phi) * (180 / PI))
      by (unfold phi; replace 180.0 with 180 by lra; field; apply PI_neq0).
    rewrite Rabs_mult, (Rabs_pos_eq (180 / PI))
      by (apply Rlt_le, Rdiv_lt_0_compat; lra).
    apply Rle_trans with ((/ 100) ^ 10 * PI * (180 / PI)).
    + apply Rmult_le_compat_r; [apply Rlt_le, Rdiv_lt_0_compat; lra | exact Hrad].
    + replace ((/ 100) ^ 10 * PI * (180 / PI)) with ((/ 100) ^ 10 * 180)
        by (field; apply PI_neq0).
      lra.
Qed.

Lemma X12_witness :
  exists enu g',
    _proj (GeoCoords.new 2.3522 48.8566 0) 2154 = Ok enu
    /\ _unproj enu 2154 = Ok g'
    /\ GeoCoords.lon g' = 2.3522
    /\ GeoCoords.hgt g' = 0
    /\ Rabs (GeoCoords.lat g' - 48.8566) <= 1e-15.
Proof.
  apply (X12_lambert93_roundtrip (GeoCoords.new 2.3522 48.8566 0)).
  - cbn. lra.
  - cbn. pose proof PI_4. pose proof PI2_3_2. apply Rabs_def1; lra.
Defined.

(** ** The in-place methods *)

(** What rotate, scale and translate leave in their receiver, every other
    object of the store being left alone. *)
Lemma ENUCoords_rotate_run (h t : heap) (c : ENUCoords.t) (theta : R) :
  ENUCoords_rotate_m (List.length h) theta (h ++ ENU c :: t)
  = Ok (tt, h ++ ENU (ENUCoords.new
                        (cos theta * ENUCoords.E c - sin theta * ENUCoords.N c)
                        (sin theta * ENUCoords.E c + cos theta * ENUCoords.N c)
                        (ENUCoords.U c)) :: t).
Proof.
  unfold ENUCoords_rotate_m. cbv zeta.
  rewrite (bind_run _ _ _ _ _ (load_enu_run _ _ _ (nth_error_last h _ t))).
  rewrite (bind_run _ _ _ _ _ (proj1 (set_last_enu h t _ _))).
  now rewrite (proj1 (proj2 (set_last_enu h t _ _))).
Qed.

Lemma ENUCoords_scale_run (h t : heap) (c : ENUCoords.t) (k : R) :
  ENUCoords_scale_m (List.length h) k (h ++ ENU c :: t)
  = Ok (tt, h ++ ENU (ENUCoords.new (ENUCoords.E c * k) (ENUCoords.N c * k)
                                     (ENUCoords.U c)) :: t).
Proof.
  unfold ENUCoords_scale_m.
  rewrite (bind_run _ _ _ _ _ (load_enu_run _ _ _ (nth_error_last h _ t))).
  rewrite (bind_run _ _ _ _ _ (proj1 (set_last_enu h t _ _))).
  rewrite (bind_run _ _ _ _ _ (load_enu_run _ _ _ (nth_error_last h _ t))).
  now rewrite (proj1 (proj2 (set_last_enu h t _ _))).
Qed.

Lemma ENUCoords_translate_run (h t : heap) (c : ENUCoords.t) (tx ty tz : R) :
  ENUCoords_translate_m (List.length h) tx ty tz (h ++ ENU c :: t)
  = Ok (tt, h ++ ENU (ENUCoords.new (ENUCoords.E c + tx) (ENUCoords.N c + ty)
                                     (ENUCoords.U c + tz)) :: t).
Proof.
  unfold ENUCoords_translate_m.
  rewrite (bind_run _ _ _ _ _ (load_enu_run _ _ _ (nth_error_last h _ t))).
  rewrite (bind_run _ _ _ _ _ (proj1 (set_last_enu h t _ _))).
  rewrite (bind_run _ _ _ _ _ (load_enu_run _ _ _ (nth_error_last h _ t))).
  rewrite (bind_run _ _ _ _ _ (proj1 (proj2 (set_last_enu h t _ _)))).
  rewrite (bind_run _ _ _ _ _ (load_enu_run _ _ _ (nth_error_last h _ t))).
  now rewrite (proj2 (proj2 (set_last_enu h t _ _))).
Qed.

(** X13. ENUCoords.rotate overwrites the East and North of its receiver and
    nothing else in the store; it keeps Up, the planar norm and the norm;
    rotating by theta and then by theta' is rotating by theta + theta', and
    rotating by 0 changes nothing. *)
Theorem X13_rotate (h t : heap) (c : ENUCoords.t) (theta theta' : R) :
  let self := List.length h in
  let s := h ++ ENU c :: t in
  (exists c',
      ENUCoords_rotate_m self theta s = Ok (tt, h ++ ENU c' :: t)
      /\ ENUCoords.U c' = ENUCoords.U c
      /\ ENUCoords_norm2D c' = ENUCoords_norm2D c
      /\ ENUCoords_norm c' = ENUCoords_norm c)
  /\ (ENUCoords_rotate_m self theta ;;; ENUCoords_rotate_m self theta') s
     = ENUCoords_rotate_m self (theta + theta') s
  /\ ENUCoords_rotate_m self 0 s = Ok (tt, s).
Proof.
  cbv zeta. pose proof (trig_unit theta) as Ht. split; [| split].
  - eexists. split; [apply ENUCoords_rotate_run |].
    unfold ENUCoords_norm2D, ENUCoords_norm.
    cbn [ENUCoords.E ENUCoords.N ENUCoords.U].
    assert (Hsq : (cos theta * ENUCoords.E c - sin theta * ENUCoords.N c) ^ 2
                  + (sin theta * ENUCoords.E c + cos theta * ENUCoords.N c) ^ 2
                  = ENUCoords.E c ^ 2 + ENUCoords.N c ^ 2).
    { transitivity ((ENUCoords.E c ^ 2 + ENUCoords.N c ^ 2)
                    * (sin theta * sin theta + cos theta * cos theta));
        [ring | rewrite Ht; ring]. }
    split; [reflexivity |]. now rewrite Hsq.
  - rewrite (bind_run _ _ _ _ _ (ENUCoords_rotate_run h t c theta)).
    rewrite !ENUCoords_rotate_run. apply (f_equal (fun x => Ok (tt, h ++ ENU x :: t))).
    apply ENUCoords_ext; cbn [ENUCoords.E ENUCoords.N ENUCoords.U];
      rewrite ?cos_plus, ?sin_plus; ring.
  - rewrite ENUCoords_rotate_run, sin_0, cos_0. apply (f_equal (fun x => Ok (tt, h ++ ENU x :: t))).
    apply ENUCoords_ext; cbn [ENUCoords.E ENUCoords.N ENUCoords.U]; ring.
Qed.

(** X14. ENUCoords.translate and ENUCoords.scale overwrite their receiver
    and nothing else.  translate adds the vector; translating by a vector
    and then by its opposite restores the store.  scale multiplies East and
    North, leaves Up alone, and multiplies the planar norm by |h|; scaling
    by h and then by h' is scaling by h h'. *)
Theorem X14_translate_scale (h t : heap) (c : ENUCoords.t) (tx ty tz k k' : R) :
  let self := List.length h in
  let s := h ++ ENU c :: t in
  ENUCoords_translate_m self tx ty tz s
  = Ok (tt, h ++ ENU (ENUCoords.new (ENUCoords.E c + tx) (ENUCoords.N c + ty)
                                     (ENUCoords.U c + tz)) :: t)
  /\ (ENUCoords_translate_m self tx ty tz ;;;
      ENUCoords_translate_m self (- tx) (- ty) (- tz)) s = Ok (tt, s)
  /\ (exists c',
         ENUCoords_scale_m self k s = Ok (tt, h ++ ENU c' :: t)
         /\ ENUCoords.U c' = ENUCoords.U c
         /\ ENUCoords_norm2D c' = Rabs k * ENUCoords_norm2D c)
  /\ (ENUCoords_scale_m self k ;;; ENUCoords_scale_m self k') s
     = ENUCoords_scale_m self (k * k') s.
Proof.
  cbv zeta. split; [apply ENUCoords_translate_run | split; [| split]].
  - rewrite (bind_run _ _ _ _ _ (ENUCoords_translate_run h t c tx ty tz)).
    rewrite ENUCoords_translate_run. apply (f_equal (fun x => Ok (tt, h ++ ENU x :: t))).
    apply ENUCoords_ext; cbn [ENUCoords.E ENUCoords.N ENUCoords.U]; ring.
  - eexists. split; [apply ENUCoords_scale_run |].
    split; [reflexivity |].
    unfold ENUCoords_norm2D. cbn [ENUCoords.E ENUCoords.N].
    rewrite <- sqrt_Rsqr_abs, <- sqrt_mult by (try apply Rle_0_sqr; nra).
    f_equal. unfold Rsqr. ring.
  - rewrite (bind_run _ _ _ _ _ (ENUCoords_scale_run h t c k)).
    rewrite !ENUCoords_scale_run. apply (f_equal (fun x => Ok (tt, h ++ ENU x :: t))).
    apply ENUCoords_ext; cbn [ENUCoords.E ENUCoords.N ENUCoords.U]; ring.
Qed.

(** X15. ECEFCoords.scalar overwrites X, Y and Z of its receiver and nothing
    else, and returns nothing; it multiplies the norm by |factor|; scaling
    by f and then by f' is scaling by f f', and scaling by 1 changes nothing. *)
Theorem X15_scalar (h t : heap) (c : ECEFCoords.t) (f f' : R) :
  let self := List.length h in
  let s := h ++ ECEF c :: t in
  (exists c',
      ECEFCoords_scalar_m self f s = Ok (tt, h ++ ECEF c' :: t)
      /\ ECEFCoords_norm c' = Rabs f * ECEFCoords_norm c)
  /\ (ECEFCoords_scalar_m self f ;;; ECEFCoords_scalar_m self f') s
     = ECEFCoords_scalar_m self (f * f') s
  /\ ECEFCoords_scalar_m self 1 s = Ok (tt, s).
Proof.
  cbv zeta. split; [| split].
  - eexists. split; [apply ECEFCoords_scalar_run |].
    unfold ECEFCoords_norm, ECEFCoords_dot.
    cbn [ECEFCoords.X ECEFCoords.Y ECEFCoords.Z].
    rewrite <- sqrt_Rsqr_abs, <- sqrt_mult by (try apply Rle_0_sqr; nra).
    f_equal. unfold Rsqr. ring.
  - rewrite (bind_run _ _ _ _ _ (ECEFCoords_scalar_run h t c f)).
    rewrite !ECEFCoords_scalar_run. apply (f_equal (fun x => Ok (tt, h ++ ECEF x :: t))).
    apply ECEFCoords_ext; cbn [ECEFCoords.X ECEFCoords.Y ECEFCoords.Z]; ring.
  - rewrite ECEFCoords_scalar_run. apply (f_equal (fun x => Ok (tt, h ++ ECEF x :: t))).
    apply ECEFCoords_ext; cbn [ECEFCoords.X ECEFCoords.Y ECEFCoords.Z]; ring.
Qed.

(** ** makeCoords on the recognized kinds *)

Lemma upper_lower_char_id (a : ascii) : upper_char (lower_char a) = upper_char a.
Proof. destruct a as [[] [] [] [] [] [] [] []]; reflexivity. Qed.

Lemma eq_nocase_upper (s t : string) : eq_nocase s t = true -> upper s = upper t.
Proof.
  revert t. induction s as [| a s IH]; intros [| b t] H; cbn in H;
    try discriminate; [reflexivity |].
  apply andb_true_iff in H as [Hc Hs]. apply Ascii.eqb_eq in Hc.
  cbn [upper]. f_equal.
  - now rewrite <- (upper_lower_char_id a), Hc, upper_lower_char_id.
  - now apply IH.
Qed.

(** For a token in capitals, matching it letter case apart is having it as
    upper-case form. *)
Lemma eqb_upper_eq_nocase (s t : string) :
  upper t = t -> String.eqb (upper s) t = eq_nocase s t.
Proof.
  intros Ht. destruct (eq_nocase s t) eqn:H.
  - apply String.eqb_eq. rewrite <- Ht. now apply eq_nocase_upper.
  - apply String.eqb_neq. intros Hu. apply upper_eq_nocase in Hu. congruence.
Qed.

(** X16. makeCoords, completely: a kind that is ENUCOORDS or ENU, letter
    case apart, gives ENUCoords(x, y, z); otherwise GEOCOORDS or GEO gives
    GeoCoords(x, y, z); otherwise ECEFCOORDS or ECEF gives
    ECEFCoords(x, y, z); any other kind gives None. *)
Theorem X16_makeCoords_by_kind (x y z : R) (srid : string) :
  makeCoords x y z srid
  = if eq_nocase srid "ENUCOORDS" || eq_nocase srid "ENU"
    then Some (ENU (ENUCoords.new x y z))
    else if eq_nocase srid "GEOCOORDS" || eq_nocase srid "GEO"
         then Some (GEO (GeoCoords.new x y z))
         else if eq_nocase srid "ECEFCOORDS" || eq_nocase srid "ECEF"
              then Some (ECEF (ECEFCoords.new x y z))
              else None.
Proof.
  unfold makeCoords, str_in. cbn [existsb].
  rewrite !eqb_upper_eq_nocase by reflexivity.
  rewrite !orb_false_r. reflexivity.
Qed.

(** ** compLike *)

Section Strings.

Open Scope string_scope.

Lemma append_nil_r (s : string) : s ++ "" = s.
Proof. induction s as [| c s IH]; cbn; [reflexivity | now rewrite IH]. Qed.

Lemma append_assoc' (a b c : string) : (a ++ b) ++ c = a ++ b ++ c.
Proof. induction a as [| x a IH]; cbn; [reflexivity | now rewrite IH]. Qed.

Lemma length_append' (a b : string) :
  String.length (a ++ b) = (String.length a + String.length b)%nat.
Proof. induction a as [| x a IH]; cbn; [reflexivity | now rewrite IH]. Qed.

Lemma prefix_spec (t s : string) :
  String.prefix t s = true <-> exists v, s = t ++ v.
Proof.
  revert s. induction t as [| c t IH]; intros s.
  - split; [intros _; now exists s | intros _; now destruct s].
  - destruct s as [| d s]; cbn;
      [split; [discriminate | intros [v Hv]; discriminate] |].
    destruct (ascii_dec c d) as [-> | Hne].
    + rewrite IH. split; intros [v Hv]; exists v; [now rewrite Hv | now injection Hv].
    + split; [discriminate |]. intros [v Hv]. injection Hv as -> _. contradiction.
Qed.

(** Two ways of cutting the same string: the shorter head is a head of the
    longer one. *)
Lemma append_eq_append (a1 b1 a2 b2 : string) :
  a1 ++ b1 = a2 ++ b2 -> (String.length a1 <= String.length a2)%nat ->
  exists w, a2 = a1 ++ w /\ b1 = w ++ b2.
Proof.
  revert a2. induction a1 as [| c a1 IH]; intros a2 H Hlen; cbn in *.
  - exists a2. split; [reflexivity | exact H].
  - destruct a2 as [| d a2]; cbn in *; [lia |].
    injection H as -> H. destruct (IH a2 H ltac:(lia)) as (w & -> & ->).
    now exists w.
Qed.

Lemma slice_from_append (u v : string) : Utils.slice_from (String.length u) (u ++ v) = v.
Proof. induction u as [| c u IH]; cbn; [now destruct v | exact IH]. Qed.

(** [find_index] gives the first place where the token starts. *)
Lemma find_index_some (s tok : string) (i : nat) :
  Utils.find_index s tok = Some i ->
  exists u v, s = u ++ tok ++ v /\ String.length u = i.
Proof.
  revert i. induction s as [| c s IH]; intros i; cbn [Utils.find_index].
  - destruct (String.prefix tok "") eqn:Hp; [| discriminate].
    intros [= <-]. apply prefix_spec in Hp as [v Hv]. now exists "", v.
  - destruct (String.prefix tok (String c s)) eqn:Hp.
    + intros [= <-]. apply prefix_spec in Hp as [v Hv]. now exists "", v.
    + destruct (Utils.find_index s tok) as [j |] eqn:Hf; [| discriminate].
      intros [= <-]. destruct (IH j eq_refl) as (u & v & -> & <-).
      now exists (String c u), v.
Qed.

Lemma find_index_first (s tok u v : string) :
  s = u ++ tok ++ v ->
  exists i, Utils.find_index s tok = Some i /\ (i <= String.length u)%nat.
Proof.
  revert u. induction s as [| c s IH]; intros u Hs; cbn [Utils.find_index].
  - destruct u; [| discriminate]. cbn in Hs.
    replace (String.prefix tok "") with true
      by (symmetry; apply prefix_spec; now exists v).
    exists O. split; [reflexivity | lia].
  - destruct (String.prefix tok (String c s)) eqn:Hp.
    + exists O. split; [reflexivity | lia].
    + destruct u as [| d u]; cbn in Hs.
      * assert (String.prefix tok (String c s) = true)
          by (apply prefix_spec; now exists v).
        congruence.
      * injection Hs as _ Hs. destruct (IH u Hs) as (i & -> & Hi).
        exists (S i). split; [reflexivity | cbn; lia].
Qed.

Lemma in_order_behind (tokens : list string) (w v : string) :
  Utils.in_order tokens v -> Utils.in_order tokens (w ++ v).
Proof.
  destruct tokens as [| tok rest]; cbn; [trivial |].
  intros (u & v' & -> & H). exists (w ++ u), v'.
  split; [now rewrite append_assoc' | exact H].
Qed.

(** The loop of compLike succeeds exactly when the tokens occur in order. *)
Lemma compLike_loop_spec (tokens : list string) (s : string) :
  Utils.compLike_loop tokens s = true <-> Utils.in_order tokens s.
Proof.
  revert s. induction tokens as [| tok rest IH]; intros s; cbn.
  - tauto.
  - unfold Utils.find. destruct (Utils.find_index s tok) as [i |] eqn:Hf.
    + replace (Z.of_nat i <? 0)%Z with false by (symmetry; apply Z.ltb_ge; lia).
      replace (Z.to_nat (Z.of_nat i + Z.of_nat (String.length tok)))
        with (i + String.length tok)%nat by lia.
      destruct (find_index_some _ _ _ Hf) as (u & v & -> & <-).
      rewrite <- length_append', <- append_assoc', slice_from_append, IH.
      split.
      * intros H. exists u, v. split; [now rewrite append_assoc' | exact H].
      * intros (u' & v' & Heq & H).
        rewrite append_assoc' in Heq.
        destruct (find_index_first _ tok u' v' Heq) as (j & Hj & Hle).
        rewrite Hf in Hj. injection Hj as <-.
        rewrite <- !append_assoc' in Heq.
        destruct (append_eq_append (u ++ tok) v (u' ++ tok) v' Heq) as (w & _ & ->).
        { rewrite !length_append'. lia. }
        now apply in_order_behind.
    + cbn. split; [discriminate |].
      intros (u & v & Heq & _).
      destruct (find_index_first _ tok u v Heq) as (j & Hj & _). congruence.
Qed.

Lemma contains_spec (s sub : string) :
  Utils.contains s sub = true <-> exists u v, s = u ++ sub ++ v.
Proof.
  unfold Utils.contains, Utils.find.
  destruct (Utils.find_index s sub) as [i |] eqn:Hf.
  - split; [intros _ | intros _; apply Z.leb_le; lia].
    destruct (find_index_some _ _ _ Hf) as (u & v & Heq & _). now exists u, v.
  - split; [discriminate |]. intros (u & v & Heq).
    destruct (find_index_first _ sub u v Heq) as (j & Hj & _). congruence.
Qed.

(** Splitting at the percent signs undoes joining with them. *)
Lemma split_percent_plain (t : string) :
  Utils.has_percent t = false -> Utils.split_percent t = [t].
Proof.
  induction t as [| c t IH]; cbn; [reflexivity |].
  intros H. apply orb_false_iff in H as [Hc Ht]. rewrite Hc, (IH Ht). reflexivity.
Qed.

Lemma split_percent_append (t s : string) :
  Utils.has_percent t = false ->
  Utils.split_percent (t ++ String "%"%char s) = t :: Utils.split_percent s.
Proof.
  induction t as [| c t IH]; cbn; [reflexivity |].
  intros H. apply orb_false_iff in H as [Hc Ht]. rewrite Hc, (IH Ht). reflexivity.
Qed.

Lemma split_percent_join (tokens : list string) :
  tokens <> [] ->
  Forall (fun t => Utils.has_percent t = false) tokens ->
  Utils.split_percent (Utils.join_percent tokens) = tokens.
Proof.
  induction tokens as [| t rest IH]; [congruence |].
  intros _ Hall. inversion Hall as [| ? ? Ht Hrest]; subst.
  destruct rest as [| t' rest].
  - cbn. now apply split_percent_plain.
  - change (Utils.join_percent (t :: t' :: rest))
      with (t ++ String "%"%char (Utils.join_percent (t' :: rest))).
    rewrite split_percent_append by exact Ht.
    f_equal. apply IH; [congruence | exact Hrest].
Qed.

End Strings.

(** X17. compLike with a pattern that has no percent sign: the answer is
    whether the first argument occurs inside the pattern (not the pattern
    inside the first argument). *)
Theorem X17_compLike_without_percent (s1 s2 : string) :
  Utils.has_percent s2 = false ->
  (Utils.compLike s1 s2 = true <-> exists u v, s2 = (u ++ s1 ++ v)%string).
Proof.
  intros H. unfold Utils.compLike. rewrite (split_percent_plain _ H).
  cbn [List.length Nat.eqb]. apply contains_spec.
Qed.

Lemma X17_witness :
  Utils.compLike "rack" "tracklib" = true
  <-> exists u v, "tracklib"%string = (u ++ "rack" ++ v)%string.
Proof. apply (X17_compLike_without_percent "rack" "tracklib"). reflexivity. Defined.

(** X18. compLike with a pattern t1%t2%...%tn, n >= 2, the tokens having no
    percent sign: the answer is whether the first argument holds t1, ...,
    tn one after the other without overlap, anywhere (the pattern is not
    anchored at either end). *)
Theorem X18_compLike_with_percent (s : string) (tokens : list string) :
  (2 <= List.length tokens)%nat ->
  Forall (fun t => Utils.has_percent t = false) tokens ->
  (Utils.compLike s (Utils.join_percent tokens) = true <-> Utils.in_order tokens s).
Proof.
  intros Hlen Hall. unfold Utils.compLike.
  assert (Hne : tokens <> []) by (destruct tokens; cbn in *; [lia | congruence]).
  rewrite (split_percent_join tokens Hne Hall).
  replace (List.length tokens =? 1)%nat with false
    by (symmetry; apply Nat.eqb_neq; lia).
  apply compLike_loop_spec.
Qed.

Lemma X18_witness :
  Utils.compLike "xabcyz" (Utils.join_percent ["abc"; ""]%string) = true
  <-> Utils.in_order ["abc"; ""]%string "xabcyz".
Proof.
  apply (X18_compLike_with_percent "xabcyz" ["abc"; ""]%string).
  - cbn. lia.
  - repeat constructor.
Defined.

(** ** priority_dict *)

Section PriorityDict.

Import Utils.
Import Utils.priority_dict.

(** *** The order of the heap entries *)

Lemma entry_le_refl (a : entry) : entry_le a a.
Proof. right. split; [reflexivity | lia]. Qed.

Lemma entry_le_trans (a b c : entry) : entry_le a b -> entry_le b c -> entry_le a c.
Proof.
  unfold entry_le. intros [H1 | [H1 H1']] [H2 | [H2 H2']].
  - left. lra.
  - left. lra.
  - left. lra.
  - right. split; [congruence | lia].
Qed.

Lemma entry_ltb_true (a b : entry) : entry_ltb a b = true -> entry_le a b.
Proof.
  unfold entry_ltb, entry_le.
  destruct (Rlt_dec (fst a) (fst b)); [now left |].
  destruct (Rlt_dec (fst b) (fst a)); [discriminate |].
  intros H. apply Z.ltb_lt in H. right. split; [lra | lia].
Qed.

Lemma entry_ltb_false (a b : entry) : entry_ltb a b = false -> entry_le b a.
Proof.
  unfold entry_ltb, entry_le.
  destruct (Rlt_dec (fst a) (fst b)); [discriminate |].
  destruct (Rlt_dec (fst b) (fst a)); [now left |].
  intros H. apply Z.ltb_ge in H. right. split; [lra | lia].
Qed.

(** *** heapq on sorted lists *)

Lemma heappush_In (heap : list entry) (x y : entry) :
  In y (heappush heap x) <-> y = x \/ In y heap.
Proof.
  induction heap as [| z heap IH]; cbn.
  - intuition congruence.
  - destruct (entry_ltb x z); cbn; [intuition congruence |].
    rewrite IH. intuition congruence.
Qed.

Lemma heappush_length (heap : list entry) (x : entry) :
  List.length (heappush heap x) = S (List.length heap).
Proof.
  induction heap as [| z heap IH]; cbn; [reflexivity |].
  destruct (entry_ltb x z); cbn; [reflexivity | now rewrite IH].
Qed.

Lemma heappush_sorted (heap : list entry) (x : entry) :
  StronglySorted entry_le heap -> StronglySorted entry_le (heappush heap x).
Proof.
  induction heap as [| z heap IH]; cbn; intros Hs.
  - constructor; [constructor | constructor].
  - inversion Hs as [| ? ? Hs' Hall]; subst.
    destruct (entry_ltb x z) eqn:Hlt.
    + constructor; [exact Hs |]. apply entry_ltb_true in Hlt.
      constructor; [exact Hlt |].
      apply Forall_forall. intros y Hy.
      apply entry_le_trans with z; [exact Hlt |].
      now apply (proj1 (Forall_forall _ _) Hall).
    + constructor; [now apply IH |].
      apply Forall_forall. intros y Hy. apply heappush_In in Hy as [-> | Hy].
      * now apply entry_ltb_false.
      * now apply (proj1 (Forall_forall _ _) Hall).
Qed.

Lemma fold_heappush_In (l acc : list entry) (y : entry) :
  In y (fold_left heappush l acc) <-> In y acc \/ In y l.
Proof.
  revert acc. induction l as [| x l IH]; intros acc; cbn.
  - tauto.
  - rewrite IH, heappush_In. intuition congruence.
Qed.

Lemma fold_heappush_sorted (l acc : list entry) :
  StronglySorted entry_le acc -> StronglySorted entry_le (fold_left heappush l acc).
Proof.
  revert acc. induction l as [| x l IH]; intros acc H; cbn; [exact H |].
  apply IH. now apply heappush_sorted.
Qed.

Lemma fold_heappush_length (l acc : list entry) :
  List.length (fold_left heappush l acc) = (List.length acc + List.length l)%nat.
Proof.
  revert acc. induction l as [| x l IH]; intros acc; cbn; [lia |].
  rewrite IH, heappush_length. lia.
Qed.

Lemma heapify_In (l : list entry) (y : entry) : In y (heapify l) <-> In y l.
Proof. unfold heapify. rewrite fold_heappush_In. cbn. tauto. Qed.

Lemma heapify_sorted (l : list entry) : StronglySorted entry_le (heapify l).
Proof. apply fold_heappush_sorted. constructor. Qed.

Lemma heapify_length (l : list entry) : List.length (heapify l) = List.length l.
Proof. unfold heapify. now rewrite fold_heappush_length. Qed.

(** *** The dict *)

Lemma get_In (d : dict) (k : key) (v : R) : get d k = Some v -> In (k, v) d.
Proof.
  induction d as [| [k' v'] d IH]; cbn; [discriminate |].
  destruct (Z.eqb_spec k k') as [-> | Hne].
  - intros [= ->]. now left.
  - intros H. right. now apply IH.
Qed.

Lemma get_None (d : dict) (k : key) : get d k = None <-> ~ In k (map fst d).
Proof.
  induction d as [| [k' v'] d IH]; cbn; [tauto |].
  destruct (Z.eqb_spec k k') as [-> | Hne].
  - split; [discriminate | intros H; exfalso; apply H; now left].
  - rewrite IH. split; [intros H [Heq | Hin]; [congruence | tauto] | tauto].
Qed.

Lemma get_dict_set (d : dict) (k k' : key) (v : R) :
  get (dict_set d k v) k' = if (k' =? k)%Z then Some v else get d k'.
Proof.
  induction d as [| [k0 v0] d IH]; cbn.
  - reflexivity.
  - destruct (Z.eqb_spec k k0) as [-> | Hne]; cbn.
    + destruct (Z.eqb_spec k' k0); reflexivity.
    + rewrite IH. destruct (Z.eqb_spec k' k0) as [-> | Hne'].
      * destruct (Z.eqb_spec k0 k); [congruence | reflexivity].
      * reflexivity.
Qed.

Lemma dict_set_keys_In (d : dict) (k k' : key) (v : R) :
  In k' (map fst (dict_set d k v)) <-> k' = k \/ In k' (map fst d).
Proof.
  induction d as [| [k0 v0] d IH]; cbn.
  - intuition congruence.
  - destruct (Z.eqb_spec k k0) as [-> | Hne]; cbn.
    + intuition congruence.
    + rewrite IH. intuition congruence.
Qed.

Lemma dict_set_NoDup (d : dict) (k : key) (v : R) :
  NoDup (map fst d) -> NoDup (map fst (dict_set d k v)).
Proof.
  induction d as [| [k0 v0] d IH]; cbn; intros H.
  - constructor; [intros [] | constructor].
  - inversion H as [| ? ? Hnin Hnd]; subst.
    destruct (Z.eqb_spec k k0) as [-> | Hne]; cbn.
    + now constructor.
    + constructor; [| now apply IH].
      rewrite dict_set_keys_In. intros [Heq | Hin]; [congruence | contradiction].
Qed.

Lemma dict_update_NoDup (pairs : list (key * R)) (d : dict) :
  NoDup (map fst d) -> NoDup (map fst (dict_update d pairs)).
Proof.
  unfold dict_update. revert d. induction pairs as [| kv pairs IH]; intros d H; cbn.
  - exact H.
  - apply IH. now apply dict_set_NoDup.
Qed.

Lemma get_dict_del (d : dict) (k k' : key) :
  NoDup (map fst d) ->
  get (dict_del d k) k' = if (k' =? k)%Z then None else get d k'.
Proof.
  induction d as [| [k0 v0] d IH]; cbn; intros H.
  - now destruct (k' =? k)%Z.
  - inversion H as [| ? ? Hnin Hnd]; subst.
    destruct (Z.eqb_spec k k0) as [-> | Hne]; cbn.
    + destruct (Z.eqb_spec k' k0) as [Heq | Hne']; [| reflexivity].
      rewrite Heq. now apply get_None.
    + rewrite (IH Hnd). destruct (Z.eqb_spec k' k0) as [-> | Hne'].
      * destruct (Z.eqb_spec k0 k); [congruence | reflexivity].
      * reflexivity.
Qed.

Lemma dict_del_keys (d : dict) (k : key) (v : R) :
  get d k = Some v -> Permutation (map fst d) (k :: map fst (dict_del d k)).
Proof.
  induction d as [| [k0 v0] d IH]; cbn; [discriminate |].
  destruct (Z.eqb_spec k k0) as [-> | Hne]; cbn.
  - intros _. apply Permutation_refl.
  - intros H. apply Permutation_trans with (k0 :: k :: map fst (dict_del d k)).
    + constructor. now apply IH.
    + apply perm_swap.
Qed.

Lemma dict_del_NoDup (d : dict) (k : key) :
  NoDup (map fst d) -> NoDup (map fst (dict_del d k)).
Proof.
  intros H. destruct (get d k) as [v |] eqn:Hg.
  - pose proof (Permutation_NoDup (dict_del_keys d k v Hg) H) as H'.
    now inversion H'.
  - replace (dict_del d k) with d; [exact H |].
    clear H. induction d as [| [k0 v0] d IH]; cbn in *; [reflexivity |].
    destruct (Z.eqb_spec k k0); [discriminate |]. f_equal. now apply IH.
Qed.

Lemma dict_del_length (d : dict) (k : key) (v : R) :
  get d k = Some v -> S (List.length (dict_del d k)) = List.length d.
Proof.
  intros H. pose proof (Permutation_length (dict_del_keys d k v H)) as Hl.
  cbn in Hl. rewrite !length_map in Hl. lia.
Qed.

(** *** The loops of smallest and pop_smallest *)

Lemma stale_false (d : dict) (x : entry) :
  stale d x = false <-> get d (snd x) = Some (fst x).
Proof.
  unfold stale. destruct (get d (snd x)) as [v' |].
  - destruct (Req_EM_T v' (fst x)) as [-> | Hne].
    + tauto.
    + split; [discriminate | intros [= Heq]; contradiction].
  - split; discriminate.
Qed.

(** Both loops drop stale entries from the front of the heap until the
    first entry that agrees with the dict; [smallest] leaves that entry in
    the heap, [pop_smallest] takes it out. *)
Lemma loops_spec (d : dict) (heap : list entry) :
  (Forall (fun x => stale d x = true) heap
   /\ smallest_loop d heap = Raise IndexError
   /\ pop_smallest_loop d heap = Raise IndexError)
  \/ (exists pre x post,
         heap = pre ++ x :: post
         /\ Forall (fun x => stale d x = true) pre
         /\ stale d x = false
         /\ smallest_loop d heap = Ok (snd x, x :: post)
         /\ pop_smallest_loop d heap = Ok (snd x, post)).
Proof.
  induction heap as [| y heap IH]; cbn.
  - left. repeat split. constructor.
  - destruct (stale d y) eqn:Hy.
    + destruct IH as [(Hall & -> & ->) | (pre & x & post & -> & Hpre & Hx & -> & ->)].
      * left. repeat split. now constructor.
      * right. exists (y :: pre), x, post. repeat split; [now constructor | exact Hx].
    + right. exists [], y, heap. repeat split; [constructor | exact Hy].
Qed.

Lemma sorted_suffix (pre post : list entry) :
  StronglySorted entry_le (pre ++ post) -> StronglySorted entry_le post.
Proof.
  induction pre as [| z pre IH]; cbn; [trivial |].
  intros H. inversion H; subst. now apply IH.
Qed.

(** Under the invariant the entry at which the loops stop is the smallest
    of the dict. *)
Lemma loops_find_minimum (self : t) (pre post : list entry) (x : entry) :
  invariant self ->
  _heap self = pre ++ x :: post ->
  Forall (fun x => stale (items self) x = true) pre ->
  forall k v, get (items self) k = Some v ->
              (v, k) = x \/ (In (v, k) post /\ entry_le x (v, k)).
Proof.
  intros (_ & Hin & Hsorted) Hheap Hpre k v Hg.
  specialize (Hin k v Hg). rewrite Hheap in Hin, Hsorted.
  apply in_app_or in Hin as [Hin | [Heq | Hin]].
  - pose proof (proj1 (Forall_forall _ _) Hpre _ Hin) as Hst.
    assert (stale (items self) (v, k) = false) by now apply stale_false.
    congruence.
  - now left.
  - right. split; [exact Hin |].
    apply sorted_suffix in Hsorted.
    inversion Hsorted as [| ? ? _ Hall]; subst.
    now apply (proj1 (Forall_forall _ _) Hall).
Qed.

Lemma nonempty_not_all_stale (self : t) :
  invariant self -> items self <> [] ->
  ~ Forall (fun x => stale (items self) x = true) (_heap self).
Proof.
  intros (_ & Hin & _) Hne Hall.
  destruct (items self) as [| [k v] d]; [congruence |].
  assert (Hg : get ((k, v) :: d) k = Some v) by (cbn; now rewrite Z.eqb_refl).
  pose proof (proj1 (Forall_forall _ _) Hall _ (Hin k v Hg)) as Hst.
  assert (stale ((k, v) :: d) (v, k) = false) by now apply stale_false.
  congruence.
Qed.

(** *** The invariant *)

Lemma invariant_rebuild (d : dict) (heap : list entry) :
  NoDup (map fst d) -> invariant (_rebuild_heap (mk d heap)).
Proof.
  intros Hnd. unfold invariant, _rebuild_heap. cbn. repeat split.
  - exact Hnd.
  - intros k v Hg. apply heapify_In.
    apply (in_map (fun kv => (snd kv, fst kv)) _ _ (get_In _ _ _ Hg)).
  - apply heapify_sorted.
Qed.

Lemma invariant_init (pairs : list (key * R)) : invariant (__init__ pairs).
Proof. apply invariant_rebuild. apply dict_update_NoDup. constructor. Qed.

Lemma invariant_setitem (self : t) (k : key) (val : R) :
  invariant self -> invariant (__setitem__ self k val).
Proof.
  intros (Hnd & Hin & Hs). unfold __setitem__.
  destruct (_ <? _)%nat.
  - unfold invariant. cbn. repeat split.
    + now apply dict_set_NoDup.
    + intros k' v'. rewrite get_dict_set, heappush_In.
      destruct (Z.eqb_spec k' k) as [-> | Hne].
      * intros [= ->]. now left.
      * intros Hg. right. now apply Hin.
    + now apply heappush_sorted.
  - apply invariant_rebuild. now apply dict_set_NoDup.
Qed.

Lemma invariant_pop (self self' : t) (k : key) :
  invariant self -> pop_smallest self = Ok (k, self') -> invariant self'.
Proof.
  intros Hinv. pose proof Hinv as (Hnd & Hin & Hs). unfold pop_smallest.
  destruct (loops_spec (items self) (_heap self))
    as [(_ & _ & ->) | (pre & x & post & Hheap & Hpre & Hx & _ & ->)]; [discriminate |].
  intros [= <- <-]. unfold invariant. cbn. repeat split.
  - now apply dict_del_NoDup.
  - intros k' v'. rewrite (get_dict_del _ _ _ Hnd).
    destruct (Z.eqb_spec k' (snd x)) as [-> | Hne]; [discriminate |].
    intros Hg.
    destruct (loops_find_minimum self pre post x Hinv Hheap Hpre k' v' Hg)
      as [<- | [H _]]; [cbn in Hne; congruence | exact H].
  - rewrite Hheap in Hs. apply sorted_suffix in Hs. now inversion Hs.
Qed.

Lemma invariant_smallest (self self' : t) (k : key) :
  invariant self -> smallest self = Ok (k, self') ->
  invariant self' /\ items self' = items self.
Proof.
  intros Hinv. pose proof Hinv as (Hnd & Hin & Hs). unfold smallest.
  destruct (loops_spec (items self) (_heap self))
    as [(_ & -> & _) | (pre & x & post & Hheap & Hpre & Hx & -> & _)]; [discriminate |].
  intros [= <- <-]. split; [| reflexivity]. unfold invariant. cbn. repeat split.
  - exact Hnd.
  - intros k' v' Hg.
    destruct (loops_find_minimum self pre post x Hinv Hheap Hpre k' v' Hg)
      as [<- | [H _]]; [now left | now right].
  - rewrite Hheap in Hs. now apply sorted_suffix in Hs.
Qed.

(** What pop_smallest returns, in full. *)
Lemma pop_smallest_spec (self : t) :
  invariant self -> items self <> [] ->
  exists k v self',
    pop_smallest self = Ok (k, self')
    /\ get (items self) k = Some v
    /\ (forall k' v', get (items self) k' = Some v' -> entry_le (v, k) (v', k'))
    /\ items self' = dict_del (items self) k.
Proof.
  intros Hinv Hne. unfold pop_smallest.
  destruct (loops_spec (items self) (_heap self))
    as [(Hall & _ & _) | (pre & x & post & Hheap & Hpre & Hx & _ & ->)].
  - exfalso. now apply (nonempty_not_all_stale self).
  - exists (snd x), (fst x), (mk (dict_del (items self) (snd x)) post).
    repeat split.
    + now apply stale_false.
    + intros k' v' Hg. rewrite <- surjective_pairing.
      destruct (loops_find_minimum self pre post x Hinv Hheap Hpre k' v' Hg)
        as [<- | [_ H]]; [apply entry_le_refl | exact H].
Qed.

Lemma entry_le_priority (v v' : R) (k k' : key) : entry_le (v, k) (v', k') -> v <= v'.
Proof. unfold entry_le. cbn. intros [H | [H _]]; lra. Qed.

Lemma sorted_iter_turns_spec (n : nat) (self : t) :
  invariant self -> List.length (items self) = n ->
  exists ks self',
    sorted_iter_turns n self = Some (Ok (ks, self'))
    /\ items self' = []
    /\ Permutation (map fst (items self)) ks
    /\ StronglySorted (priority_le (items self)) ks.
Proof.
  revert self. induction n as [| n IH]; intros self Hinv Hlen.
  - destruct (items self) as [| ? ?] eqn:Hd; [| discriminate].
    exists [], self. cbn. rewrite Hd. repeat split; constructor.
  - assert (Hne : items self <> [])
      by (intros Hd; rewrite Hd in Hlen; discriminate).
    destruct (pop_smallest_spec self Hinv Hne) as (k & v & s1 & Hpop & Hg & Hmin & Hitems).
    pose proof (invariant_pop _ _ _ Hinv Hpop) as Hinv1.
    pose proof Hinv as (Hnd & _ & _).
    assert (Hlen1 : List.length (items s1) = n).
    { rewrite Hitems. pose proof (dict_del_length _ _ _ Hg) as Hl. lia. }
    destruct (IH s1 Hinv1 Hlen1) as (ks & s2 & Hrun & Hempty & Hperm & Hsorted).
    exists (k :: ks), s2. repeat split.
    + cbn [sorted_iter_turns]. destruct (items self); [congruence |].
      now rewrite Hpop, Hrun.
    + exact Hempty.
    + apply Permutation_trans with (k :: map fst (dict_del (items self) k)).
      * now apply dict_del_keys with v.
      * constructor. now rewrite <- Hitems.
    + assert (Hks : forall k', In k' ks -> k' <> k /\ In k' (map fst (items self))).
      { intros k' Hk'. apply (Permutation_in _ (Permutation_sym Hperm)) in Hk'.
        rewrite Hitems in Hk'.
        pose proof (Permutation_NoDup (dict_del_keys _ _ _ Hg) Hnd) as Hnd'.
        inversion Hnd' as [| ? ? Hnin _]; subst. split.
        - intros ->. contradiction.
        - apply (Permutation_in _ (Permutation_sym (dict_del_keys _ _ _ Hg))).
          now right. }
      constructor.
      * rewrite Hitems in Hsorted. clear - Hsorted Hks Hnd.
        induction Hsorted as [| k1 l Hl IHl Hall]; constructor.
        -- apply IHl. intros k' Hk'. apply Hks. now right.
        -- apply Forall_forall. intros k2 Hk2.
           pose proof (proj1 (Forall_forall _ _) Hall k2 Hk2) as H12.
           intros v1 v2 H1 H2. apply H12; rewrite (get_dict_del _ _ _ Hnd).
           ++ destruct (Z.eqb_spec k1 k) as [-> | _]; [| exact H1].
              exfalso. now apply (proj1 (Hks k (or_introl eq_refl))).
           ++ destruct (Z.eqb_spec k2 k) as [-> | _]; [| exact H2].
              exfalso. now apply (proj1 (Hks k (or_intror Hk2))).
      * apply Forall_forall. intros k' Hk' v1 v2 H1 H2.
        rewrite Hg in H1. injection H1 as <-.
        apply (entry_le_priority v v2 k k'). now apply Hmin.
Qed.

End PriorityDict.

(** X19. The methods of priority_dict keep the object in order.  A new
    object has every item of the dict in its heap with its priority; the
    assignment self[k] = val, setdefault, update, smallest and pop_smallest
    keep it so; and after self[k] = val the dict gives val for k and what
    it gave before for the other keys, and the heap holds at most twice as
    many entries as the dict. *)
Theorem X19_priority_dict_invariant (self : Utils.priority_dict.t)
    (pairs : list (Z * R)) (k : Z) (val : R) :
  Utils.priority_dict.invariant (Utils.priority_dict.__init__ pairs)
  /\ (Utils.priority_dict.invariant self ->
      let after := Utils.priority_dict.__setitem__ self k val in
      Utils.priority_dict.invariant after
      /\ (forall k', Utils.priority_dict.get (Utils.priority_dict.items after) k'
                     = if (k' =? k)%Z then Some val
                       else Utils.priority_dict.get (Utils.priority_dict.items self) k')
      /\ (List.length (Utils.priority_dict._heap after)
          <= 2 * List.length (Utils.priority_dict.items after))%nat
      /\ Utils.priority_dict.invariant (snd (Utils.priority_dict.setdefault self k val))
      /\ Utils.priority_dict.invariant (Utils.priority_dict.update self pairs)
      /\ (forall k' self', Utils.priority_dict.smallest self = Utils.Ok (k', self') ->
                           Utils.priority_dict.invariant self')
      /\ (forall k' self', Utils.priority_dict.pop_smallest self = Utils.Ok (k', self') ->
                           Utils.priority_dict.invariant self')).
Proof.
  split; [apply invariant_init |]. intros Hinv after.
  split; [| split; [| split; [| split; [| split; [| split]]]]].
  - now apply invariant_setitem.
  - intros k'. unfold after, Utils.priority_dict.__setitem__.
    destruct (_ <? _)%nat; cbn; apply get_dict_set.
  - unfold after, Utils.priority_dict.__setitem__.
    destruct (Nat.ltb_spec (List.length (Utils.priority_dict._heap self))
                (2 * List.length (Utils.priority_dict.dict_set
                                    (Utils.priority_dict.items self) k val))) as [Hlt | Hge].
    + cbn [Utils.priority_dict._heap Utils.priority_dict.items].
      rewrite heappush_length. lia.
    + cbn [Utils.priority_dict._rebuild_heap Utils.priority_dict._heap
             Utils.priority_dict.items].
      rewrite heapify_length, length_map. lia.
  - unfold Utils.priority_dict.setdefault.
    destruct (Utils.priority_dict.get _ k); cbn; [exact Hinv | now apply invariant_setitem].
  - apply invariant_rebuild. apply dict_update_NoDup. apply Hinv.
  - intros k' self' H. now apply (invariant_smallest self self' k').
  - intros k' self' H. now apply (invariant_pop self self' k').
Qed.

Lemma X19_witness :
  let self := Utils.priority_dict.__init__ [(1%Z, 5); (2%Z, 3)] in
  Utils.priority_dict.invariant (Utils.priority_dict.__setitem__ self 1%Z 2).
Proof.
  intros self.
  apply (proj2 (X19_priority_dict_invariant self [] 1%Z 2)).
  apply invariant_init.
Defined.

(** X20. smallest.  On an object in order that is not empty, smallest
    returns a key of the dict whose priority is the lowest of all (and,
    among the keys of that priority, the lowest key), and leaves the dict
    as it is; on an empty one it raises IndexError. *)
Theorem X20_smallest (self : Utils.priority_dict.t) :
  Utils.priority_dict.invariant self ->
  (Utils.priority_dict.items self = [] ->
   Utils.priority_dict.smallest self = Utils.Raise Utils.IndexError)
  /\ (Utils.priority_dict.items self <> [] ->
      exists k v self',
        Utils.priority_dict.smallest self = Utils.Ok (k, self')
        /\ Utils.priority_dict.items self' = Utils.priority_dict.items self
        /\ Utils.priority_dict.get (Utils.priority_dict.items self) k = Some v
        /\ forall k' v',
            Utils.priority_dict.get (Utils.priority_dict.items self) k' = Some v' ->
            v <= v' /\ (v' = v -> (k <= k')%Z)).
Proof.
  intros Hinv. unfold Utils.priority_dict.smallest.
  destruct (loops_spec (Utils.priority_dict.items self) (Utils.priority_dict._heap self))
    as [(Hall & -> & _) | (pre & x & post & Hheap & Hpre & Hx & -> & _)].
  - split; [reflexivity |]. intros Hne. exfalso.
    now apply (nonempty_not_all_stale self).
  - split.
    + intros Hempty. rewrite Hempty in Hx. discriminate.
    + intros _. exists (snd x), (fst x),
        (Utils.priority_dict.mk (Utils.priority_dict.items self) (x :: post)).
      split; [reflexivity |]. split; [reflexivity |].
      split; [now apply stale_false |].
      intros k' v' Hg.
      assert (H : Utils.priority_dict.entry_le x (v', k')).
      { destruct (loops_find_minimum self pre post x Hinv Hheap Hpre k' v' Hg)
          as [<- | [_ H]]; [apply entry_le_refl | exact H]. }
      destruct H as [H | [H H']]; cbn in H; [lra |]. cbn in H'.
      split; [lra | intros _; exact H'].
Qed.

Lemma X20_witness :
  let self := Utils.priority_dict.__init__ [(1%Z, 5); (2%Z, 3)] in
  (Utils.priority_dict.items self = [] ->
   Utils.priority_dict.smallest self = Utils.Raise Utils.IndexError)
  /\ (Utils.priority_dict.items self <> [] ->
      exists k v self',
        Utils.priority_dict.smallest self = Utils.Ok (k, self')
        /\ Utils.priority_dict.items self' = Utils.priority_dict.items self
        /\ Utils.priority_dict.get (Utils.priority_dict.items self) k = Some v
        /\ forall k' v',
            Utils.priority_dict.get (Utils.priority_dict.items self) k' = Some v' ->
            v <= v' /\ (v' = v -> (k <= k')%Z)).
Proof.
  intros self. apply (X20_smallest self). apply invariant_init.
Defined.

(** X21. pop_smallest.  On an object in order that is not empty,
    pop_smallest returns a key whose priority is the lowest of all and
    deletes it: afterwards the key is not in the dict, every other key has
    the priority it had, and the dict is one item shorter.  On an empty
    object it raises IndexError.  It returns the key that smallest
    returns. *)
Theorem X21_pop_smallest (self : Utils.priority_dict.t) :
  Utils.priority_dict.invariant self ->
  (Utils.priority_dict.items self = [] ->
   Utils.priority_dict.pop_smallest self = Utils.Raise Utils.IndexError)
  /\ (Utils.priority_dict.items self <> [] ->
      exists k v self' self'',
        Utils.priority_dict.pop_smallest self = Utils.Ok (k, self')
        /\ Utils.priority_dict.smallest self = Utils.Ok (k, self'')
        /\ Utils.priority_dict.get (Utils.priority_dict.items self) k = Some v
        /\ (forall k' v',
               Utils.priority_dict.get (Utils.priority_dict.items self) k' = Some v' ->
               v <= v')
        /\ (forall k',
               Utils.priority_dict.get (Utils.priority_dict.items self') k'
               = if (k' =? k)%Z then None
                 else Utils.priority_dict.get (Utils.priority_dict.items self) k')
        /\ S (List.length (Utils.priority_dict.items self'))
           = List.length (Utils.priority_dict.items self)).
Proof.
  intros Hinv. pose proof Hinv as (Hnd & _ & _).
  unfold Utils.priority_dict.pop_smallest, Utils.priority_dict.smallest.
  destruct (loops_spec (Utils.priority_dict.items self) (Utils.priority_dict._heap self))
    as [(Hall & _ & ->) | (pre & x & post & Hheap & Hpre & Hx & -> & ->)].
  - split; [reflexivity |]. intros Hne. exfalso.
    now apply (nonempty_not_all_stale self).
  - split.
    + intros Hempty. rewrite Hempty in Hx. discriminate.
    + intros _. apply stale_false in Hx.
      exists (snd x), (fst x),
        (Utils.priority_dict.mk
           (Utils.priority_dict.dict_del (Utils.priority_dict.items self) (snd x)) post),
        (Utils.priority_dict.mk (Utils.priority_dict.items self) (x :: post)).
      split; [reflexivity |]. split; [reflexivity |].
      split; [exact Hx |]. split; [| split].
      * intros k' v' Hg.
        assert (H : Utils.priority_dict.entry_le x (v', k')).
        { destruct (loops_find_minimum self pre post x Hinv Hheap Hpre k' v' Hg)
            as [<- | [_ H]]; [apply entry_le_refl | exact H]. }
        destruct H as [H | [H _]]; cbn in H; lra.
      * intros k'. cbn. now apply get_dict_del.
      * cbn. now apply dict_del_length with (fst x).
Qed.

Lemma X21_witness :
  let self := Utils.priority_dict.__init__ [(1%Z, 5); (2%Z, 3)] in
  Utils.priority_dict.items self = [] ->
  Utils.priority_dict.pop_smallest self = Utils.Raise Utils.IndexError.
Proof.
  intros self. apply (X21_pop_smallest self). apply invariant_init.
Defined.

(** X22. sorted_iter.  Run to its end on an object in order, the iterator
    takes len(self) turns and raises nothing; it yields every key of the
    dict once, in the order of their priorities, lowest first; and it
    leaves the dict empty. *)
Theorem X22_sorted_iter (self : Utils.priority_dict.t) :
  Utils.priority_dict.invariant self ->
  exists ks self',
    Utils.priority_dict.sorted_iter self = Some (Utils.Ok (ks, self'))
    /\ Utils.priority_dict.items self' = []
    /\ Permutation (map fst (Utils.priority_dict.items self)) ks
    /\ StronglySorted
         (Utils.priority_dict.priority_le (Utils.priority_dict.items self)) ks.
Proof.
  intros Hinv. now apply sorted_iter_turns_spec.
Qed.

Lemma X22_witness :
  let self := Utils.priority_dict.__init__ [(1%Z, 5); (2%Z, 3)] in
  exists ks self',
    Utils.priority_dict.sorted_iter self = Some (Utils.Ok (ks, self'))
    /\ Utils.priority_dict.items self' = []
    /\ Permutation (map fst (Utils.priority_dict.items self)) ks
    /\ StronglySorted
         (Utils.priority_dict.priority_le (Utils.priority_dict.items self)) ks.
Proof.
  intros self. apply (X22_sorted_iter self). apply invariant_init.
Defined.

(** ** listify, unlistify *)

Lemma pyval_not_own_singleton (y : Utils.pyval) : y <> Utils.PList [y].
Proof.
  intros H. apply (f_equal Utils.pyval_size) in H. cbn in H. lia.
Qed.

(** X23. listify and unlistify are not inverse of each other on lists of
    one element.  unlistify(listify(x)) is x exactly when x is not a list of
    one element (it is the element otherwise); and for a list l,
    listify(unlistify(l)) is l exactly when l is not a list of one element
    that is a list itself. *)
Theorem X23_listify_unlistify (x : Utils.pyval) :
  (Utils.unlistify (Utils.listify x) = Utils.Ok x <-> forall y, x <> Utils.PList [y])
  /\ (forall l r,
         x = Utils.PList l -> Utils.unlistify x = Utils.Ok r ->
         (Utils.listify r = x <-> forall l', l <> [Utils.PList l'])).
Proof.
  split.
  - destruct x as [n | l]; cbn.
    + split; [discriminate | reflexivity].
    + destruct l as [| y [| z l]]; cbn.
      * split; [discriminate | reflexivity].
      * split.
        -- intros [= H]. exfalso. now apply (pyval_not_own_singleton y).
        -- intros H. exfalso. now apply (H y).
      * split; [discriminate | reflexivity].
  - intros l r -> . cbn. destruct l as [| y [| z l]]; cbn.
    + intros [= <-]. cbn. split; [discriminate | reflexivity].
    + intros [= <-]. destruct y as [n | l']; cbn.
      * split; [discriminate | reflexivity].
      * split.
        -- intros [= H]. exfalso.
           apply (pyval_not_own_singleton (Utils.PList l')). now rewrite H at 1.
        -- intros H. exfalso. now apply (H l').
    + intros [= <-]. cbn. split; [discriminate | reflexivity].
Qed.

Lemma X23_witness :
  Utils.listify (Utils.PNum 1) = Utils.PList [Utils.PNum 1]
  <-> (forall l', [Utils.PNum 1] <> [Utils.PList l']).
Proof.
  apply (proj2 (X23_listify_unlistify (Utils.PList [Utils.PNum 1]))
           [Utils.PNum 1] (Utils.PNum 1)); reflexivity.
Defined.

(** ** makeDistanceMatrix *)

Lemma distance_of_shifted (a b base : R) :
  sqrt ((a - base) ^ 2 + (b - base) ^ 2 - 2 * ((a - base) * (b - base))) = Rabs (a - b).
Proof.
  replace ((a - base) ^ 2 + (b - base) ^ 2 - 2 * ((a - base) * (b - base)))
    with (Rsqr (a - b)) by (unfold Rsqr; ring).
  apply sqrt_Rsqr_abs.
Qed.

(** X24. makeDistanceMatrix on two lists of floats: the result has one row
    for each element of T1 and one column for each element of T2, and the
    entry of row i and column j is |T1[i] - T2[j]|, whatever the smallest
    element that the function subtracts first; when both lists are empty
    the call raises ValueError. *)
Theorem X24_makeDistanceMatrix (T1 T2 : list R) :
  Utils.makeDistanceMatrix T1 T2
  = match T1 ++ T2 with
    | [] => Utils.Raise Utils.ValueError
    | _ :: _ => Utils.Ok (map (fun a => map (fun b => Rabs (a - b)) T2) T1)
    end.
Proof.
  unfold Utils.makeDistanceMatrix. destruct (T1 ++ T2) as [| x l]; cbn; [reflexivity |].
  f_equal. rewrite map_map. apply map_ext. intros a.
  rewrite map_map. apply map_ext. intros b. apply distance_of_shifted.
Qed.

(** ** rgbToHex *)

Lemma channel_of_byte :
  forallb (fun m =>
             let s := Utils.slice_from 2 (Utils.hex (Z.of_nat m)) in
             String.eqb (if (String.length s <? 2)%nat then ("0" ++ s)%string else s)
               (Utils.two_digits (Z.of_nat m)))
    (seq 0 256) = true.
Proof. vm_compute. reflexivity. Qed.

Lemma channel_spec (c : R) :
  0 <= c <= 1 ->
  Utils.channel c = Utils.two_digits (Int_part (c * 255))
  /\ (0 <= Int_part (c * 255) <= 255)%Z.
Proof.
  intros Hc. unfold Utils.channel, Utils.int.
  destruct (Rle_dec 0 (c * 255)) as [_ | Hn]; [| exfalso; apply Hn; lra].
  destruct (base_Int_part (c * 255)) as [Hlo Hhi].
  assert (Hrange : (0 <= Int_part (c * 255) <= 255)%Z).
  { split.
    - apply Z.lt_succ_r, lt_IZR. rewrite succ_IZR. lra.
    - apply le_IZR. lra. }
  split; [| exact Hrange].
  assert (Hin : In (Z.to_nat (Int_part (c * 255))) (seq 0 256)) by (apply in_seq; lia).
  pose proof (proj1 (forallb_forall _ _) channel_of_byte _ Hin) as H.
  cbv beta in H. rewrite Z2Nat.id in H by lia. apply String.eqb_eq. exact H.
Qed.

(** X25. rgbToHex on a colour whose channels are in [0, 1].  The result is
    0x followed by the alpha, blue, green and red channels in this order,
    each as the two hexadecimal digits of the integer part of 255 times the
    channel, so a string of 10 characters.  A colour of 3 elements has the
    alpha ff, and the list passed in receives 1 as fourth element. *)
Theorem X25_rgbToHex (r g b a : R) :
  0 <= r <= 1 -> 0 <= g <= 1 -> 0 <= b <= 1 -> 0 <= a <= 1 ->
  let byte c := Utils.two_digits (Int_part (c * 255)) in
  Utils.rgbToHex [r; g; b; a]
  = Utils.Ok (("0x" ++ byte a ++ byte b ++ byte g ++ byte r)%string, [r; g; b; a])
  /\ Utils.rgbToHex [r; g; b]
     = Utils.Ok (("0xff" ++ byte b ++ byte g ++ byte r)%string, [r; g; b; 1])
  /\ (forall s color, Utils.rgbToHex [r; g; b; a] = Utils.Ok (s, color) ->
                      String.length s = 10%nat).
Proof.
  intros Hr Hg Hb Ha byte.
  destruct (channel_spec r Hr) as [Er _], (channel_spec g Hg) as [Eg _],
    (channel_spec b Hb) as [Eb _], (channel_spec a Ha) as [Ea _].
  assert (E1 : Utils.channel 1 = "ff"%string).
  { destruct (channel_spec 1 ltac:(lra)) as [E _]. rewrite E.
    replace (Int_part (1 * 255)) with 255%Z; [reflexivity |].
    apply Int_part_spec. lra. }
  assert (H4 : Utils.rgbToHex [r; g; b; a]
               = Utils.Ok (("0x" ++ byte a ++ byte b ++ byte g ++ byte r)%string,
                           [r; g; b; a])).
  { unfold Utils.rgbToHex. cbn. now rewrite Er, Eg, Eb, Ea. }
  split; [exact H4 |]. split.
  - unfold Utils.rgbToHex. cbn. now rewrite Er, Eg, Eb, E1.
  - intros s color. rewrite H4. intros [= <- _]. reflexivity.
Qed.

Lemma X25_witness :
  Utils.rgbToHex [1; 0; 0.5; 1]
  = Utils.Ok (("0x" ++ Utils.two_digits (Int_part (1 * 255))
                 ++ Utils.two_digits (Int_part (0.5 * 255))
                 ++ Utils.two_digits (Int_part (0 * 255))
                 ++ Utils.two_digits (Int_part (1 * 255)))%string, [1; 0; 0.5; 1]).
Proof. apply (X25_rgbToHex 1 0 0.5 1); lra. Defined.

(** ** interpColors *)

Lemma getitem_nth {A : Type} (l : list A) (i : nat) (x : A) :
  nth_error l i = Some x -> Utils.getitem l i = Utils.Ok x.
Proof. unfold Utils.getitem. now intros ->. Qed.

Lemma truediv_ok (a b : R) : b <> 0 -> Utils.truediv a b = Utils.Ok (a / b).
Proof. unfold Utils.truediv. destruct (Req_EM_T b 0); [contradiction | reflexivity]. Qed.

Ltac interp_run :=
  unfold Utils.interpColors, Utils.interp, Utils.getitem; cbn;
  repeat (rewrite truediv_ok by lra; cbn).

(** A weighted mean of two numbers lies between them. *)
Lemma interp_between (v vmin vmax a b : R) :
  vmin < vmax -> vmin <= v <= vmax ->
  Rmin a b <= ((vmax - v) * a + (v - vmin) * b) / (vmax - vmin) <= Rmax a b.
Proof.
  intros Hlt Hv.
  assert (Hd : 0 < vmax - vmin) by lra.
  pose proof (Rmin_l a b). pose proof (Rmin_r a b).
  pose proof (Rmax_l a b). pose proof (Rmax_r a b).
  split.
  - apply Rmult_le_reg_r with (vmax - vmin); [exact Hd |].
    unfold Rdiv. rewrite Rmult_assoc, Rinv_l, Rmult_1_r by lra.
    replace (Rmin a b * (vmax - vmin))
      with ((vmax - v) * Rmin a b + (v - vmin) * Rmin a b) by ring.
    apply Rplus_le_compat; apply Rmult_le_compat_l; lra.
  - apply Rmult_le_reg_r with (vmax - vmin); [exact Hd |].
    unfold Rdiv. rewrite Rmult_assoc, Rinv_l, Rmult_1_r by lra.
    replace (Rmax a b * (vmax - vmin))
      with ((vmax - v) * Rmax a b + (v - vmin) * Rmax a b) by ring.
    apply Rplus_le_compat; apply Rmult_le_compat_l; lra.
Qed.

(** X26. interpColors between two colours of 3 or of 4 channels each, for
    vmin < vmax.  The result has as many channels as cmin (3 for RGB
    colours, not 4); it is cmin at v = vmin and cmax at v = vmax; and for v
    between vmin and vmax every channel of the result lies between the
    channels of cmin and of cmax. *)
Theorem X26_interpColors (v vmin vmax : R) (cmin cmax : list R) :
  vmin < vmax ->
  (List.length cmin = 3 \/ List.length cmin = 4)%nat ->
  List.length cmax = List.length cmin ->
  Utils.interpColors vmin vmin vmax cmin cmax = Utils.Ok cmin
  /\ Utils.interpColors vmax vmin vmax cmin cmax = Utils.Ok cmax
  /\ exists O,
      Utils.interpColors v vmin vmax cmin cmax = Utils.Ok O
      /\ List.length O = List.length cmin
      /\ (vmin <= v <= vmax ->
          forall i a b o,
            nth_error cmin i = Some a -> nth_error cmax i = Some b ->
            nth_error O i = Some o -> Rmin a b <= o <= Rmax a b).
Proof.
  intros Hlt Hlen Hlen'.
  assert (Hne : vmax <> vmin) by lra.
  assert (Hid : forall a b, ((vmax - vmin) * a + (vmin - vmin) * b) / (vmax - vmin) = a)
    by (intros; field; lra).
  assert (Hid' : forall a b, ((vmax - vmax) * a + (vmax - vmin) * b) / (vmax - vmin) = b)
    by (intros; field; lra).
  destruct Hlen as [Hlen | Hlen]; rewrite Hlen in Hlen'.
  - destruct cmin as [| a0 [| a1 [| a2 [| ? ?]]]]; try discriminate.
    destruct cmax as [| b0 [| b1 [| b2 [| ? ?]]]]; try discriminate.
    interp_run. rewrite !Hid, !Hid'. split; [reflexivity |]. split; [reflexivity |].
    eexists. split; [reflexivity |]. split; [reflexivity |].
    intros Hv i a b o Ha Hb Ho.
    destruct i as [| [| [| i]]]; cbn in Ha, Hb, Ho;
      [| | | destruct i; discriminate];
      injection Ha as <-; injection Hb as <-; injection Ho as <-;
      now apply interp_between.
  - destruct cmin as [| a0 [| a1 [| a2 [| a3 [| ? ?]]]]]; try discriminate.
    destruct cmax as [| b0 [| b1 [| b2 [| b3 [| ? ?]]]]]; try discriminate.
    interp_run. rewrite !Hid, !Hid'. split; [reflexivity |]. split; [reflexivity |].
    eexists. split; [reflexivity |]. split; [reflexivity |].
    intros Hv i a b o Ha Hb Ho.
    destruct i as [| [| [| [| i]]]]; cbn in Ha, Hb, Ho;
      [| | | | destruct i; discriminate];
      injection Ha as <-; injection Hb as <-; injection Ho as <-;
      now apply interp_between.
Qed.

Lemma X26_witness :
  Utils.interpColors 0 0 10 [1; 0; 0] [0; 0; 1] = Utils.Ok [1; 0; 0].
Proof.
  apply (X26_interpColors 5 0 10 [1; 0; 0] [0; 0; 1]); [lra | now left | reflexivity].
Defined.

(** X27. interpColors, the errors.  With vmax = vmin and two colours that
    are not empty the call raises ZeroDivisionError; with an empty cmin or
    cmax it raises IndexError, whatever v, vmin and vmax; and with
    vmax <> vmin, a cmin of 4 channels and a cmax of 3 it raises
    IndexError. *)
Theorem X27_interpColors_errors (v vmin vmax : R) (cmin cmax : list R) :
  (vmax = vmin -> cmin <> [] -> cmax <> [] ->
   Utils.interpColors v vmin vmax cmin cmax = Utils.Raise Utils.ZeroDivisionError)
  /\ (cmin = [] \/ cmax = [] ->
      Utils.interpColors v vmin vmax cmin cmax = Utils.Raise Utils.IndexError)
  /\ (vmax <> vmin -> List.length cmin = 4%nat -> List.length cmax = 3%nat ->
      Utils.interpColors v vmin vmax cmin cmax = Utils.Raise Utils.IndexError).
Proof.
  split; [| split].
  - intros -> Hmin Hmax.
    destruct cmin as [| a0 cmin]; [congruence |].
    destruct cmax as [| b0 cmax]; [congruence |].
    unfold Utils.interpColors, Utils.interp, Utils.truediv. cbn.
    destruct (Req_EM_T (vmin - vmin) 0) as [_ | Hn]; [reflexivity | exfalso; apply Hn; lra].
  - intros [-> | ->]; [reflexivity |]. destruct cmin; reflexivity.
  - intros Hne Hmin Hmax.
    destruct cmin as [| a0 [| a1 [| a2 [| a3 [| ? ?]]]]]; try discriminate.
    destruct cmax as [| b0 [| b1 [| b2 [| ? ?]]]]; try discriminate.
    interp_run. reflexivity.
Qed.

Lemma X27_witness :
  Utils.interpColors 0 1 1 [1; 0; 0] [0; 0; 1] = Utils.Raise Utils.ZeroDivisionError.
Proof.
  apply (X27_interpColors_errors 0 1 1 [1; 0; 0] [0; 0; 1]);
    [reflexivity | discriminate | discriminate].
Defined.

(** ** Vectors: dot, norm, + and - *)

Lemma cauchy_schwarz_abs_3 (a1 a2 a3 b1 b2 b3 : R) :
  Rabs (a1 * b1 + a2 * b2 + a3 * b3)
  <= sqrt (a1 * a1 + a2 * a2 + a3 * a3) * sqrt (b1 * b1 + b2 * b2 + b3 * b3).
Proof.
  apply Rabs_le. split.
  - pose proof (cauchy_schwarz_3 (- a1) (- a2) (- a3) b1 b2 b3) as H.
    replace (- a1 * - a1 + - a2 * - a2 + - a3 * - a3)
      with (a1 * a1 + a2 * a2 + a3 * a3) in H by ring.
    lra.
  - apply cauchy_schwarz_3.
Qed.

(** X28. The vector operations of ECEFCoords and ENUCoords.  dot is
    symmetric, norm squared is the dot product of a vector with itself,
    |a . b| <= |a| |b|, and |a + b| <= |a| + |b|.  The difference a - b is
    the vector from a to b (b minus a, component by component) in both
    classes, so that (a - b) + a is b, and a - b and b - a add up to the
    null vector. *)
Theorem X28_vector_algebra :
  (forall a b : ECEFCoords.t,
      ECEFCoords_dot a b = ECEFCoords_dot b a
      /\ ECEFCoords_norm a * ECEFCoords_norm a = ECEFCoords_dot a a
      /\ Rabs (ECEFCoords_dot a b) <= ECEFCoords_norm a * ECEFCoords_norm b
      /\ ECEFCoords_norm (ECEFCoords_add a b) <= ECEFCoords_norm a + ECEFCoords_norm b
      /\ ECEFCoords_add (ECEFCoords_sub a b) a = b
      /\ ECEFCoords_add (ECEFCoords_sub a b) (ECEFCoords_sub b a) = ECEFCoords.new 0 0 0)
  /\ (forall a b : ENUCoords.t,
         ENUCoords_dot a b = ENUCoords_dot b a
         /\ ENUCoords_norm a * ENUCoords_norm a = ENUCoords_dot a a
         /\ Rabs (ENUCoords_dot a b) <= ENUCoords_norm a * ENUCoords_norm b
         /\ ENUCoords_norm (ENUCoords_add a b) <= ENUCoords_norm a + ENUCoords_norm b
         /\ ENUCoords_add (ENUCoords_sub a b) a = b
         /\ ENUCoords_add (ENUCoords_sub a b) (ENUCoords_sub b a) = ENUCoords.new 0 0 0).
Proof.
  split; intros [a1 a2 a3] [b1 b2 b3].
  - unfold ECEFCoords_norm, ECEFCoords_dot, ECEFCoords_add, ECEFCoords_sub. cbn.
    split; [ring |]. split; [apply sqrt_sqrt; nra |].
    split; [apply cauchy_schwarz_abs_3 |].
    split; [| split; f_equal; ring].
    replace ((b1 + a1) * (b1 + a1) + (b2 + a2) * (b2 + a2) + (b3 + a3) * (b3 + a3))
      with ((a1 + b1) * (a1 + b1) + (a2 + b2) * (a2 + b2) + (a3 + b3) * (a3 + b3))
      by ring.
    apply triangle_3.
  - unfold ENUCoords_norm, ENUCoords_dot, ENUCoords_add, ENUCoords_sub.
    cbn [ENUCoords.E ENUCoords.N ENUCoords.U].
    rewrite !sqrt3_pow.
    split; [ring |]. split; [apply sqrt_sqrt; nra |].
    split; [apply cauchy_schwarz_abs_3 |].
    split; [| split; f_equal; ring].
    replace ((b1 + a1) * (b1 + a1) + (b2 + a2) * (b2 + a2) + (b3 + a3) * (b3 + a3))
      with ((a1 + b1) * (a1 + b1) + (a2 + b2) * (a2 + b2) + (a3 + b3) * (a3 + b3))
      by ring.
    apply triangle_3.
Qed.

(** ** Geodetic points through a local frame *)

(** X29. A geodetic point of the ellipsoid (height 0), with longitude in
    (-180, 180] and latitude strictly between -90 and 90, converted to ENU
    relative to any base and converted back with ENUCoords.toGeoCoords and
    the same base, is the point again. *)
Theorem X29_geo_enu_geo_roundtrip (lo la : R) (B : Base) :
  -180 < lo <= 180 -> -90 < la < 90 ->
  ENUCoords_toGeoCoords (GeoCoords_toENUCoords (GeoCoords.new lo la 0) B) B
  = GeoCoords.new lo la 0.
Proof.
  intros Hlo Hla.
  unfold ENUCoords_toGeoCoords, GeoCoords_toENUCoords,
    ENUCoords_toECEFCoords, ECEFCoords_toENUCoords.
  cbn [Base_toECEFCoords]. unfold ECEFCoords_toECEFCoords.
  rewrite rotation_there_and_back.
  pose proof (geo_roundtrip_lon (GeoCoords.new lo la 0)) as Hlon.
  cbn [GeoCoords.lon GeoCoords.lat GeoCoords.hgt] in Hlon.
  pose proof Re_pos as HRe.
  specialize (Hlon Hlo Hla ltac:(lra)).
  destruct (geo_roundtrip_on_ellipsoid lo la Hla) as [Hlat Hhgt].
  destruct (ECEFCoords_toGeoCoords (GeoCoords_toECEFCoords (GeoCoords.new lo la 0)))
    as [lo' la' h'].
  cbn in Hlon, Hlat, Hhgt. now subst.
Qed.

Lemma X29_witness :
  ENUCoords_toGeoCoords
    (GeoCoords_toENUCoords (GeoCoords.new 2 48 0) (BaseGeo (GeoCoords.new 0 45 100)))
    (BaseGeo (GeoCoords.new 0 45 100))
  = GeoCoords.new 2 48 0.
Proof. apply (X29_geo_enu_geo_roundtrip 2 48); lra. Defined.
